(** * Domain-server settings and permissions registry

    A shallow embedding of [DomainServerSettingsManager.cpp] and
    [NodePermissions.cpp]: the configuration store, the permission maps with
    their pack / unpack round trip, the version-gated migrations, the settings
    update protocol and the ordering of persisted permission lists.

    Qt containers are embedded as follows.
    - [QString] is [string]; [toLower] folds the ASCII letters.
    - [QUuid] is its 128-bit value as [N]; the null UUID is [0].
    - [QVariant] is an inductive type with one constructor per meta type that
      occurs in the settings documents.
    - [QVariantMap] and [QJsonObject] are association lists with unique keys;
      the list order stands for the order of [keys()].
    - [QHash<NodePermissionsKey, NodePermissionsPointer>] is a [gmap]; a
      [NodePermissionsPointer] held by exactly one map slot is embedded as
      the pointed-to value, and the secondary by-UUID indices, which are only
      ever read through [->getKey()], hold the key of their pointee. *)

From Stdlib Require Import ZArith QArith Qround Ascii String.
From stdpp Require Import gmap strings list fin_maps pretty.

#[local] Set Warnings "-register-all".

Local Open Scope string_scope.
Local Open Scope Z_scope.

(** ** Strings *)

Module QStr.

Definition ascii_toLower (c : ascii) : ascii :=
  let n := N_of_ascii c in
  if ((65 <=? n) && (n <=? 90))%N then ascii_of_N (n + 32) else c.

(** [QString::toLower] on ASCII text. *)
Fixpoint toLower (s : string) : string :=
  match s with
  | EmptyString => EmptyString
  | String c r => String (ascii_toLower c) (toLower r)
  end.

(** [QString::startsWith(QChar)]. *)
Definition startsWith (s : string) (c : ascii) : bool :=
  match s with
  | String c' _ => bool_decide (c' = c)
  | EmptyString => false
  end.

Definition isEmpty (s : string) : bool :=
  match s with EmptyString => true | _ => false end.

(** Split a key path at every ['.']. *)
Fixpoint splitAcc (s : string) (cur : string) : list string :=
  match s with
  | EmptyString => [String.rev cur]
  | String c r =>
      if bool_decide (c = "."%char) then String.rev cur :: splitAcc r EmptyString
      else splitAcc r (String c cur)
  end.

Definition split (s : string) : list string := splitAcc s EmptyString.

(** [QString::operator<]: code-unit lexicographic order. *)
Definition lt (a b : string) : bool := String.ltb a b.

(** Decimal digits of a string, most significant first. *)
Definition digit (c : ascii) : option Z :=
  let n := N_of_ascii c in
  if ((48 <=? n) && (n <=? 57))%N then Some (Z.of_N (n - 48)) else None.

Fixpoint digitsAcc (s : string) (acc : Z) : option Z :=
  match s with
  | EmptyString => Some acc
  | String c r =>
      match digit c with
      | Some d => digitsAcc r (10 * acc + d)
      | None => None
      end
  end.

Definition unsignedDigits (s : string) : option Z :=
  match s with
  | EmptyString => None
  | _ => digitsAcc s 0
  end.

Definition signOf (s : string) : Z * string :=
  match s with
  | String "-" r => (-1, r)
  | String "+" r => (1, r)
  | _ => (1, s)
  end.

(** [QString::toInt]: a signed decimal that fits [int]; [0] otherwise. *)
Definition toInt (s : string) : Z :=
  let '(sg, body) := signOf s in
  match unsignedDigits body with
  | Some n =>
      let v := sg * n in
      if (-2147483648 <=? v) && (v <=? 2147483647) then v else 0
  | None => 0
  end.

(** The mantissa of a decimal: [ddd], [ddd.ddd], [.ddd] or [ddd.]. *)
Definition decimal (body : string) : option Q :=
  match splitAcc body EmptyString with
  | [ip] =>
      match unsignedDigits ip with
      | Some n => Some (inject_Z n)
      | None => None
      end
  | [ip; fp] =>
      match digitsAcc ip 0, digitsAcc fp 0 with
      | Some n, Some f =>
          if isEmpty ip && isEmpty fp then None
          else
            let scale := 10 ^ Z.of_nat (String.length fp) in
            Some (Qmake (n * scale + f) (Z.to_pos scale))
      | _, _ => None
      end
  | _ => None
  end.

(** The text before and after the first [e] or [E]. *)
Fixpoint splitAtExponent (s : string) (cur : string) : string * option string :=
  match s with
  | EmptyString => (String.rev cur, None)
  | String c r =>
      if bool_decide (c = "e"%char) || bool_decide (c = "E"%char)
      then (String.rev cur, Some r)
      else splitAtExponent r (String c cur)
  end.

(** [QString::toDouble] on decimals [[-]ddd[.ddd][e[-]dd]]; [0] for any
    other text. The value is kept as an exact rational, not rounded to a
    [double]. *)
Definition toDouble (s : string) : Q :=
  let '(sg, body) := signOf s in
  let '(mantissa, exponent) := splitAtExponent body EmptyString in
  match decimal mantissa with
  | Some m =>
      match exponent with
      | None => (inject_Z sg * m)%Q
      | Some x =>
          let '(xsg, xbody) := signOf x in
          match unsignedDigits xbody with
          | Some n => (inject_Z sg * m * Qpower (inject_Z 10) (xsg * n))%Q
          | None => 0%Q
          end
      end
  | None => 0%Q
  end.

End QStr.

(** ** UUIDs *)

Abbreviation QUuid := (N)%type.

Module Uuid.

Definition isNull (u : QUuid) : bool := (u =? 0)%N.

Definition hexDigit (c : ascii) : option N :=
  let n := N_of_ascii c in
  if ((48 <=? n) && (n <=? 57))%N then Some (n - 48)%N
  else if ((97 <=? n) && (n <=? 102))%N then Some (n - 87)%N
  else if ((65 <=? n) && (n <=? 70))%N then Some (n - 55)%N
  else None.

Fixpoint readHex (n : nat) (s : string) (acc : N) : option (N * string) :=
  match n with
  | O => Some (acc, s)
  | S n' =>
      match s with
      | String c r =>
          match hexDigit c with
          | Some d => readHex n' r (acc * 16 + d)%N
          | None => None
          end
      | EmptyString => None
      end
  end.

Definition dash (p : N * string) : option (N * string) :=
  match p with
  | (a, String "-" r) => Some (a, r)
  | _ => None
  end.

(** [QUuid(const QString&)]: an optional opening brace, then the groups
    8-4-4-4-12 of hexadecimal digits; anything else is the null UUID. *)
Definition fromString (text : string) : QUuid :=
  let body := match text with String "{" r => r | _ => text end in
  let parsed :=
    p ← readHex 8 body 0%N; p ← dash p;
    p ← readHex 4 p.2 p.1; p ← dash p;
    p ← readHex 4 p.2 p.1; p ← dash p;
    p ← readHex 4 p.2 p.1; p ← dash p;
    readHex 12 p.2 p.1 in
  match parsed with
  | Some (u, _) => u
  | None => 0%N
  end.

Definition hexChar (d : N) : ascii :=
  if (d <? 10)%N then ascii_of_N (48 + d) else ascii_of_N (87 + d).

Fixpoint hexAcc (n : nat) (v : N) (acc : string) : string :=
  match n with
  | O => acc
  | S n' => hexAcc n' (v / 16)%N (String (hexChar (v mod 16)%N) acc)
  end.

(** [QUuid::toString]: braces, lower-case digits, dashes. *)
Definition toString (u : QUuid) : string :=
  let h := hexAcc 32 u EmptyString in
  "{" +:+ substring 0 8 h +:+ "-" +:+ substring 8 4 h +:+ "-" +:+
  substring 12 4 h +:+ "-" +:+ substring 16 4 h +:+ "-" +:+
  substring 20 12 h +:+ "}".

End Uuid.

(** ** Variants and JSON values *)

Inductive QVariant : Type :=
| VInvalid
| VBool (b : bool)
| VInt (i : Z)
| VDouble (d : Q)
| VString (s : string)
| VByteArray (s : string)
| VUuid (u : QUuid)
| VList (l : list QVariant)
| VMap (m : list (string * QVariant)).

Abbreviation QVariantList := (list QVariant)%type.
Abbreviation QVariantMap := (list (string * QVariant))%type.

Inductive QJsonValue : Type :=
| JNull
| JBool (b : bool)
| JDouble (d : Q)
| JString (s : string)
| JArray (l : list QJsonValue)
| JObject (m : list (string * QJsonValue)).

Abbreviation QJsonArray := (list QJsonValue)%type.
Abbreviation QJsonObject := (list (string * QJsonValue))%type.

(** Association lists with unique keys: [QMap<QString, T>]. *)
Module Assoc.
Section assoc.
Context {T : Type}.

Fixpoint find (k : string) (m : list (string * T)) : option T :=
  match m with
  | [] => None
  | (k', v) :: r => if bool_decide (k' = k) then Some v else find k r
  end.

Definition contains (k : string) (m : list (string * T)) : bool :=
  match find k m with Some _ => true | None => false end.

(** [m[k] = v]: overwrite in place, or add a new binding. *)
Fixpoint insert (k : string) (v : T) (m : list (string * T)) : list (string * T) :=
  match m with
  | [] => [(k, v)]
  | (k', v') :: r =>
      if bool_decide (k' = k) then (k, v) :: r else (k', v') :: insert k v r
  end.

Fixpoint remove (k : string) (m : list (string * T)) : list (string * T) :=
  match m with
  | [] => []
  | (k', v') :: r =>
      if bool_decide (k' = k) then remove k r else (k', v') :: remove k r
  end.

Definition keys (m : list (string * T)) : list string := m.*1.

End assoc.
End Assoc.

Module Variant.

Definition isNull (v : QVariant) : bool :=
  match v with VInvalid => true | _ => false end.

(** [canConvert(QMetaType::QVariantList)]. *)
Definition canConvertList (v : QVariant) : bool :=
  match v with VList _ => true | _ => false end.

(** [canConvert(QMetaType::QVariantMap)]. *)
Definition canConvertMap (v : QVariant) : bool :=
  match v with VMap _ => true | _ => false end.

(** [canConvert(QMetaType::QString)]: every scalar converts to a string. *)
Definition canConvertString (v : QVariant) : bool :=
  match v with
  | VBool _ | VInt _ | VDouble _ | VString _ | VByteArray _ | VUuid _ => true
  | VInvalid | VList _ | VMap _ => false
  end.

Definition toList (v : QVariant) : QVariantList :=
  match v with VList l => l | _ => [] end.

Definition toMap (v : QVariant) : QVariantMap :=
  match v with VMap m => m | _ => [] end.

(** Digits of the fractional part [r / den], at most [fuel] of them. *)
Fixpoint fracDigits (fuel : nat) (r den : Z) : string :=
  match fuel with
  | O => EmptyString
  | S fuel' =>
      if r =? 0 then EmptyString
      else pretty (10 * r / den) +:+ fracDigits fuel' (10 * r mod den) den
  end.

(** [QString::number(double)]: integers print without a fraction; other
    values print their decimal expansion, cut after 17 digits. *)
Definition doubleToString (d : Q) : string :=
  let n := Qnum d in
  let den := Z.pos (Qden d) in
  let a := Z.abs n in
  let body :=
    if a mod den =? 0 then pretty (a / den)
    else pretty (a / den) +:+ "." +:+ fracDigits 17 (a mod den) den in
  if n <? 0 then "-" +:+ body else body.

Definition toString (v : QVariant) : string :=
  match v with
  | VBool b => if b then "true" else "false"
  | VInt i => pretty i
  | VDouble d => doubleToString d
  | VString s => s
  | VByteArray s => s
  | VUuid u => Uuid.toString u
  | VInvalid | VList _ | VMap _ => EmptyString
  end.

Definition stringToBool (s : string) : bool :=
  let l := QStr.toLower s in
  negb (QStr.isEmpty l || bool_decide (l = "0") || bool_decide (l = "false")).

Definition toBool (v : QVariant) : bool :=
  match v with
  | VBool b => b
  | VInt i => negb (i =? 0)
  | VDouble d => negb (Qeq_bool d 0)
  | VString s | VByteArray s => stringToBool s
  | VInvalid | VUuid _ | VList _ | VMap _ => false
  end.

(** [qRound]: half away from zero. *)
Definition qRound (d : Q) : Z :=
  if Qle_bool 0 d then Qfloor (d + (1 # 2)) else Qceiling (d - (1 # 2)).

(** The cast of a 64-bit integer to [int]: the low 32 bits, signed. *)
Definition toInt32 (z : Z) : Z := (z + 2147483648) mod 4294967296 - 2147483648.

Definition toInt (v : QVariant) : Z :=
  match v with
  | VBool b => if b then 1 else 0
  | VInt i => i
  | VDouble d => toInt32 (qRound d)
  | VString s | VByteArray s => QStr.toInt s
  | VInvalid | VUuid _ | VList _ | VMap _ => 0
  end.

Definition toUuid (v : QVariant) : QUuid :=
  match v with
  | VUuid u => u
  | VString s | VByteArray s => Uuid.fromString s
  | _ => 0%N
  end.

(** [toStringList]: a list converts element by element. *)
Definition toStringList (v : QVariant) : list string :=
  match v with
  | VList l => toString <$> l
  | VString s => [s]
  | _ => []
  end.

(** [QVariantMap::value(key)] and the [const] subscript: an invalid variant
    stands for a missing key. *)
Definition value (m : QVariantMap) (k : string) : QVariant :=
  default VInvalid (Assoc.find k m).

End Variant.

Module Json.

Fixpoint toVariant (j : QJsonValue) : QVariant :=
  match j with
  | JNull => VInvalid
  | JBool b => VBool b
  | JDouble d => VDouble d
  | JString s => VString s
  | JArray l => VList (map toVariant l)
  | JObject m => VMap (map (fun kv => (kv.1, toVariant kv.2)) m)
  end.


Definition isString (j : QJsonValue) : bool :=
  match j with JString _ => true | _ => false end.
Definition isBool (j : QJsonValue) : bool :=
  match j with JBool _ => true | _ => false end.
Definition isObject (j : QJsonValue) : bool :=
  match j with JObject _ => true | _ => false end.
Definition isArray (j : QJsonValue) : bool :=
  match j with JArray _ => true | _ => false end.

Definition toString (j : QJsonValue) : string :=
  match j with JString s => s | _ => EmptyString end.
Definition toBool (j : QJsonValue) : bool :=
  match j with JBool b => b | _ => false end.
Definition toObject (j : QJsonValue) : QJsonObject :=
  match j with JObject m => m | _ => [] end.
Definition toArray (j : QJsonValue) : QJsonArray :=
  match j with JArray l => l | _ => [] end.

(** [object[key]]: [JNull] (undefined) when the key is missing. *)
Definition get (o : QJsonObject) (k : string) : QJsonValue :=
  default JNull (Assoc.find k o).

(** [QJsonValue == QString]. *)
Definition eqString (j : QJsonValue) (s : string) : bool :=
  match j with JString s' => bool_decide (s' = s) | _ => false end.

End Json.

(** ** The configuration store *)

Module HifiConfigVariantMap.

Record t : Type := mk {
  masterConfig : QVariantMap;
  userConfig : QVariantMap;
  mergedConfig : QVariantMap
}.

(** Modelled from the spec: [valueForKeyPath] lives in HifiConfigVariantMap,
    which is not among the sources. "Key paths are dot-delimited; each
    segment indexes into a nested map"; [get] "returns the merged value or
    absent". The source receives a [QVariant*] that is null when absent;
    here that is an [option]. *)
Fixpoint valueForSegments (m : QVariantMap) (path : list string) : option QVariant :=
  match path with
  | [] => None
  | k :: rest =>
      match rest with
      | [] => Assoc.find k m
      | _ :: _ =>
          match Assoc.find k m with
          | Some (VMap sub) => valueForSegments sub rest
          | _ => None
          end
      end
  end.

Definition valueForKeyPath (m : QVariantMap) (keyPath : string) : option QVariant :=
  valueForSegments m (QStr.split keyPath).

(** Modelled from the spec: writing through the pointer returned by
    [valueForKeyPath(map, keyPath, true)]: "returns a mutable handle into the
    user map, creating intermediate maps as needed". *)
Fixpoint setForSegments (m : QVariantMap) (path : list string) (v : QVariant) : QVariantMap :=
  match path with
  | [] => m
  | k :: rest =>
      match rest with
      | [] => Assoc.insert k v m
      | _ :: _ =>
          let sub := match Assoc.find k m with Some (VMap sub) => sub | _ => [] end in
          Assoc.insert k (VMap (setForSegments sub rest v)) m
      end
  end.

Definition setValueForKeyPath (m : QVariantMap) (keyPath : string) (v : QVariant) : QVariantMap :=
  setForSegments m (QStr.split keyPath) v.

(** Modelled from the spec: [valueForKeyPath(map, keyPath, true)] without a
    write: a missing path is created holding an invalid variant. *)
Definition createKeyPath (m : QVariantMap) (keyPath : string) : QVariantMap :=
  match valueForKeyPath m keyPath with
  | Some _ => m
  | None => setValueForKeyPath m keyPath VInvalid
  end.

(** Modelled from the spec: the merged map is the "user map with master map
    as fallback", "user overrides master at every key path". [overlay] adds
    to [top] whatever only [fallback] defines, descending where both sides
    hold a map. *)
Fixpoint overlay (fallback top : QVariant) {struct fallback} : QVariant :=
  match fallback, top with
  | VMap fm, VMap tm =>
      VMap ((fix go (l : list (string * QVariant)) (acc : QVariantMap) : QVariantMap :=
               match l with
               | [] => acc
               | (k, fv) :: r =>
                   go r (match Assoc.find k acc with
                         | Some tv => Assoc.insert k (overlay fv tv) acc
                         | None => Assoc.insert k fv acc
                         end)
               end) fm tm)
  | _, _ => top
  end.

Definition merge (master user : QVariantMap) : QVariantMap :=
  Variant.toMap (overlay (VMap master) (VMap user)).

(** Modelled from the spec: [mergeMasterAndUserConfigs], "recomputes the
    merged view". *)
Definition mergeMasterAndUserConfigs (c : t) : t :=
  mk (masterConfig c) (userConfig c) (merge (masterConfig c) (userConfig c)).

(** Modelled from the spec: [loadMasterAndUserConfig] after a persist. The
    user map in memory is what was just written ("in-memory state remains
    authoritative"), so reloading amounts to recomputing the merged view. *)
Definition loadMasterAndUserConfig (c : t) : t := mergeMasterAndUserConfigs c.

Definition withUser (c : t) (u : QVariantMap) : t :=
  mk (masterConfig c) u (mergedConfig c).

End HifiConfigVariantMap.

(** ** Permission entries *)

Abbreviation NodePermissionsKey := (string * Z)%type.
Abbreviation GroupByUUIDKey := (QUuid * Z)%type.

Module NodePermissions.

(** Modelled from the spec: the [Permission] enumeration is declared in
    NodePermissions.h, which is not among the sources: "a fixed enumeration
    of boolean capabilities (connect-to-domain, adjust-locks,
    rez-permanent-entities, rez-temporary-entities, write-to-asset-store,
    connect-past-capacity), represented as a bitmask". *)
Inductive Permission : Type :=
| none
| canConnectToDomain
| canAdjustLocks
| canRezPermanentEntities
| canRezTemporaryEntities
| canWriteToAssetServer
| canConnectPastMaxCapacity.

Definition bit (p : Permission) : Z :=
  match p with
  | none => 0
  | canConnectToDomain => 1
  | canAdjustLocks => 2
  | canRezPermanentEntities => 4
  | canRezTemporaryEntities => 8
  | canWriteToAssetServer => 16
  | canConnectPastMaxCapacity => 32
  end.

Definition capabilities : list Permission :=
  [canConnectToDomain; canAdjustLocks; canRezPermanentEntities;
   canRezTemporaryEntities; canWriteToAssetServer; canConnectPastMaxCapacity].

(** The [Permissions] flag word is an [int]; [Z.lor], [Z.land] and [Z.lnot]
    are its two's-complement operations and never leave the [int] range. *)
Record t : Type := mk {
  _id : string;
  _rank : Z;
  _groupIDSet : bool;
  _groupID : QUuid;
  permissions : Z
}.

Definition withPermissions (e : t) (p : Z) : t :=
  mk (_id e) (_rank e) (_groupIDSet e) (_groupID e) p.

(** Modelled from the spec: the inline members of NodePermissions.h. A new
    entry holds no capability ("anonymous/logged-in/friends = no
    capabilities"), is not a group entry, and keeps its id in lower case. *)
Definition fromName (name : string) : t :=
  mk (QStr.toLower name) 0 false 0%N 0.

Definition fromKey (key : NodePermissionsKey) : t :=
  mk (QStr.toLower key.1) key.2 false 0%N 0.

(** The default constructor draws a fresh UUID for its id; the id of such
    an entry is never read, and is left empty here. *)
Definition null : t := mk EmptyString 0 false 0%N 0.

Definition getID (e : t) : string := _id e.
Definition getRank (e : t) : Z := _rank e.
Definition getKey (e : t) : NodePermissionsKey := (_id e, _rank e).
Definition getGroupID (e : t) : QUuid := _groupID e.
Definition isGroup (e : t) : bool := _groupIDSet e.

(** Modelled from the spec: [setGroupID] of NodePermissions.h; "an entry
    with isGroup=true always has a non-null groupID". *)
Definition setGroupID (e : t) (groupID : QUuid) : t :=
  mk (_id e) (_rank e) (if Uuid.isNull groupID then _groupIDSet e else true)
     groupID (permissions e).

Definition set (e : t) (p : Permission) : t :=
  withPermissions e (Z.lor (permissions e) (bit p)).

Definition clear (e : t) (p : Permission) : t :=
  withPermissions e (Z.land (permissions e) (Z.lnot (bit p))).

(** [QFlags::testFlag]. *)
Definition can (e : t) (p : Permission) : bool :=
  (Z.land (permissions e) (bit p) =? bit p) &&
  (negb (bit p =? 0) || (permissions e =? bit p)).

(** [NodePermissions::NodePermissions(QMap<QString, QVariant>)]. *)
Definition fromMap (perms : QVariantMap) : t :=
  let id := QStr.toLower (Variant.toString (Variant.value perms "permissions_id")) in
  let gid :=
    if Assoc.contains "group_id" perms
    then Variant.toUuid (Variant.value perms "group_id") else 0%N in
  let gset :=
    Assoc.contains "group_id" perms && negb (Uuid.isNull gid) in
  let rank :=
    if Assoc.contains "rank" perms
    then Variant.toInt (Variant.value perms "rank") else 0 in
  let flag (k : string) (p : Permission) : Z :=
    if Variant.toBool (Variant.value perms k) then bit p else bit none in
  let p0 := 0 in
  let p1 := Z.lor p0 (flag "id_can_connect" canConnectToDomain) in
  let p2 := Z.lor p1 (flag "id_can_adjust_locks" canAdjustLocks) in
  let p3 := Z.lor p2 (flag "id_can_rez" canRezPermanentEntities) in
  let p4 := Z.lor p3 (flag "id_can_rez_tmp" canRezTemporaryEntities) in
  let p5 := Z.lor p4 (flag "id_can_write_to_asset_server" canWriteToAssetServer) in
  let p6 := Z.lor p5 (flag "id_can_connect_past_max_capacity" canConnectPastMaxCapacity) in
  mk id rank gset gid p6.

(** [NodePermissions::toVariant]. A negative rank would index [rankNames]
    out of bounds in the source; no rank name is written for it here. The
    keys are listed in the order of the assignments; a [QMap] iterates them
    in key order, which no reader of the record depends on. *)
Definition toVariant (e : t) (rankNames : list string) : QVariant :=
  let v0 : QVariantMap := [("permissions_id", VString (_id e))] in
  let v1 :=
    if _groupIDSet e then
      let a := Assoc.insert "group_id" (VUuid (_groupID e)) v0 in
      let b := Assoc.insert "rank" (VInt (_rank e)) a in
      if (_rank e <? Z.of_nat (length rankNames)) && (0 <=? _rank e) then
        Assoc.insert "rank_name"
          (VString (default EmptyString (rankNames !! Z.to_nat (_rank e)))) b
      else b
    else v0 in
  let v2 := Assoc.insert "id_can_connect" (VBool (can e canConnectToDomain)) v1 in
  let v3 := Assoc.insert "id_can_adjust_locks" (VBool (can e canAdjustLocks)) v2 in
  let v4 := Assoc.insert "id_can_rez" (VBool (can e canRezPermanentEntities)) v3 in
  let v5 := Assoc.insert "id_can_rez_tmp" (VBool (can e canRezTemporaryEntities)) v4 in
  let v6 := Assoc.insert "id_can_write_to_asset_server"
              (VBool (can e canWriteToAssetServer)) v5 in
  let v7 := Assoc.insert "id_can_connect_past_max_capacity"
              (VBool (can e canConnectPastMaxCapacity)) v6 in
  VMap v7.

(** [NodePermissions::setAll]. *)
Definition setAll (e : t) (value : bool) : t :=
  let cleared := 0 in
  withPermissions e (if value then Z.lnot cleared else cleared).

(** [NodePermissions::operator|=]. *)
Definition or_assign (lhs rhs : t) : t :=
  withPermissions lhs (Z.lor (permissions lhs) (permissions rhs)).

Definition standardNameLocalhost : NodePermissionsKey := ("localhost", 0).
Definition standardNameLoggedIn : NodePermissionsKey := ("logged-in", 0).
Definition standardNameAnonymous : NodePermissionsKey := ("anonymous", 0).
Definition standardNameFriends : NodePermissionsKey := ("friends", 0).

Definition standardNames : list string :=
  [standardNameLocalhost.1; standardNameLoggedIn.1;
   standardNameAnonymous.1; standardNameFriends.1].

End NodePermissions.

(** Modelled from the spec: [NodePermissionsMap] is declared in
    NodePermissions.h, which is not among the sources: a mapping "from key
    to PermissionEntry". Its subscript is used by the sources as a [QHash]
    subscript that yields a live entry, so a missing key is first bound to a
    new entry for that key; keys are kept in lower case, as every id is. *)
Module NodePermissionsMap.

Abbreviation t := (gmap NodePermissionsKey NodePermissions.t).

Definition dataKey (key : NodePermissionsKey) : NodePermissionsKey :=
  (QStr.toLower key.1, key.2).

Definition contains (m : t) (key : NodePermissionsKey) : bool :=
  bool_decide (is_Some (m !! dataKey key)).

(** The subscript [m[key]]: the map afterwards, and the entry it yields. *)
Definition subscript (m : t) (key : NodePermissionsKey) : t * NodePermissions.t :=
  match m !! dataKey key with
  | Some e => (m, e)
  | None =>
      let e := NodePermissions.fromKey key in
      (<[dataKey key := e]> m, e)
  end.

(** [m[key] = perms] and [m[key].reset(perms)]. *)
Definition assign (m : t) (key : NodePermissionsKey) (perms : NodePermissions.t) : t :=
  <[dataKey key := perms]> m.

(** [m[key]->f()] for a mutator [f]. *)
Definition update (m : t) (key : NodePermissionsKey)
    (f : NodePermissions.t → NodePermissions.t) : t :=
  let '(m', e) := subscript m key in <[dataKey key := f e]> m'.

(** The [const] subscript used by the lookups: [None] is the null pointer. *)
Definition at_ (m : t) (key : NodePermissionsKey) : option NodePermissions.t :=
  m !! dataKey key.

Definition keys (m : t) : list NodePermissionsKey := (map_to_list m).*1.

End NodePermissionsMap.

(** ** SHA-256

    [QCryptographicHash::hash(bytes, QCryptographicHash::Sha256)] followed
    by [toHex()], on the bytes of an ASCII / UTF-8 string (FIPS 180-4). *)

Module Sha256.

Definition w32 (x : Z) : Z := x mod 4294967296.

Definition rotr (n x : Z) : Z :=
  Z.lor (Z.shiftr x n) (w32 (Z.shiftl x (32 - n))).

Definition K : list Z :=
  [1116352408; 1899447441; 3049323471; 3921009573; 961987163; 1508970993;
   2453635748; 2870763221; 3624381080; 310598401; 607225278; 1426881987;
   1925078388; 2162078206; 2614888103; 3248222580; 3835390401; 4022224774;
   264347078; 604807628; 770255983; 1249150122; 1555081692; 1996064986;
   2554220882; 2821834349; 2952996808; 3210313671; 3336571891; 3584528711;
   113926993; 338241895; 666307205; 773529912; 1294757372; 1396182291;
   1695183700; 1986661051; 2177026350; 2456956037; 2730485921; 2820302411;
   3259730800; 3345764771; 3516065817; 3600352804; 4094571909; 275423344;
   430227734; 506948616; 659060556; 883997877; 958139571; 1322822218;
   1537002063; 1747873779; 1955562222; 2024104815; 2227730452; 2361852424;
   2428436474; 2756734187; 3204031479; 3329325298].

Definition H0 : list Z :=
  [1779033703; 3144134277; 1013904242; 2773480762; 1359893119; 2600822924;
   528734635; 1541459225].

Fixpoint bytesOf (s : string) : list Z :=
  match s with
  | EmptyString => []
  | String c r => Z.of_N (N_of_ascii c) :: bytesOf r
  end.

(** Big-endian bytes of [v], [n] of them. *)
Fixpoint bigEndian (n : nat) (v : Z) (acc : list Z) : list Z :=
  match n with
  | O => acc
  | S n' => bigEndian n' (v / 256) (v mod 256 :: acc)
  end.

Definition pad (msg : list Z) : list Z :=
  let len := Z.of_nat (length msg) in
  let zeros := Z.to_nat ((55 - len) mod 64) in
  (msg ++ [128] ++ replicate zeros 0 ++ bigEndian 8 (8 * len) [])%list.

Fixpoint words (fuel : nat) (bs : list Z) : list Z :=
  match fuel, bs with
  | S fuel', b0 :: b1 :: b2 :: b3 :: r =>
      (((b0 * 256 + b1) * 256 + b2) * 256 + b3) :: words fuel' r
  | _, _ => []
  end.

Fixpoint blocks (fuel : nat) (ws : list Z) : list (list Z) :=
  match fuel, ws with
  | S fuel', _ :: _ => take 16 ws :: blocks fuel' (drop 16 ws)
  | _, _ => []
  end.

Definition nth0 (l : list Z) (i : nat) : Z := default 0 (l !! i).

Definition sigma0 (x : Z) : Z :=
  Z.lxor (Z.lxor (rotr 7 x) (rotr 18 x)) (Z.shiftr x 3).
Definition sigma1 (x : Z) : Z :=
  Z.lxor (Z.lxor (rotr 17 x) (rotr 19 x)) (Z.shiftr x 10).
Definition Sigma0 (x : Z) : Z :=
  Z.lxor (Z.lxor (rotr 2 x) (rotr 13 x)) (rotr 22 x).
Definition Sigma1 (x : Z) : Z :=
  Z.lxor (Z.lxor (rotr 6 x) (rotr 11 x)) (rotr 25 x).
Definition Ch (e f g : Z) : Z :=
  Z.lxor (Z.land e f) (Z.land (w32 (Z.lnot e)) g).
Definition Maj (a b c : Z) : Z :=
  Z.lxor (Z.lxor (Z.land a b) (Z.land a c)) (Z.land b c).

(** The message schedule, extended one word at a time up to 64 words. *)
Fixpoint schedule (n : nat) (w : list Z) : list Z :=
  match n with
  | O => w
  | S n' =>
      let t := length w in
      let x := w32 (sigma1 (nth0 w (t - 2)) + nth0 w (t - 7) +
                    sigma0 (nth0 w (t - 15)) + nth0 w (t - 16)) in
      schedule n' (w ++ [x])%list
  end.

Definition round (st : list Z) (kw : Z * Z) : list Z :=
  match st with
  | [a; b; c; d; e; f; g; h] =>
      let t1 := w32 (h + Sigma1 e + Ch e f g + kw.1 + kw.2) in
      let t2 := w32 (Sigma0 a + Maj a b c) in
      [w32 (t1 + t2); a; b; c; w32 (d + t1); e; f; g]
  | _ => st
  end.

Definition compress (h : list Z) (block : list Z) : list Z :=
  let w := schedule 48 block in
  let st := foldl round h (zip K w) in
  zip_with (fun x y => w32 (x + y)) h st.

Definition digest (msg : list Z) : list Z :=
  let p := pad msg in
  let ws := words (length p) p in
  foldl compress H0 (blocks (length ws) ws).

Definition hexOfWord (x : Z) : string := Uuid.hexAcc 8 (Z.to_N x) EmptyString.

Definition hashHex (s : string) : string :=
  foldr (fun x acc => hexOfWord x +:+ acc) EmptyString (digest (bytesOf s)).

End Sha256.

(** ** The settings manager *)

(** Modelled from the spec: the key-path constants are declared in
    DomainServerSettingsManager.h, which is not among the sources. The four
    permission lists live in the "security" section of the user map
    ([packPermissionsForMap]), one list per category. *)
Definition AGENT_STANDARD_PERMISSIONS_KEYPATH : string := "security.standard_permissions".
Definition AGENT_PERMISSIONS_KEYPATH : string := "security.permissions".
Definition GROUP_PERMISSIONS_KEYPATH : string := "security.group_permissions".
Definition GROUP_FORBIDDENS_KEYPATH : string := "security.group_forbiddens".
Definition SETTINGS_PATHS_KEY : string := "paths".

Definition DESCRIPTION_SETTINGS_KEY : string := "settings".
Definition SETTING_DEFAULT_KEY : string := "default".
Definition DESCRIPTION_NAME_KEY : string := "name".
Definition SETTING_DESCRIPTION_TYPE_KEY : string := "type".
Definition DESCRIPTION_COLUMNS_KEY : string := "columns".
Definition SETTINGS_VIEWPOINT_KEY : string := "viewpoint".

(** [std::sort] with a comparator, as an insertion sort. For a strict weak
    order every sorting algorithm yields the same list up to the order of
    equivalent elements, which [std::sort] leaves unspecified. *)
Section sorting.
Context {A : Type} (lessThan : A → A → bool).

Fixpoint insertSorted (x : A) (l : list A) : list A :=
  match l with
  | [] => [x]
  | y :: r => if lessThan y x then y :: insertSorted x r else x :: y :: r
  end.

Definition stdSort (l : list A) : list A := foldr insertSorted [] l.

End sorting.

(** Compare two members of a permissions list. *)
Definition permissionVariantLessThan (v1 v2 : QVariant) : bool :=
  if negb (Variant.canConvertMap v1) || negb (Variant.canConvertMap v2)
  then QStr.lt (Variant.toString v1) (Variant.toString v2)
  else
    let m1 := Variant.toMap v1 in
    let m2 := Variant.toMap v2 in
    if negb (Assoc.contains "permissions_id" m1) || negb (Assoc.contains "permissions_id" m2)
    then QStr.lt (Variant.toString v1) (Variant.toString v2)
    else if Assoc.contains "rank_name" m1 && Assoc.contains "rank_name" m2 &&
            bool_decide (Variant.toString (Variant.value m1 "permissions_id") =
                         Variant.toString (Variant.value m2 "permissions_id"))
    then QStr.lt (Variant.toString (Variant.value m1 "rank_name"))
                 (Variant.toString (Variant.value m2 "rank_name"))
    else QStr.lt (Variant.toString (Variant.value m1 "permissions_id"))
                 (Variant.toString (Variant.value m2 "permissions_id")).

Module DomainServerSettingsManager.

Import HifiConfigVariantMap.

Record t : Type := mk {
  _descriptionArray : QJsonArray;
  _descriptionVersion : Q;
  _configMap : HifiConfigVariantMap.t;
  _standardAgentPermissions : NodePermissionsMap.t;
  _agentPermissions : NodePermissionsMap.t;
  _groupPermissions : NodePermissionsMap.t;
  _groupForbiddens : NodePermissionsMap.t;
  _groupPermissionsByUUID : gmap GroupByUUIDKey NodePermissionsKey;
  _groupForbiddensByUUID : gmap GroupByUUIDKey NodePermissionsKey;
  _groupIDs : gmap string QUuid;
  _groupNames : gmap QUuid string;
  _groupRanks : gmap QUuid (list string)
}.

Definition setConfigMap (s : t) (c : HifiConfigVariantMap.t) : t :=
  mk (_descriptionArray s) (_descriptionVersion s) c (_standardAgentPermissions s) (_agentPermissions s)
     (_groupPermissions s) (_groupForbiddens s) (_groupPermissionsByUUID s)
     (_groupForbiddensByUUID s) (_groupIDs s) (_groupNames s) (_groupRanks s).

Definition setUserConfig (s : t) (u : QVariantMap) : t :=
  setConfigMap s (withUser (_configMap s) u).

Definition setStandardAgentPermissions (s : t) (m : NodePermissionsMap.t) : t :=
  mk (_descriptionArray s) (_descriptionVersion s) (_configMap s) m (_agentPermissions s)
     (_groupPermissions s) (_groupForbiddens s) (_groupPermissionsByUUID s)
     (_groupForbiddensByUUID s) (_groupIDs s) (_groupNames s) (_groupRanks s).

Definition setAgentPermissions (s : t) (m : NodePermissionsMap.t) : t :=
  mk (_descriptionArray s) (_descriptionVersion s) (_configMap s) (_standardAgentPermissions s) m
     (_groupPermissions s) (_groupForbiddens s) (_groupPermissionsByUUID s)
     (_groupForbiddensByUUID s) (_groupIDs s) (_groupNames s) (_groupRanks s).

Definition setGroupPermissions (s : t) (m : NodePermissionsMap.t) : t :=
  mk (_descriptionArray s) (_descriptionVersion s) (_configMap s) (_standardAgentPermissions s)
     (_agentPermissions s) m (_groupForbiddens s) (_groupPermissionsByUUID s)
     (_groupForbiddensByUUID s) (_groupIDs s) (_groupNames s) (_groupRanks s).

Definition setGroupForbiddens (s : t) (m : NodePermissionsMap.t) : t :=
  mk (_descriptionArray s) (_descriptionVersion s) (_configMap s) (_standardAgentPermissions s)
     (_agentPermissions s) (_groupPermissions s) m (_groupPermissionsByUUID s)
     (_groupForbiddensByUUID s) (_groupIDs s) (_groupNames s) (_groupRanks s).

Definition setGroupPermissionsByUUID (s : t) (i : gmap GroupByUUIDKey NodePermissionsKey) : t :=
  mk (_descriptionArray s) (_descriptionVersion s) (_configMap s) (_standardAgentPermissions s)
     (_agentPermissions s) (_groupPermissions s) (_groupForbiddens s) i
     (_groupForbiddensByUUID s) (_groupIDs s) (_groupNames s) (_groupRanks s).

Definition setGroupForbiddensByUUID (s : t) (i : gmap GroupByUUIDKey NodePermissionsKey) : t :=
  mk (_descriptionArray s) (_descriptionVersion s) (_configMap s) (_standardAgentPermissions s)
     (_agentPermissions s) (_groupPermissions s) (_groupForbiddens s)
     (_groupPermissionsByUUID s) i (_groupIDs s) (_groupNames s) (_groupRanks s).

Definition setGroupIDs (s : t) (g : gmap string QUuid) : t :=
  mk (_descriptionArray s) (_descriptionVersion s) (_configMap s) (_standardAgentPermissions s)
     (_agentPermissions s) (_groupPermissions s) (_groupForbiddens s)
     (_groupPermissionsByUUID s) (_groupForbiddensByUUID s) g (_groupNames s)
     (_groupRanks s).

Definition setGroupNames (s : t) (g : gmap QUuid string) : t :=
  mk (_descriptionArray s) (_descriptionVersion s) (_configMap s) (_standardAgentPermissions s)
     (_agentPermissions s) (_groupPermissions s) (_groupForbiddens s)
     (_groupPermissionsByUUID s) (_groupForbiddensByUUID s) (_groupIDs s) g
     (_groupRanks s).

Definition setGroupRanks (s : t) (g : gmap QUuid (list string)) : t :=
  mk (_descriptionArray s) (_descriptionVersion s) (_configMap s) (_standardAgentPermissions s)
     (_agentPermissions s) (_groupPermissions s) (_groupForbiddens s)
     (_groupPermissionsByUUID s) (_groupForbiddensByUUID s) (_groupIDs s)
     (_groupNames s) g.

(** A [QHash] subscript that reads a missing key leaves a default value
    behind; any later read of the key yields that default again, so the
    caches are read with their default and left alone. *)
Definition groupNameOf (s : t) (groupID : QUuid) : string :=
  default EmptyString (_groupNames s !! groupID).

Definition groupRanksOf (s : t) (groupID : QUuid) : list string :=
  default [] (_groupRanks s !! groupID).

(** *** Ordering and persisting *)

Definition sortListAt (user : QVariantMap) (keyPath : string) : QVariantMap :=
  match valueForKeyPath user keyPath with
  | Some v =>
      if Variant.canConvertList v
      then setValueForKeyPath user keyPath
             (VList (stdSort permissionVariantLessThan (Variant.toList v)))
      else user
  | None => user
  end.

Definition sortPermissions (s : t) : t :=
  let u0 := userConfig (_configMap s) in
  let u1 := sortListAt u0 AGENT_STANDARD_PERMISSIONS_KEYPATH in
  let u2 := sortListAt u1 AGENT_PERMISSIONS_KEYPATH in
  setUserConfig s u2.

(** [persistToFile]: the lists are sorted, then the user map is written
    out; the file itself is outside the embedding. *)
Definition persistToFile (s : t) : t := sortPermissions s.

Definition reloadConfig (s : t) : t :=
  setConfigMap s (loadMasterAndUserConfig (_configMap s)).

(** *** Packing *)

(** The loop of [packPermissionsForMap]: one record per key of the map. *)
Definition packEntries (s : t) (agentPermissions : NodePermissionsMap.t)
    : NodePermissionsMap.t * QVariantList :=
  foldl (fun (acc : NodePermissionsMap.t * QVariantList) userKey =>
           let '(m, perms) := NodePermissionsMap.subscript acc.1 userKey in
           let record :=
             if NodePermissions.isGroup perms
             then NodePermissions.toVariant perms
                    (groupRanksOf s (NodePermissions.getGroupID perms))
             else NodePermissions.toVariant perms [] in
           (m, (acc.2 ++ [record])%list))
        (agentPermissions, []) (NodePermissionsMap.keys agentPermissions).

Definition ensureSecurity (user : QVariantMap) : QVariantMap :=
  match valueForKeyPath user "security" with
  | Some v => if Variant.canConvertMap v then user
              else setValueForKeyPath user "security" (VMap [])
  | None => setValueForKeyPath user "security" (VMap [])
  end.

Definition ensureList (user : QVariantMap) (keyPath : string) : QVariantMap :=
  match valueForKeyPath user keyPath with
  | Some v => if Variant.canConvertList v then user
              else setValueForKeyPath user keyPath (VList [])
  | None => setValueForKeyPath user keyPath (VList [])
  end.

(** [packPermissionsForMap]: the user map afterwards and the map that was
    packed (the subscript may have touched it). *)
Definition packPermissionsForMap (s : t) (agentPermissions : NodePermissionsMap.t)
    (keyPath : string) : t * NodePermissionsMap.t :=
  let u1 := ensureSecurity (userConfig (_configMap s)) in
  let u2 := ensureList u1 keyPath in
  let '(m, records) := packEntries s agentPermissions in
  (setUserConfig s (setValueForKeyPath u2 keyPath (VList records)), m).

Definition packPermissions (s : t) : t :=
  let '(s1, m1) := packPermissionsForMap s (_standardAgentPermissions s)
                     AGENT_STANDARD_PERMISSIONS_KEYPATH in
  let s1 := setStandardAgentPermissions s1 m1 in
  let '(s2, m2) := packPermissionsForMap s1 (_agentPermissions s1)
                     AGENT_PERMISSIONS_KEYPATH in
  let s2 := setAgentPermissions s2 m2 in
  let '(s3, m3) := packPermissionsForMap s2 (_groupPermissions s2)
                     GROUP_PERMISSIONS_KEYPATH in
  let s3 := setGroupPermissions s3 m3 in
  let '(s4, m4) := packPermissionsForMap s3 (_groupForbiddens s3)
                     GROUP_FORBIDDENS_KEYPATH in
  let s4 := setGroupForbiddens s4 m4 in
  reloadConfig (persistToFile s4).

(** *** Group identities *)

Definition bindGroupEntries (groupName : string) (groupID : QUuid)
    (m : NodePermissionsMap.t) : NodePermissionsMap.t * bool :=
  let hit (perms : NodePermissions.t) : bool :=
    bool_decide (QStr.toLower (NodePermissions.getID perms) = QStr.toLower groupName)
    && negb (NodePermissions.isGroup perms) in
  ((fun perms => if hit perms then NodePermissions.setGroupID perms groupID else perms) <$> m,
   existsb hit (map_to_list m).*2).

Definition setGroupID (s : t) (groupName : string) (groupID : QUuid) : t * bool :=
  let s := setGroupIDs s (<[QStr.toLower groupName := groupID]> (_groupIDs s)) in
  let s := setGroupNames s (<[groupID := groupName]> (_groupNames s)) in
  let '(gp, c1) := bindGroupEntries groupName groupID (_groupPermissions s) in
  let '(gf, c2) := bindGroupEntries groupName groupID (_groupForbiddens s) in
  (setGroupForbiddens (setGroupPermissions s gp) gf, c1 || c2).

Definition groupIDsOf (m : NodePermissionsMap.t) : list QUuid :=
  elements (list_to_set (C := gset QUuid)
    (NodePermissions.getGroupID <$> filter (fun e => NodePermissions.isGroup e = true) (map_to_list m).*2)).

Definition getGroupIDs (s : t) : list QUuid := groupIDsOf (_groupPermissions s).

Definition getBlacklistGroupIDs (s : t) : list QUuid := groupIDsOf (_groupForbiddens s).

(** *** Rank coverage *)

(** One turn of the rank loop of [ensurePermissionsForGroupRanks], on one
    permission map and its by-UUID index. *)
Definition ensureRank (groupName : string) (groupID : QUuid)
    (acc : NodePermissionsMap.t * gmap GroupByUUIDKey NodePermissionsKey * bool)
    (rank : Z) : NodePermissionsMap.t * gmap GroupByUUIDKey NodePermissionsKey * bool :=
  let '(m, index, changed) := acc in
  let nameKey : NodePermissionsKey := (groupName, rank) in
  let idKey : GroupByUUIDKey := (groupID, rank) in
  if NodePermissionsMap.contains m nameKey then
    let '(m', perms) := NodePermissionsMap.subscript m nameKey in
    (m', <[idKey := NodePermissions.getKey perms]> index, changed)
  else
    let perms := NodePermissions.setGroupID (NodePermissions.fromKey nameKey) groupID in
    (NodePermissionsMap.assign m nameKey perms,
     <[idKey := NodePermissions.getKey perms]> index, true).

Definition ensureGroup (s : t)
    (acc : NodePermissionsMap.t * gmap GroupByUUIDKey NodePermissionsKey * bool)
    (groupID : QUuid) : NodePermissionsMap.t * gmap GroupByUUIDKey NodePermissionsKey * bool :=
  let groupName := groupNameOf s groupID in
  let rankCountForGroup := Z.of_nat (length (groupRanksOf s groupID)) in
  foldl (ensureRank groupName groupID) acc (seqZ 0 rankCountForGroup).

Definition ensurePermissionsForGroupRanks (s : t) : t * bool :=
  let '(gp, ip, c1) :=
    foldl (ensureGroup s) (_groupPermissions s, _groupPermissionsByUUID s, false)
          (getGroupIDs s) in
  let s1 := setGroupPermissionsByUUID (setGroupPermissions s gp) ip in
  let '(gf, iff, c2) :=
    foldl (ensureGroup s1) (_groupForbiddens s1, _groupForbiddensByUUID s1, c1)
          (getBlacklistGroupIDs s1) in
  (setGroupForbiddensByUUID (setGroupForbiddens s1 gf) iff, c2).

(** *** Unpacking *)

(** The assignment or merge that every unpack loop performs at [idKey]. *)
Definition storeOrMerge (m : NodePermissionsMap.t) (idKey : NodePermissionsKey)
    (perms : NodePermissions.t) : NodePermissionsMap.t * bool :=
  if NodePermissionsMap.contains m idKey
  then (NodePermissionsMap.update m idKey (fun e => NodePermissions.or_assign e perms), true)
  else (NodePermissionsMap.assign m idKey perms, false).

Record Found : Type := mkFound {
  foundLocalhost : bool;
  foundAnonymous : bool;
  foundLoggedIn : bool;
  foundFriends : bool
}.

Definition keyEq (a b : NodePermissionsKey) : bool := bool_decide (a = b).

Definition unpackStandard (acc : NodePermissionsMap.t * Found * bool) (permsHash : QVariant)
    : NodePermissionsMap.t * Found * bool :=
  let '(m, f, needPack) := acc in
  let perms := NodePermissions.fromMap (Variant.toMap permsHash) in
  let id := NodePermissions.getID perms in
  let idKey : NodePermissionsKey := (id, 0) in
  let f' := mkFound
    (foundLocalhost f || keyEq idKey NodePermissions.standardNameLocalhost)
    (foundAnonymous f || keyEq idKey NodePermissions.standardNameAnonymous)
    (foundLoggedIn f || keyEq idKey NodePermissions.standardNameLoggedIn)
    (foundFriends f || keyEq idKey NodePermissions.standardNameFriends) in
  let '(m', dup) := storeOrMerge m idKey perms in
  (m', f', needPack || dup).

Definition unpackAgent (acc : NodePermissionsMap.t * bool) (permsHash : QVariant)
    : NodePermissionsMap.t * bool :=
  let '(m, needPack) := acc in
  let perms := NodePermissions.fromMap (Variant.toMap permsHash) in
  let id := NodePermissions.getID perms in
  let idKey : NodePermissionsKey := (id, 0) in
  let '(m', dup) := storeOrMerge m idKey perms in
  (m', needPack || dup).

Definition unpackGroup (acc : t * bool) (permsHash : QVariant) : t * bool :=
  let '(s, needPack) := acc in
  let perms := NodePermissions.fromMap (Variant.toMap permsHash) in
  let idKey := NodePermissions.getKey perms in
  let '(gp, dup) := storeOrMerge (_groupPermissions s) idKey perms in
  let s := setGroupPermissions s gp in
  let needPack := needPack || dup in
  if NodePermissions.isGroup perms then
    let '(gp', pointee) := NodePermissionsMap.subscript (_groupPermissions s) idKey in
    let s := setGroupPermissions s gp' in
    let s := setGroupPermissionsByUUID s
      (<[(NodePermissions.getGroupID perms, NodePermissions.getRank perms)
         := NodePermissions.getKey pointee]> (_groupPermissionsByUUID s)) in
    let '(s, changed) :=
      setGroupID s (NodePermissions.getID perms) (NodePermissions.getGroupID perms) in
    (s, needPack || changed)
  else (s, needPack).

(** The forbiddens loop hooks the by-UUID index up through
    [_groupPermissions[idKey]], as the source does. *)
Definition unpackForbidden (acc : t * bool) (permsHash : QVariant) : t * bool :=
  let '(s, needPack) := acc in
  let perms := NodePermissions.fromMap (Variant.toMap permsHash) in
  let idKey := NodePermissions.getKey perms in
  let '(gf, dup) := storeOrMerge (_groupForbiddens s) idKey perms in
  let s := setGroupForbiddens s gf in
  let needPack := needPack || dup in
  if NodePermissions.isGroup perms then
    let '(gp', pointee) := NodePermissionsMap.subscript (_groupPermissions s) idKey in
    let s := setGroupPermissions s gp' in
    let s := setGroupForbiddensByUUID s
      (<[(NodePermissions.getGroupID perms, NodePermissions.getRank perms)
         := NodePermissions.getKey pointee]> (_groupForbiddensByUUID s)) in
    let '(s, changed) :=
      setGroupID s (NodePermissions.getID perms) (NodePermissions.getGroupID perms) in
    (s, needPack || changed)
  else (s, needPack).

Definition addMissingStandard (found : bool) (key : NodePermissionsKey) (all : bool)
    (acc : NodePermissionsMap.t * bool) : NodePermissionsMap.t * bool :=
  if found then acc
  else
    let perms := NodePermissions.fromKey key in
    let perms := if all then NodePermissions.setAll perms true else perms in
    (NodePermissionsMap.assign acc.1 (NodePermissions.getKey perms) perms, true).

Definition listAt (user : QVariantMap) (keyPath : string) : QVariantList :=
  match valueForKeyPath user keyPath with
  | Some v => Variant.toList v
  | None => []
  end.

(** [unpackPermissions] up to the point where [needPack] is known. *)
Definition unpackPermissionsCore (s : t) : t * bool :=
  let s := setStandardAgentPermissions s ∅ in
  let s := setAgentPermissions s ∅ in
  let s := setGroupPermissions s ∅ in
  let s := setGroupForbiddens s ∅ in
  let u := userConfig (_configMap s) in
  let u := ensureList u AGENT_STANDARD_PERMISSIONS_KEYPATH in
  let u := ensureList u AGENT_PERMISSIONS_KEYPATH in
  let u := ensureList u GROUP_PERMISSIONS_KEYPATH in
  let u := ensureList u GROUP_FORBIDDENS_KEYPATH in
  let s := setUserConfig s u in
  let nothing := mkFound false false false false in
  let '(sm, found, needPack) :=
    foldl unpackStandard (_standardAgentPermissions s, nothing, false)
          (listAt u AGENT_STANDARD_PERMISSIONS_KEYPATH) in
  let s := setStandardAgentPermissions s sm in
  let '(am, needPack) :=
    foldl unpackAgent (_agentPermissions s, needPack)
          (listAt u AGENT_PERMISSIONS_KEYPATH) in
  let s := setAgentPermissions s am in
  let '(s, needPack) :=
    foldl unpackGroup (s, needPack) (listAt u GROUP_PERMISSIONS_KEYPATH) in
  let '(s, needPack) :=
    foldl unpackForbidden (s, needPack) (listAt u GROUP_FORBIDDENS_KEYPATH) in
  let '(sm, needPack) :=
    addMissingStandard (foundFriends found) NodePermissions.standardNameFriends false
      (addMissingStandard (foundLoggedIn found) NodePermissions.standardNameLoggedIn false
        (addMissingStandard (foundAnonymous found) NodePermissions.standardNameAnonymous false
          (addMissingStandard (foundLocalhost found) NodePermissions.standardNameLocalhost true
            (_standardAgentPermissions s, needPack)))) in
  let s := setStandardAgentPermissions s sm in
  let '(s, changed) := ensurePermissionsForGroupRanks s in
  (s, needPack || changed).

(** [unpackPermissions]. The closing [apiRefreshGroupInformation] only sends
    requests to the directory service; their answers arrive as later events
    and are outside this function. *)
Definition unpackPermissions (s : t) : t :=
  let '(s, needPack) := unpackPermissionsCore s in
  if needPack then packPermissions s else s.

(** *** Lookups *)

Definition nullPermissions : NodePermissions.t :=
  NodePermissions.setAll NodePermissions.null false.

Definition getStandardPermissionsForName (s : t) (name : NodePermissionsKey) : NodePermissions.t :=
  default nullPermissions (NodePermissionsMap.at_ (_standardAgentPermissions s) name).

Definition getPermissionsForName (s : t) (name : string) : NodePermissions.t :=
  default nullPermissions (NodePermissionsMap.at_ (_agentPermissions s) (name, 0)).

Definition getPermissionsForGroup (s : t) (groupName : string) (rank : Z) : NodePermissions.t :=
  default nullPermissions (NodePermissionsMap.at_ (_groupPermissions s) (groupName, rank)).

Definition getPermissionsForGroupByUUID (s : t) (groupID : QUuid) (rank : Z) : NodePermissions.t :=
  match _groupPermissionsByUUID s !! (groupID, rank) with
  | None => nullPermissions
  | Some groupKey => getPermissionsForGroup s groupKey.1 groupKey.2
  end.

Definition getForbiddensForGroup (s : t) (groupName : string) (rank : Z) : NodePermissions.t :=
  default nullPermissions (NodePermissionsMap.at_ (_groupForbiddens s) (groupName, rank)).

Definition getForbiddensForGroupByUUID (s : t) (groupID : QUuid) (rank : Z) : NodePermissions.t :=
  match _groupForbiddensByUUID s !! (groupID, rank) with
  | None => nullPermissions
  | Some groupKey => getForbiddensForGroup s groupKey.1 groupKey.2
  end.

(** *** Reading a setting with its schema default *)

(** [keyPath.mid(0, dotIndex)] and [keyPath.mid(dotIndex + 1)]; without a
    dot both are the whole path. *)
Fixpoint splitAtDot (s : string) (cur : string) : option (string * string) :=
  match s with
  | EmptyString => None
  | String c r =>
      if bool_decide (c = "."%char) then Some (String.rev cur, r)
      else splitAtDot r (String c cur)
  end.

Definition groupAndSetting (keyPath : string) : string * string :=
  default (keyPath, keyPath) (splitAtDot keyPath EmptyString).

Fixpoint defaultInSettings (settings : QVariantList) (settingKey : string) : QVariant :=
  match settings with
  | [] => VInvalid
  | setting :: r =>
      let settingMap := Variant.toMap setting in
      if bool_decide (Variant.toString (Variant.value settingMap DESCRIPTION_NAME_KEY) = settingKey)
      then Variant.value settingMap SETTING_DEFAULT_KEY
      else defaultInSettings r settingKey
  end.

Fixpoint defaultInGroups (groups : QVariantList) (groupKey settingKey : string) : QVariant :=
  match groups with
  | [] => VInvalid
  | group :: r =>
      let groupMap := Variant.toMap group in
      if bool_decide (Variant.toString (Variant.value groupMap DESCRIPTION_NAME_KEY) = groupKey)
      then defaultInSettings (Variant.toList (Variant.value groupMap DESCRIPTION_SETTINGS_KEY)) settingKey
      else defaultInGroups r groupKey settingKey
  end.

Definition valueOrDefaultValueForKeyPath (s : t) (keyPath : string) : QVariant :=
  match valueForKeyPath (mergedConfig (_configMap s)) keyPath with
  | Some foundValue => foundValue
  | None =>
      let '(groupKey, settingKey) := groupAndSetting keyPath in
      defaultInGroups (Json.toVariant <$> _descriptionArray s) groupKey settingKey
  end.

(** *** Migrations *)

Definition ALLOWED_USERS_SETTINGS_KEYPATH : string := "security.allowed_users".
Definition RESTRICTED_ACCESS_SETTINGS_KEYPATH : string := "security.restricted_access".
Definition ALLOWED_EDITORS_SETTINGS_KEYPATH : string := "security.allowed_editors".
Definition EDITORS_ARE_REZZERS_KEYPATH : string := "security.editors_are_rezzers".
Definition ENTITY_SERVER_SETTINGS_KEY : string := "entity_server_settings".
Definition ENTITY_FILE_NAME_KEY : string := "persistFilename".
Definition ENTITY_FILE_PATH_KEYPATH : string := ENTITY_SERVER_SETTINGS_KEY +:+ ".persistFilePath".
Definition BASIC_AUTH_PASSWORD_KEY_PATH : string := "security.http_password".

Definition persistAndReload (s : t) : t := reloadConfig (persistToFile s).

(** The body of [if (oldVersion < 1.0)]. *)
Definition step_1_0 (s : t) : t :=
  match valueForKeyPath (mergedConfig (_configMap s)) ALLOWED_USERS_SETTINGS_KEYPATH with
  | Some allowedUsers =>
      if Variant.canConvertList allowedUsers
         && (0 <? Z.of_nat (length (Variant.toList allowedUsers)))
      then
        persistAndReload
          (setUserConfig s
             (setValueForKeyPath (userConfig (_configMap s))
                RESTRICTED_ACCESS_SETTINGS_KEYPATH (VBool true)))
      else s
  | None => s
  end.

(** The body of [if (oldVersion < 1.1)]. *)
Definition step_1_1 (s : t) : t :=
  match valueForKeyPath (mergedConfig (_configMap s))
          (ENTITY_SERVER_SETTINGS_KEY +:+ "." +:+ ENTITY_FILE_NAME_KEY) with
  | Some persistFileNameVariant =>
      if Variant.canConvertString persistFileNameVariant then
        let persistFileName := Variant.toString persistFileNameVariant in
        let u := setValueForKeyPath (userConfig (_configMap s))
                   ENTITY_FILE_PATH_KEYPATH (VString persistFileName) in
        let u :=
          match valueForKeyPath u ENTITY_SERVER_SETTINGS_KEY with
          | Some entityServerVariant =>
              if Variant.canConvertMap entityServerVariant then
                let entityServerMap :=
                  Assoc.remove ENTITY_FILE_NAME_KEY (Variant.toMap entityServerVariant) in
                setValueForKeyPath u ENTITY_SERVER_SETTINGS_KEY (VMap entityServerMap)
              else u
          | None => u
          end in
        persistAndReload (setUserConfig s u)
      else s
  | None => s
  end.

(** The body of [if (oldVersion < 1.2)]. *)
Definition step_1_2 (s : t) : t :=
  match valueForKeyPath (userConfig (_configMap s)) BASIC_AUTH_PASSWORD_KEY_PATH with
  | Some passwordVariant =>
      if Variant.canConvertString passwordVariant then
        let plaintextPassword := Variant.toString passwordVariant in
        persistAndReload
          (setUserConfig s
             (setValueForKeyPath (userConfig (_configMap s))
                BASIC_AUTH_PASSWORD_KEY_PATH
                (VByteArray (Sha256.hashHex plaintextPassword))))
      else s
  | None => s
  end.

Definition rezPolicy (onlyEditorsAreRezzers : bool) (e : NodePermissions.t) : NodePermissions.t :=
  let grant e := NodePermissions.set
                   (NodePermissions.set e NodePermissions.canRezPermanentEntities)
                   NodePermissions.canRezTemporaryEntities in
  let deny e := NodePermissions.clear
                  (NodePermissions.clear e NodePermissions.canRezPermanentEntities)
                  NodePermissions.canRezTemporaryEntities in
  if onlyEditorsAreRezzers then
    if NodePermissions.can e NodePermissions.canAdjustLocks then grant e else deny e
  else grant e.

(** The body of [if (oldVersion < 1.4)]. *)
Definition step_1_4 (s : t) : t :=
  let isRestrictedAccess :=
    Variant.toBool (valueOrDefaultValueForKeyPath s RESTRICTED_ACCESS_SETTINGS_KEYPATH) in
  let allowedUsers :=
    Variant.toStringList (valueOrDefaultValueForKeyPath s ALLOWED_USERS_SETTINGS_KEYPATH) in
  let allowedEditors :=
    Variant.toStringList (valueOrDefaultValueForKeyPath s ALLOWED_EDITORS_SETTINGS_KEYPATH) in
  let onlyEditorsAreRezzers :=
    Variant.toBool (valueOrDefaultValueForKeyPath s EDITORS_ARE_REZZERS_KEYPATH) in
  let fresh (m : NodePermissionsMap.t) (k : NodePermissionsKey) :=
    NodePermissionsMap.assign m k (NodePermissions.fromKey k) in
  let noConnect e := NodePermissions.clear e NodePermissions.canConnectToDomain in
  let sm := fresh (_standardAgentPermissions s) NodePermissions.standardNameLocalhost in
  let sm := NodePermissionsMap.update sm NodePermissions.standardNameLocalhost
              (fun e => NodePermissions.setAll e true) in
  let sm := fresh sm NodePermissions.standardNameAnonymous in
  let sm := fresh sm NodePermissions.standardNameLoggedIn in
  let sm := fresh sm NodePermissions.standardNameFriends in
  let sm :=
    if isRestrictedAccess then
      NodePermissionsMap.update
        (NodePermissionsMap.update sm NodePermissions.standardNameAnonymous noConnect)
        NodePermissions.standardNameLoggedIn noConnect
    else sm in
  let am :=
    foldl (fun am allowedUser =>
             let am := NodePermissionsMap.assign am (allowedUser, 0)
                         (NodePermissions.fromName allowedUser) in
             NodePermissionsMap.update am (allowedUser, 0)
               (fun e => NodePermissions.set e NodePermissions.canConnectToDomain))
          (_agentPermissions s) allowedUsers in
  let am :=
    foldl (fun am allowedEditor =>
             let editorKey : NodePermissionsKey := (allowedEditor, 0) in
             let am :=
               if negb (NodePermissionsMap.contains am editorKey) then
                 let am := NodePermissionsMap.assign am editorKey
                             (NodePermissions.fromName allowedEditor) in
                 if isRestrictedAccess
                 then NodePermissionsMap.update am editorKey noConnect
                 else am
               else am in
             NodePermissionsMap.update am editorKey
               (fun e => NodePermissions.set e NodePermissions.canAdjustLocks))
          am allowedEditors in
  let sm := rezPolicy onlyEditorsAreRezzers <$> sm in
  let am := rezPolicy onlyEditorsAreRezzers <$> am in
  let s := packPermissions (setAgentPermissions (setStandardAgentPermissions s sm) am) in
  setAgentPermissions (setStandardAgentPermissions s ∅) ∅.

Definition DEFAULT_HOURS : QVariant :=
  VList [VMap [("open", VString "00:00"); ("close", VString "23:59")]].

(** [validateDescriptorsMap], the body of [if (oldVersion < 1.5)].
    [localOffsetFromUtc] is the host's offset from UTC in seconds. *)
Definition validateDescriptorsMap (localOffsetFromUtc : Z) (s : t) : t :=
  let WEEKDAY_HOURS := "descriptors.weekday_hours" in
  let WEEKEND_HOURS := "descriptors.weekend_hours" in
  let UTC_OFFSET := "descriptors.utc_offset" in
  let u := createKeyPath (userConfig (_configMap s)) WEEKDAY_HOURS in
  let u := createKeyPath u WEEKEND_HOURS in
  let u := createKeyPath u UTC_OFFSET in
  let missing (u : QVariantMap) (k : string) : bool :=
    Variant.isNull (default VInvalid (valueForKeyPath u k)) in
  let m1 := missing u WEEKDAY_HOURS in
  let u := if m1 then setValueForKeyPath u WEEKDAY_HOURS DEFAULT_HOURS else u in
  let m2 := missing u WEEKEND_HOURS in
  let u := if m2 then setValueForKeyPath u WEEKEND_HOURS DEFAULT_HOURS else u in
  let m3 := missing u UTC_OFFSET in
  let u := if m3 then setValueForKeyPath u UTC_OFFSET
                        (VDouble (Qmake localOffsetFromUtc 3600)) else u in
  let s := setUserConfig s u in
  if m1 || m2 || m3 then persistAndReload s else s.

Definition Qltb (a b : Q) : bool := negb (Qle_bool b a).

(** [setupConfigMap] after the configuration files are loaded: the state
    afterwards and the version written back to the application settings.
    [oldVersion] is the stored [json-settings/version]. *)
Definition setupConfigMap (localOffsetFromUtc : Z) (oldVersion : Q) (s : t) : t * Q :=
  let s :=
    if negb (Qeq_bool oldVersion (_descriptionVersion s)) then
      let s := if Qltb oldVersion 1 then step_1_0 s else s in
      let s := if Qltb oldVersion (11 # 10) then step_1_1 s else s in
      let s := if Qltb oldVersion (12 # 10) then step_1_2 s else s in
      let s := if Qltb oldVersion (14 # 10) then step_1_4 s else s in
      let s := if Qltb oldVersion (15 # 10) then validateDescriptorsMap localOffsetFromUtc s else s in
      s
    else s in
  (unpackPermissions s, _descriptionVersion s).

(** *** Reading settings for a client *)






(** *** Applying an update document *)

(** The [QVariantMap&] that [updateSetting] receives points into the user
    map; it is embedded as the path of keys that leads to it. *)
Fixpoint mapAt (path : list string) (u : QVariantMap) : QVariantMap :=
  match path with
  | [] => u
  | k :: r => mapAt r (Variant.toMap (Variant.value u k))
  end.

Fixpoint modifyAt (path : list string) (f : QVariantMap → QVariantMap)
    (u : QVariantMap) : QVariantMap :=
  match path with
  | [] => f u
  | k :: r => Assoc.insert k (VMap (modifyAt r f (Variant.toMap (Variant.value u k)))) u
  end.

Definition sortUser (u : QVariantMap) : QVariantMap :=
  sortListAt (sortListAt u AGENT_STANDARD_PERMISSIONS_KEYPATH) AGENT_PERMISSIONS_KEYPATH.

Fixpoint columnFor (columns : QJsonArray) (childKey : string) : option QJsonObject :=
  match columns with
  | [] => None
  | column :: r =>
      if Json.isObject column
         && Json.eqString (Json.get (Json.toObject column) DESCRIPTION_NAME_KEY) childKey
      then Some (Json.toObject column)
      else columnFor r childKey
  end.

Definition childDescription (key : string) (settingDescription : QJsonObject)
    (childKey : string) : QJsonObject :=
  if negb (bool_decide (key = Json.toString (Json.get settingDescription DESCRIPTION_NAME_KEY)))
  then default settingDescription
         (columnFor (Json.toArray (Json.get settingDescription DESCRIPTION_COLUMNS_KEY)) childKey)
  else settingDescription.

Definition sanitizeChildKey (key childKey : string) : string :=
  if bool_decide (key = SETTINGS_PATHS_KEY) && negb (QStr.startsWith childKey "/"%char)
  then "/" +:+ childKey else childKey.

Definition typedValue (key : string) (text : string) (settingDescription : QJsonObject)
    : QVariant :=
  let settingType := Json.toString (Json.get settingDescription SETTING_DESCRIPTION_TYPE_KEY) in
  if bool_decide (settingType = "double") then VDouble (QStr.toDouble text)
  else if bool_decide (settingType = "int") then VInt (QStr.toInt text)
  else
    if bool_decide (key = SETTINGS_VIEWPOINT_KEY) && negb (QStr.startsWith text "/"%char)
    then VString ("/" +:+ text)
    else VString text.

(** [updateSetting]. [path] leads from the user map [u] to [settingMap];
    the children of an object are visited in the order of its [keys()]. *)
Fixpoint updateSetting (key : string) (newValue : QJsonValue) (path : list string)
    (settingDescription : QJsonObject) (u : QVariantMap) {struct newValue} : QVariantMap :=
  let u' :=
    match newValue with
    | JString text =>
        if QStr.isEmpty text then modifyAt path (Assoc.remove key) u
        else modifyAt path (Assoc.insert key (typedValue key text settingDescription)) u
    | JBool b => modifyAt path (Assoc.insert key (VBool b)) u
    | JObject children =>
        let u1 :=
          if negb (Assoc.contains key (mapAt path u))
          then modifyAt path (Assoc.insert key (VMap [])) u else u in
        let u2 :=
          if negb (Variant.canConvertMap (Variant.value (mapAt path u1) key))
          then modifyAt path (Assoc.insert key (VMap [])) u1 else u1 in
        let u3 :=
          (fix eachChild (cs : list (string * QJsonValue)) (u : QVariantMap) : QVariantMap :=
             match cs with
             | [] => u
             | (childKey, childValue) :: r =>
                 eachChild r
                   (updateSetting (sanitizeChildKey key childKey) childValue
                      (path ++ [key])%list
                      (childDescription key settingDescription childKey) u)
             end) children u2 in
        match Variant.toMap (Variant.value (mapAt path u3) key) with
        | [] => modifyAt path (Assoc.remove key) u3
        | _ :: _ => u3
        end
    | JArray l => modifyAt path (Assoc.insert key (VList (Json.toVariant <$> l))) u
    | JNull | JDouble _ => u
    end in
  sortUser u'.

Fixpoint settingDescriptionFromGroup (settings : QJsonArray) (settingName : string)
    : QJsonObject :=
  match settings with
  | [] => []
  | settingValue :: r =>
      let settingObject := Json.toObject settingValue in
      if bool_decide (Json.toString (Json.get settingObject DESCRIPTION_NAME_KEY) = settingName)
      then settingObject
      else settingDescriptionFromGroup r settingName
  end.

Definition descriptionInGroup (groupObject : QJsonObject) (settingName : string) : QJsonObject :=
  settingDescriptionFromGroup
    (Json.toArray (Json.get groupObject DESCRIPTION_SETTINGS_KEY)) settingName.

(** The first group description whose name is [rootKey]. *)
Fixpoint groupNamed (descriptionArray : QJsonArray) (rootKey : string) : QJsonObject :=
  match descriptionArray with
  | [] => []
  | groupValue :: r =>
      if Json.eqString (Json.get (Json.toObject groupValue) DESCRIPTION_NAME_KEY) rootKey
      then Json.toObject groupValue
      else groupNamed r rootKey
  end.

(** The description of a root setting: searched in the groups without a
    name, first non-empty match. *)
Fixpoint rootDescription (descriptionArray : QJsonArray) (rootKey : string) : QJsonObject :=
  match descriptionArray with
  | [] => []
  | groupValue :: r =>
      let groupObject := Json.toObject groupValue in
      if negb (Assoc.contains DESCRIPTION_NAME_KEY groupObject) then
        match descriptionInGroup groupObject rootKey with
        | [] => rootDescription r rootKey
        | d => d
        end
      else rootDescription r rootKey
  end.

Definition isEmptyObject (o : QJsonObject) : bool :=
  match o with [] => true | _ => false end.

(** One turn of the loop over the keys of the group [rootKey]. *)
Definition overwriteGroupSetting (groupDescriptionObject : QJsonObject) (rootKey : string)
    (acc : QVariantMap * bool) (kv : string * QJsonValue) : QVariantMap * bool :=
  let '(settingKey, settingValue) := kv in
  let matchingDescriptionObject := descriptionInGroup groupDescriptionObject settingKey in
  if negb (isEmptyObject matchingDescriptionObject) then
    (updateSetting settingKey settingValue [rootKey] matchingDescriptionObject acc.1,
     if negb (bool_decide (rootKey = "security")) then true else acc.2)
  else acc.

(** One turn of the loop over the root keys of the posted object. *)
Definition overwriteRoot (descriptionArray : QJsonArray) (acc : QVariantMap * bool)
    (kv : string * QJsonValue) : QVariantMap * bool :=
  let '(u, needRestart) := acc in
  let '(rootKey, rootValue) := kv in
  let u := if negb (Assoc.contains rootKey u) then Assoc.insert rootKey (VMap []) u else u in
  let groupDescriptionObject := groupNamed descriptionArray rootKey in
  let '(u, needRestart) :=
    if isEmptyObject groupDescriptionObject then
      let matchingDescriptionObject := rootDescription descriptionArray rootKey in
      if negb (isEmptyObject matchingDescriptionObject) then
        (updateSetting rootKey rootValue [] matchingDescriptionObject u,
         if negb (bool_decide (rootKey = "security")) then true else needRestart)
      else (u, needRestart)
    else
      foldl (overwriteGroupSetting groupDescriptionObject rootKey) (u, needRestart)
            (Json.toObject rootValue) in
  match Variant.toMap (Variant.value u rootKey) with
  | [] => (Assoc.remove rootKey u, needRestart)
  | _ :: _ => (u, needRestart)
  end.

Definition recurseJSONObjectAndOverwriteSettings (s : t) (postedObject : QJsonObject)
    : t * bool :=
  let '(u, needRestart) :=
    foldl (overwriteRoot (_descriptionArray s)) (userConfig (_configMap s), false)
          postedObject in
  (setConfigMap s (mergeMasterAndUserConfigs (withUser (_configMap s) u)), needRestart).

(** What the POST handler does once the document is applied and persisted. *)
Inductive PostOutcome : Type :=
| RestartScheduled
| PermissionsUnpacked.

(** The POST branch of [handleAuthenticatedHTTPRequest]. *)
Definition handleSettingsPost (s : t) (postedObject : QJsonObject) : t * PostOutcome :=
  let '(s, restartRequired) := recurseJSONObjectAndOverwriteSettings s postedObject in
  let s := persistToFile s in
  if restartRequired then (s, RestartScheduled)
  else (unpackPermissions s, PermissionsUnpacked).

End DomainServerSettingsManager.

(** * Specification-side definitions *)

Module D := DomainServerSettingsManager.
Module H := HifiConfigVariantMap.
Module NP := NodePermissions.
Module NPM := NodePermissionsMap.

(** The manager right after construction and [loadMasterAndUserConfig]:
    nothing unpacked yet, no group known. *)
Definition freshManager (descriptionArray : QJsonArray) (descriptionVersion : Q)
    (master user : QVariantMap) : D.t :=
  D.mk descriptionArray descriptionVersion
       (H.mk master user (H.merge master user)) ∅ ∅ ∅ ∅ ∅ ∅ ∅ ∅ ∅.

(** An entry holds every capability. *)
Definition holdsEveryCapability (e : NP.t) : Prop :=
  ∀ p, p ∈ NP.capabilities → NP.can e p = true.

(** The four in-memory permission sets. *)
Definition permissionSets (s : D.t)
    : NPM.t * NPM.t * NPM.t * NPM.t :=
  (D._standardAgentPermissions s, D._agentPermissions s,
   D._groupPermissions s, D._groupForbiddens s).

(** The stored list of a category, as [unpackPermissions] reads it. *)
Definition storedList (s : D.t) (keyPath : string) : QVariantList :=
  D.listAt (H.userConfig (D._configMap s)) keyPath.

(** The settings of an update document that are applied: the pairs of a
    top-level key (the group) and a setting key for which the schema has a
    description, so that [updateSetting] is called. A root-level setting is
    its own top-level key. *)
Definition appliedUnder (descriptionArray : QJsonArray) (kv : string * QJsonValue)
    : list (string * string) :=
  let g := D.groupNamed descriptionArray kv.1 in
  if D.isEmptyObject g then
    if D.isEmptyObject (D.rootDescription descriptionArray kv.1) then []
    else [(kv.1, kv.1)]
  else
    (fun kv' : string * QJsonValue => (kv.1, kv'.1)) <$>
      filter (fun kv' : string * QJsonValue =>
                D.isEmptyObject (D.descriptionInGroup g kv'.1) = false)
             (Json.toObject kv.2).

Definition appliedSettings (descriptionArray : QJsonArray) (postedObject : QJsonObject)
    : list (string * string) :=
  mjoin (appliedUnder descriptionArray <$> postedObject).

Definition outsideSecurity (gs : string * string) : bool :=
  negb (bool_decide (gs.1 = "security")).

(** [m'] keeps every entry of [m]; what it adds holds no capability and, if
    it is a group entry, belongs to one of [gids]. *)
Definition grows (gids : QUuid → Prop) (m m' : NPM.t) : Prop :=
  (∀ k e, m !! k = Some e → m' !! k = Some e)
  ∧ (∀ k e, m' !! k = Some e → m !! k = None →
       NP.permissions e = 0 ∧ (NP.isGroup e = true → gids (NP.getGroupID e))).

Definition newRankEntry (groupName : string) (groupID : QUuid) (rank : Z) : NP.t :=
  NP.setGroupID (NP.fromKey (groupName, rank)) groupID.

(** The capability words of a permission set, by key. *)
Definition permsView (m : NPM.t) : gmap NodePermissionsKey Z := NP.permissions <$> m.

(** The entry a stored record is unpacked into. *)
Definition entryOf (v : QVariant) : NP.t := NP.fromMap (Variant.toMap v).

(** The bitwise union of capability words. *)
Definition unionOf (l : list Z) : Z := foldr Z.lor 0 l.

(** Every key of the set is in lower case, as the subscript stores it. *)
Definition lowerKeys (m : NPM.t) : Prop := ∀ k, is_Some (m !! k) → NPM.dataKey k = k.

(** The four categories of permission sets. *)
Inductive Category : Type := Standard | Named | Grouped | Forbidden.

Definition keyPathOf (c : Category) : string :=
  match c with
  | Standard => AGENT_STANDARD_PERMISSIONS_KEYPATH
  | Named => AGENT_PERMISSIONS_KEYPATH
  | Grouped => GROUP_PERMISSIONS_KEYPATH
  | Forbidden => GROUP_FORBIDDENS_KEYPATH
  end.

Definition setOf (c : Category) (s : D.t) : NPM.t :=
  match c with
  | Standard => D._standardAgentPermissions s
  | Named => D._agentPermissions s
  | Grouped => D._groupPermissions s
  | Forbidden => D._groupForbiddens s
  end.

(** The key under which [unpackPermissions] files a stored record. *)
Definition keyOf (c : Category) (v : QVariant) : NodePermissionsKey :=
  match c with
  | Standard | Named => (NP.getID (entryOf v), 0)
  | Grouped | Forbidden => NP.getKey (entryOf v)
  end.

(** The stored records of a category that are filed under [k]. *)
Definition storedUnder (c : Category) (s : D.t) (k : NodePermissionsKey) : QVariantList :=
  filter (fun v => keyOf c v = k) (storedList s (keyPathOf c)).

(** What one store-or-merge does to the capability words. *)
Definition viewStore (vw : gmap NodePermissionsKey Z) (k : NodePermissionsKey) (p : Z)
    : gmap NodePermissionsKey Z :=
  <[NPM.dataKey k := match vw !! NPM.dataKey k with Some q => Z.lor q p | None => p end]> vw.

(** The four ensures at the head of [unpackPermissions]. *)
Definition ensureAll (u : QVariantMap) : QVariantMap :=
  D.ensureList
    (D.ensureList
       (D.ensureList (D.ensureList u AGENT_STANDARD_PERMISSIONS_KEYPATH)
          AGENT_PERMISSIONS_KEYPATH)
       GROUP_PERMISSIONS_KEYPATH)
    GROUP_FORBIDDENS_KEYPATH.

(** The state [unpackPermissions] runs its loops from: the four sets
    cleared, the four lists made sure of. *)
Definition clearedForUnpack (s : D.t) : D.t :=
  D.setUserConfig
    (D.setGroupForbiddens
       (D.setGroupPermissions
          (D.setAgentPermissions (D.setStandardAgentPermissions s ∅) ∅) ∅) ∅)
    (ensureAll (H.userConfig (D._configMap s))).

Definition noneFound : D.Found := D.mkFound false false false false.

(** The four additions of missing standard roles. *)
Definition addMissingAll (found : D.Found) (acc : NPM.t * bool) : NPM.t * bool :=
  D.addMissingStandard (D.foundFriends found) NP.standardNameFriends false
    (D.addMissingStandard (D.foundLoggedIn found) NP.standardNameLoggedIn false
      (D.addMissingStandard (D.foundAnonymous found) NP.standardNameAnonymous false
        (D.addMissingStandard (D.foundLocalhost found) NP.standardNameLocalhost true acc))).

(** The entry synthesized for a missing standard role. *)
Definition synthesized (key : NodePermissionsKey) (all : bool) : NP.t :=
  if all then NP.setAll (NP.fromKey key) true else NP.fromKey key.

Definition standardKeys : list NodePermissionsKey :=
  [NP.standardNameLocalhost; NP.standardNameAnonymous;
   NP.standardNameLoggedIn; NP.standardNameFriends].

Definition subMap u g : QVariantMap :=
  match Assoc.find g u with Some (VMap sub) => sub | _ => [] end.

(** The list a category is unpacked from. *)
Definition listAt2 (u : QVariantMap) (g k : string) : QVariantList :=
  match H.valueForSegments u [g; k] with
  | Some v => Variant.toList v
  | None => []
  end.

Definition ensureList2 (u : QVariantMap) (g k : string) : QVariantMap :=
  match H.valueForSegments u [g; k] with
  | Some v => if Variant.canConvertList v then u else H.setForSegments u [g; k] (VList [])
  | None => H.setForSegments u [g; k] (VList [])
  end.

(** What a step of a group loop leaves alone. *)
Definition sameOutsideGroups (s s' : D.t) : Prop :=
  D._descriptionArray s' = D._descriptionArray s
  ∧ D._descriptionVersion s' = D._descriptionVersion s
  ∧ D._configMap s' = D._configMap s
  ∧ D._standardAgentPermissions s' = D._standardAgentPermissions s
  ∧ D._agentPermissions s' = D._agentPermissions s
  ∧ D._groupRanks s' = D._groupRanks s.

Definition lowerView (vw : gmap NodePermissionsKey Z) : Prop :=
  ∀ k, is_Some (vw !! k) → NPM.dataKey k = k.

Definition storedAs (name : NodePermissionsKey) (l : QVariantList) : bool :=
  existsb (fun v => D.keyEq (keyOf Standard v) name) l.

(** The user map after the four lists are written. *)
Definition packedUser (s : D.t) : QVariantMap :=
  let put (u : QVariantMap) (m : NPM.t) (keyPath : string) :=
    H.setValueForKeyPath (D.ensureList (D.ensureSecurity u) keyPath) keyPath
      (VList (D.packEntries s m).2) in
  put (put (put (put (H.userConfig (D._configMap s))
                     (D._standardAgentPermissions s) AGENT_STANDARD_PERMISSIONS_KEYPATH)
                (D._agentPermissions s) AGENT_PERMISSIONS_KEYPATH)
           (D._groupPermissions s) GROUP_PERMISSIONS_KEYPATH)
      (D._groupForbiddens s) GROUP_FORBIDDENS_KEYPATH.

Definition unionUnder (c : Category) (k : NodePermissionsKey) (l : QVariantList) : Z :=
  unionOf (NP.permissions ∘ entryOf <$> filter (fun v => keyOf c v = k) l).

Definition groupView (s : D.t) : gmap NodePermissionsKey Z := permsView (D._groupPermissions s).
Definition forbiddenView (s : D.t) : gmap NodePermissionsKey Z := permsView (D._groupForbiddens s).


(** [sortListAt] on a key path of two segments. *)
Definition sortAt2 (u : QVariantMap) (g k : string) : QVariantMap :=
  match H.valueForSegments u [g; k] with
  | Some (VList l) => H.setForSegments u [g; k] (VList (stdSort permissionVariantLessThan l))
  | _ => u
  end.

(** One turn of the loop of [overlay] over the entries of the fallback. *)
Definition overlayStep (acc : QVariantMap) (kv : string * QVariant) : QVariantMap :=
  match Assoc.find kv.1 acc with
  | Some tv => Assoc.insert kv.1 (H.overlay kv.2 tv) acc
  | None => Assoc.insert kv.1 kv.2 acc
  end.


(** The entry that reading back the record of [e] gives. *)
Definition reread (e : NP.t) : NP.t :=
  NP.mk (QStr.toLower (NP._id e))
        (if NP._groupIDSet e then NP._rank e else 0)
        (NP._groupIDSet e && negb (Uuid.isNull (NP._groupID e)))
        (if NP._groupIDSet e then NP._groupID e else 0%N)
        (Z.land (NP.permissions e) 63).

(** The record [packPermissionsForMap] writes for an entry. *)
Definition rowOf (s : D.t) (e : NP.t) : QVariant :=
  if NP.isGroup e then NP.toVariant e (D.groupRanksOf s (NP.getGroupID e))
  else NP.toVariant e [].

(** The records written for a set, in the order of its keys. *)
Definition rowsOf (s : D.t) (m : NPM.t) : QVariantList :=
  (fun ke : NodePermissionsKey * NP.t => rowOf s ke.2) <$> map_to_list m.

(** One of the four writes of [packPermissions], on the key ["security.k"]. *)
Definition put2 (u : QVariantMap) (k : string) (l : QVariantList) : QVariantMap :=
  H.setForSegments (ensureList2 (D.ensureSecurity u) "security" k) ["security"; k] (VList l).

(** The second segment of the key path of a category. *)
Definition listKeyOf (c : Category) : string :=
  match c with
  | Standard => "standard_permissions"
  | Named => "permissions"
  | Grouped => "group_permissions"
  | Forbidden => "group_forbiddens"
  end.

(** Two entries that differ at most in their capability word. *)
Definition sameFields (e e' : NP.t) : Prop :=
  NP.withPermissions e 0 = NP.withPermissions e' 0.

(** Every entry of the set is filed under its own id, with rank 0. *)
Definition filedByName (m : NPM.t) : Prop :=
  ∀ k e, m !! k = Some e → k = (NP.getID e, 0).

(** An entry that a stored record can hold in full: a lower-case id, a
    capability word of the six capabilities, and a rank and a group id only
    together with the group flag. *)
Definition storable (e : NP.t) : Prop :=
  QStr.toLower (NP._id e) = NP._id e
  ∧ Z.land (NP.permissions e) 63 = NP.permissions e
  ∧ (if NP._groupIDSet e then Uuid.isNull (NP._groupID e) = false
     else NP._rank e = 0 ∧ NP._groupID e = 0%N).

(** The merged view is the one computed from the master and the user map. *)
Definition consistent (s : D.t) : Prop :=
  H.mergedConfig (D._configMap s)
  = H.merge (H.masterConfig (D._configMap s)) (H.userConfig (D._configMap s)).

(** What a migration step that only rewrites the configuration keeps. *)
Definition sameButUser (s s' : D.t) : Prop :=
  D._descriptionArray s' = D._descriptionArray s
  ∧ D._descriptionVersion s' = D._descriptionVersion s
  ∧ H.masterConfig (D._configMap s') = H.masterConfig (D._configMap s)
  ∧ permissionSets s' = permissionSets s
  ∧ D._groupRanks s' = D._groupRanks s.

(** The standard set that the [< 1.4] step builds. *)
Definition migratedStandard (isRestrictedAccess onlyEditorsAreRezzers : bool) (sm : NPM.t)
    : NPM.t :=
  let fresh (m : NPM.t) (k : NodePermissionsKey) := NPM.assign m k (NP.fromKey k) in
  let noConnect e := NP.clear e NP.canConnectToDomain in
  let sm := fresh sm NP.standardNameLocalhost in
  let sm := NPM.update sm NP.standardNameLocalhost (fun e => NP.setAll e true) in
  let sm := fresh sm NP.standardNameAnonymous in
  let sm := fresh sm NP.standardNameLoggedIn in
  let sm := fresh sm NP.standardNameFriends in
  let sm :=
    if isRestrictedAccess then
      NPM.update (NPM.update sm NP.standardNameAnonymous noConnect)
        NP.standardNameLoggedIn noConnect
    else sm in
  D.rezPolicy onlyEditorsAreRezzers <$> sm.

(** One turn of the loop of the [< 1.4] step over the allowed users. *)
Definition allowUser (am : NPM.t) (allowedUser : string) : NPM.t :=
  let am := NPM.assign am (allowedUser, 0) (NP.fromName allowedUser) in
  NPM.update am (allowedUser, 0) (fun e => NP.set e NP.canConnectToDomain).

(** One turn of its loop over the allowed editors. *)
Definition allowEditor (isRestrictedAccess : bool) (am : NPM.t) (allowedEditor : string)
    : NPM.t :=
  let editorKey : NodePermissionsKey := (allowedEditor, 0) in
  let am :=
    if negb (NPM.contains am editorKey) then
      let am := NPM.assign am editorKey (NP.fromName allowedEditor) in
      if isRestrictedAccess
      then NPM.update am editorKey (fun e => NP.clear e NP.canConnectToDomain)
      else am
    else am in
  NPM.update am editorKey (fun e => NP.set e NP.canAdjustLocks).

(** The named set that the [< 1.4] step builds. *)
Definition migratedAgents (isRestrictedAccess onlyEditorsAreRezzers : bool)
    (allowedUsers allowedEditors : list string) (am : NPM.t) : NPM.t :=
  D.rezPolicy onlyEditorsAreRezzers
    <$> foldl (allowEditor isRestrictedAccess) (foldl allowUser am allowedUsers) allowedEditors.

(** The roles that the scenario takes the connect capability from. *)
Definition guestRoles : list NodePermissionsKey :=
  [NP.standardNameAnonymous; NP.standardNameLoggedIn; NP.standardNameFriends].

(** An allowed user that can connect. *)
Definition admitted (name : string) (am : NPM.t) : Prop :=
  ∃ e, am !! (QStr.toLower name, 0) = Some e
       ∧ NP._id e = QStr.toLower name
       ∧ Z.testbit (NP.permissions e) 0 = true.


(** The user map holds a descriptor that is not null. *)
Definition hasDescriptor (u : QVariantMap) (x : string) : Prop :=
  ∃ v, H.valueForSegments u ["descriptors"; x] = Some v ∧ Variant.isNull v = false.




(** The state with its four permission sets replaced. *)
Definition withSets (s : D.t) (sets : NPM.t * NPM.t * NPM.t * NPM.t) : D.t :=
  D.setGroupForbiddens
    (D.setGroupPermissions
       (D.setAgentPermissions (D.setStandardAgentPermissions s sets.1.1.1) sets.1.1.2)
       sets.1.2)
    sets.2.


Module Examples.

Definition pilotsID : QUuid :=
  Uuid.fromString "{fd55479a-265d-4990-854e-3d04214ad1b0}".

(** A stored localhost row that grants nothing. *)
Definition weakLocalhost : D.t :=
  freshManager [] (15 # 10) []
    [("security", VMap [("standard_permissions",
        VList [VMap [("permissions_id", VString "localhost")]])])].

(** Nothing stored, nothing in memory. *)
Definition blank : D.t := freshManager [] (15 # 10) [] [].

(** A plain-text password waiting for the [< 1.2] step. *)
Definition plainPassword : D.t :=
  freshManager [] (15 # 10) []
    [("security", VMap [("http_password", VString "secret")])].

(** Two forbidden rows of one group; only the second carries the group id. *)
Definition halfBoundGroup : D.t :=
  freshManager [] (15 # 10) []
    [("security", VMap [("group_forbiddens", VList [
        VMap [("permissions_id", VString "pilots"); ("rank", VInt 1);
              ("id_can_connect", VBool true)];
        VMap [("permissions_id", VString "pilots"); ("rank", VInt 0);
              ("group_id", VString "{fd55479a-265d-4990-854e-3d04214ad1b0}")]])])].

(** Group rows stored out of order. *)
Definition unsortedGroups : D.t :=
  freshManager [] (15 # 10) []
    [("security", VMap [("group_permissions", VList [
        VMap [("permissions_id", VString "b")];
        VMap [("permissions_id", VString "a")]])])].




(** The group "Pilots" with its id bound and two known ranks: one entry in
    the permission set at rank 0, one in the forbidden set at rank 1. *)
Definition pilotsInBothSets : D.t :=
  D.mk [] (15 # 10) (H.mk [] [] [])
    ∅ ∅
    {[ ("pilots", 0) := NP.setGroupID (NP.fromKey ("pilots", 0)) pilotsID ]}
    {[ ("pilots", 1) :=
         NP.set (NP.setGroupID (NP.fromKey ("pilots", 1)) pilotsID)
                NP.canConnectToDomain ]}
    ∅ ∅
    {[ "pilots" := pilotsID ]}
    {[ pilotsID := "Pilots" ]}
    {[ pilotsID := ["owner"; "member"] ]}.

(** Two stored rows for one user, spelled in different case. *)
Definition duplicateUser : D.t :=
  freshManager [] (15 # 10) []
    [("security", VMap [("permissions", VList [
        VMap [("permissions_id", VString "Alice"); ("id_can_connect", VBool true)];
        VMap [("permissions_id", VString "alice"); ("id_can_adjust_locks", VBool true)]])])].

(** The four standard roles and one named user, as a stored list gives
    them; no groups. *)
Definition settledSets : D.t :=
  D.mk [] (15 # 10) (H.mk [] [] [])
    (<[NP.standardNameLocalhost :=
         NP.withPermissions (NP.fromKey NP.standardNameLocalhost) 63]>
       (<[NP.standardNameAnonymous :=
            NP.withPermissions (NP.fromKey NP.standardNameAnonymous) 1]>
          (<[NP.standardNameLoggedIn :=
               NP.withPermissions (NP.fromKey NP.standardNameLoggedIn) 1]>
             {[ NP.standardNameFriends := NP.fromKey NP.standardNameFriends ]})))
    {[ ("bob", 0) := NP.withPermissions (NP.fromName "Bob") 3 ]}
    ∅ ∅ ∅ ∅ ∅ ∅ ∅.

(** A user map from before version 1.0: an allow-list and nothing else. *)
Definition legacyAllowList : D.t :=
  freshManager [] (15 # 10) []
    [("security", VMap [("allowed_users", VList [VString "Alice"])])].

End Examples.

(** * Lemmas and theorems *)

(** ** Evaluations at concrete inputs *)

(** C1, counterexample: a stored localhost row without capabilities is
    unpacked as it is; localhost then holds no capability at all, so it does
    not hold every capability "regardless of what was stored". *)
Lemma C1_stored_localhost_keeps_its_capabilities :
  ¬ holdsEveryCapability
      (D.getStandardPermissionsForName
         (D.unpackPermissions Examples.weakLocalhost) NP.standardNameLocalhost).
Proof.
  intros Hall.
  specialize (Hall NP.canConnectToDomain ltac:(unfold NP.capabilities; set_solver)).
  vm_compute in Hall. discriminate.
Qed.

(** C2, counterexample: with all four sets empty, pack writes four empty
    lists and the following unpack adds the four standard roles; the sets
    are not the ones that were packed. *)
Lemma C2_pack_unpack_changes_empty_sets :
  permissionSets (D.unpackPermissions (D.packPermissions Examples.blank))
  ≠ permissionSets Examples.blank.
Proof.
  intros Heq.
  assert (Hl : D._standardAgentPermissions
                 (D.unpackPermissions (D.packPermissions Examples.blank))
               !! NP.standardNameLocalhost
               = D._standardAgentPermissions Examples.blank !! NP.standardNameLocalhost).
  { unfold permissionSets in Heq. congruence. }
  vm_compute in Hl. discriminate.
Qed.


(** C4, the code at the failing input: after unpacking, the forbidden row
    (pilots, 1) is a group row of the group, it forbids connecting when
    looked up by name, and nothing is found for it by (UUID, rank). *)
Lemma C4_uuid_index_misses_bound_entry :
  let s := D.unpackPermissions Examples.halfBoundGroup in
  (∃ e, D._groupForbiddens s !! ("pilots", 1) = Some e
        ∧ NP.isGroup e = true
        ∧ NP.getGroupID e = Examples.pilotsID)
  ∧ NP.permissions (D.getForbiddensForGroup s "pilots" 1) = 1
  ∧ NP.permissions (D.getForbiddensForGroupByUUID s Examples.pilotsID 1) = 0.
Proof.
  split; [|split]; [eexists; split; [|split] | |]; vm_compute; reflexivity.
Qed.


(** C10, the code at the failing input: [persistToFile] leaves the group
    list in the order it found it, although "a" sorts before "b". *)
Lemma C10_group_list_is_not_sorted :
  storedList (D.persistToFile Examples.unsortedGroups) GROUP_PERMISSIONS_KEYPATH
  = [VMap [("permissions_id", VString "b")]; VMap [("permissions_id", VString "a")]]
  ∧ permissionVariantLessThan
      (VMap [("permissions_id", VString "a")])
      (VMap [("permissions_id", VString "b")]) = true.
Proof. split; vm_compute; reflexivity. Qed.


(** ** The restart flag of an update *)

Section restart_flag.

Lemma overwriteGroupSetting_flag g rootKey (l : QJsonObject) u b :
  (foldl (D.overwriteGroupSetting g rootKey) (u, b) l).2
  = b || existsb outsideSecurity
           ((fun kv' : string * QJsonValue => (rootKey, kv'.1)) <$>
              filter (fun kv' : string * QJsonValue =>
                        D.isEmptyObject (D.descriptionInGroup g kv'.1) = false) l).
Proof.
  revert u b. induction l as [|[k v] l IH]; intros u b.
  - simpl. by rewrite orb_false_r.
  - rewrite filter_cons. cbn [foldl].
    assert (D.overwriteGroupSetting g rootKey (u, b) (k, v)
            = if D.isEmptyObject (D.descriptionInGroup g k) then (u, b)
              else (D.updateSetting k v [rootKey] (D.descriptionInGroup g k) u,
                    if negb (bool_decide (rootKey = "security")) then true else b)) as ->.
    { unfold D.overwriteGroupSetting. by destruct (D.isEmptyObject _). }
    cbn [fst snd].
    destruct (D.isEmptyObject (D.descriptionInGroup g k)) eqn:He.
    + rewrite decide_False by done. apply IH.
    + rewrite decide_True by done. rewrite IH. cbn [fmap list_fmap existsb].
      unfold outsideSecurity at 2. cbn [fst].
      destruct (bool_decide (rootKey = "security")); cbn [negb];
        by destruct b; rewrite ?orb_true_r.
Qed.

Lemma overwriteRoot_flag descr u b kv :
  (D.overwriteRoot descr (u, b) kv).2
  = b || existsb outsideSecurity (appliedUnder descr kv).
Proof.
  destruct kv as [rootKey rootValue].
  unfold D.overwriteRoot, appliedUnder. simpl.
  set (u0 := if negb (Assoc.contains rootKey u) then _ else _).
  destruct (D.isEmptyObject (D.groupNamed descr rootKey)) eqn:Hg.
  - destruct (D.isEmptyObject (D.rootDescription descr rootKey)) eqn:Hr; simpl.
    + destruct (Variant.toMap _); simpl; by rewrite orb_false_r.
    + unfold outsideSecurity. simpl.
      destruct (Variant.toMap _); simpl;
        destruct (bool_decide (rootKey = "security")); simpl;
        by destruct b.
  - pose proof (overwriteGroupSetting_flag (D.groupNamed descr rootKey) rootKey
                  (Json.toObject rootValue) u0 b) as Hf.
    destruct (foldl _ _ _) as [u1 b1]. simpl in Hf. subst b1.
    destruct (Variant.toMap _); reflexivity.
Qed.

Lemma overwriteRoots_flag descr (posted : QJsonObject) u b :
  (foldl (D.overwriteRoot descr) (u, b) posted).2
  = b || existsb outsideSecurity (appliedSettings descr posted).
Proof.
  revert u b. induction posted as [|kv posted IH]; intros u b.
  - simpl. by rewrite orb_false_r.
  - cbn [foldl].
    pose proof (overwriteRoot_flag descr u b kv) as Hf.
    destruct (D.overwriteRoot descr (u, b) kv) as [u1 b1]. simpl in Hf. subst b1.
    rewrite IH. unfold appliedSettings. cbn [fmap list_fmap mjoin list_join].
    rewrite existsb_app. by rewrite orb_assoc.
Qed.

Lemma recurse_flag s posted :
  (D.recurseJSONObjectAndOverwriteSettings s posted).2
  = existsb outsideSecurity (appliedSettings (D._descriptionArray s) posted).
Proof.
  unfold D.recurseJSONObjectAndOverwriteSettings.
  pose proof (overwriteRoots_flag (D._descriptionArray s) posted
                (H.userConfig (D._configMap s)) false) as Hf.
  destruct (foldl _ _ _) as [u b]. simpl in *. exact Hf.
Qed.

End restart_flag.

(** C7: once an update document is applied, a restart is scheduled exactly
    when some applied setting sits under a top-level key other than
    "security"; when every applied setting sits under "security" no restart
    is scheduled and [unpackPermissions] runs at once on the persisted
    state. *)
Theorem C7_restart_unless_security_only (s : D.t) (postedObject : QJsonObject) :
  let applied := appliedSettings (D._descriptionArray s) postedObject in
  let s1 := (D.recurseJSONObjectAndOverwriteSettings s postedObject).1 in
  ((∃ gs, gs ∈ applied ∧ gs.1 ≠ "security") →
     D.handleSettingsPost s postedObject = (D.persistToFile s1, D.RestartScheduled))
  ∧ ((∀ gs, gs ∈ applied → gs.1 = "security") →
     D.handleSettingsPost s postedObject
     = (D.unpackPermissions (D.persistToFile s1), D.PermissionsUnpacked)).
Proof.
  intros applied s1. unfold D.handleSettingsPost.
  pose proof (recurse_flag s postedObject) as Hf. fold applied in Hf.
  subst s1. destruct (D.recurseJSONObjectAndOverwriteSettings s postedObject) as [s1 b].
  simpl in *. subst b. split.
  - intros (gs & Hin & Hne).
    assert (existsb outsideSecurity applied = true) as ->; [|done].
    apply existsb_exists. exists gs. split; [by apply list_elem_of_In|].
    unfold outsideSecurity. by rewrite bool_decide_eq_false_2.
  - intros Hall.
    assert (existsb outsideSecurity applied = false) as ->; [|done].
    apply not_true_is_false. intros (gs & Hin & Hout)%existsb_exists.
    apply list_elem_of_In, Hall in Hin. unfold outsideSecurity in Hout.
    by rewrite bool_decide_eq_true_2 in Hout.
Qed.

(** ** Rank coverage *)

Section rank_coverage.

Implicit Types (m : NPM.t) (idx : gmap GroupByUUIDKey NodePermissionsKey).

Lemma grows_refl gids m : grows gids m m.
Proof. split; [done|]. intros k e H1 H2. congruence. Qed.

Lemma grows_trans gids m1 m2 m3 :
  grows gids m1 m2 → grows gids m2 m3 → grows gids m1 m3.
Proof.
  intros [A1 B1] [A2 B2]. split; [by eauto|].
  intros k e H3 H1. destruct (m2 !! k) as [e2|] eqn:H2.
  - rewrite (A2 _ _ H2) in H3. simplify_eq. by eapply B1.
  - by eapply B2.
Qed.

Lemma grows_weaken (P Q : QUuid → Prop) m m' :
  (∀ g, P g → Q g) → grows P m m' → grows Q m m'.
Proof.
  intros HPQ [A B]. split; [done|]. intros k e H1 H2.
  destruct (B _ _ H1 H2) as [? ?]. split; [done|]. eauto.
Qed.

Lemma ensureRank_present name gid m idx c rank e :
  m !! NPM.dataKey (name, rank) = Some e →
  D.ensureRank name gid (m, idx, c) rank
  = (m, <[(gid, rank) := NP.getKey e]> idx, c).
Proof.
  intros He. unfold D.ensureRank, NPM.contains, NPM.subscript.
  rewrite He. rewrite bool_decide_eq_true_2 by eauto. done.
Qed.

Lemma ensureRank_absent name gid m idx c rank :
  m !! NPM.dataKey (name, rank) = None →
  D.ensureRank name gid (m, idx, c) rank
  = (<[NPM.dataKey (name, rank) := newRankEntry name gid rank]> m,
     <[(gid, rank) := NP.getKey (newRankEntry name gid rank)]> idx, true).
Proof.
  intros He. unfold D.ensureRank, NPM.contains, NPM.assign.
  rewrite He. rewrite bool_decide_eq_false_2; [done|]. by intros [? ?].
Qed.

Lemma newRankEntry_props name gid rank :
  NP.permissions (newRankEntry name gid rank) = 0
  ∧ (NP.isGroup (newRankEntry name gid rank) = true →
     NP.getGroupID (newRankEntry name gid rank) = gid).
Proof. split; [done|]. by cbn. Qed.

Lemma ensureRank_grows name gid m idx c rank :
  grows (eq gid) m (D.ensureRank name gid (m, idx, c) rank).1.1.
Proof.
  destruct (m !! NPM.dataKey (name, rank)) as [e|] eqn:He.
  - rewrite (ensureRank_present _ _ _ _ _ _ _ He). apply grows_refl.
  - rewrite (ensureRank_absent _ _ _ _ _ _ He). cbn [fst]. split.
    + intros k e H1. rewrite lookup_insert_ne; [done|]. congruence.
    + intros k e H1 H2. destruct (decide (NPM.dataKey (name, rank) = k)) as [<-|Hne].
      * rewrite lookup_insert_eq in H1. simplify_eq.
        destruct (newRankEntry_props name gid rank) as [? ?]. naive_solver.
      * rewrite lookup_insert_ne in H1 by done. congruence.
Qed.

(** The loop over the ranks of one group. *)
Lemma ensureRanks_spec name gid (ranks : list Z) m idx c :
  let r := foldl (D.ensureRank name gid) (m, idx, c) ranks in
  grows (eq gid) m r.1.1
  ∧ (∀ rank, rank ∈ ranks →
       is_Some (r.1.1 !! NPM.dataKey (name, rank)) ∧ is_Some (r.1.2 !! (gid, rank)))
  ∧ (∀ k, is_Some (idx !! k) → is_Some (r.1.2 !! k))
  ∧ ((∀ rank, rank ∈ ranks → is_Some (m !! NPM.dataKey (name, rank))) →
       r.1.1 = m ∧ r.2 = c).
Proof.
  revert m idx c. induction ranks as [|rank ranks IH]; intros m idx c r.
  - subst r. cbn. split; [apply grows_refl|]. split; [by intros ? ?%elem_of_nil|]. done.
  - subst r. cbn [foldl].
    pose proof (ensureRank_grows name gid m idx c rank) as Hg.
    assert (Hhere : is_Some ((D.ensureRank name gid (m, idx, c) rank).1.1
                              !! NPM.dataKey (name, rank))
                    ∧ is_Some ((D.ensureRank name gid (m, idx, c) rank).1.2 !! (gid, rank))
                    ∧ (∀ k, is_Some (idx !! k) →
                         is_Some ((D.ensureRank name gid (m, idx, c) rank).1.2 !! k))).
    { destruct (m !! NPM.dataKey (name, rank)) as [e|] eqn:He.
      - rewrite (ensureRank_present _ _ _ _ _ _ _ He). cbn [fst snd].
        rewrite He, lookup_insert_eq. split; [by eauto|]. split; [by eauto|].
        intros k Hk. rewrite lookup_insert. case_decide; eauto.
      - rewrite (ensureRank_absent _ _ _ _ _ _ He). cbn [fst snd].
        rewrite !lookup_insert_eq. split; [by eauto|]. split; [by eauto|].
        intros k Hk. rewrite lookup_insert. case_decide; eauto. }
    assert (Hsame : is_Some (m !! NPM.dataKey (name, rank)) →
                    (D.ensureRank name gid (m, idx, c) rank).1.1 = m
                    ∧ (D.ensureRank name gid (m, idx, c) rank).2 = c).
    { intros [e He]. by rewrite (ensureRank_present _ _ _ _ _ _ _ He). }
    destruct (D.ensureRank name gid (m, idx, c) rank) as [[m1 idx1] c1].
    cbn [fst snd] in *.
    destruct (IH m1 idx1 c1) as (IHg & IHc & IHi & IHs).
    destruct Hhere as (Hm1 & Hi1 & Hi1').
    split; [by eapply grows_trans|]. split; [|split].
    + intros rank' [->|Hin]%elem_of_cons; [|by apply IHc].
      split; [|by apply IHi]. destruct Hm1 as [e He]. destruct IHg as [A _].
      rewrite (A _ _ He). eauto.
    + intros k Hk. apply IHi, Hi1', Hk.
    + intros Hall. destruct Hsame as [-> ->]; [apply Hall; by left|].
      apply IHs. intros rank' Hin. apply Hall. by right.
Qed.

Lemma elem_of_groupIDsOf m g :
  g ∈ D.groupIDsOf m ↔ ∃ k e, m !! k = Some e ∧ NP.isGroup e = true ∧ NP.getGroupID e = g.
Proof.
  unfold D.groupIDsOf. rewrite elem_of_elements, elem_of_list_to_set, list_elem_of_fmap.
  split.
  - intros (e & -> & He). apply list_elem_of_filter in He as [Hg He].
    apply list_elem_of_fmap in He as ([k e'] & -> & Hke).
    apply elem_of_map_to_list in Hke. eauto.
  - intros (k & e & Hke & Hg & <-). exists e. split; [done|].
    apply list_elem_of_filter. split; [done|].
    apply list_elem_of_fmap. exists (k, e). split; [done|]. by apply elem_of_map_to_list.
Qed.

Lemma groupIDsOf_grows m m' :
  grows (fun g => g ∈ D.groupIDsOf m) m m' → D.groupIDsOf m' = D.groupIDsOf m.
Proof.
  intros [A B]. unfold D.groupIDsOf. f_equal. apply set_eq. intros g.
  rewrite <- !elem_of_elements.
  change (g ∈ D.groupIDsOf m' ↔ g ∈ D.groupIDsOf m).
  rewrite !elem_of_groupIDsOf. split.
  - intros (k & e & Hke & Hg & <-). destruct (m !! k) as [e0|] eqn:H0.
    + rewrite (A _ _ H0) in Hke. simplify_eq. eauto.
    + destruct (B _ _ Hke H0) as [_ Hin]. specialize (Hin Hg).
      by apply elem_of_groupIDsOf in Hin.
  - intros (k & e & Hke & Hg & <-). exists k, e. split; [by apply A|done].
Qed.

(** The loop over the groups of one permission map. *)
Lemma ensureGroups_spec s (gids : list QUuid) m idx c :
  let r := foldl (D.ensureGroup s) (m, idx, c) gids in
  grows (fun g => g ∈ gids) m r.1.1
  ∧ (∀ g rank, g ∈ gids → 0 ≤ rank < Z.of_nat (length (D.groupRanksOf s g)) →
       is_Some (r.1.1 !! NPM.dataKey (D.groupNameOf s g, rank))
       ∧ is_Some (r.1.2 !! (g, rank)))
  ∧ (∀ k, is_Some (idx !! k) → is_Some (r.1.2 !! k))
  ∧ ((∀ g rank, g ∈ gids → 0 ≤ rank < Z.of_nat (length (D.groupRanksOf s g)) →
        is_Some (m !! NPM.dataKey (D.groupNameOf s g, rank))) →
       r.1.1 = m ∧ r.2 = c).
Proof.
  revert m idx c. induction gids as [|g gids IH]; intros m idx c r.
  - subst r. cbn. split; [apply grows_refl|]. split; [by intros ? ? ?%elem_of_nil|]. done.
  - subst r. cbn [foldl].
    replace (D.ensureGroup s (m, idx, c) g)
      with (foldl (D.ensureRank (D.groupNameOf s g) g) (m, idx, c)
              (seqZ 0 (Z.of_nat (length (D.groupRanksOf s g))))) by reflexivity.
    pose proof (ensureRanks_spec (D.groupNameOf s g) g
                  (seqZ 0 (Z.of_nat (length (D.groupRanksOf s g)))) m idx c) as Hr.
    cbn zeta in Hr.
    destruct (foldl (D.ensureRank (D.groupNameOf s g) g) (m, idx, c) _) as [[m1 idx1] c1].
    cbn [fst snd] in Hr. destruct Hr as (Hg & Hc & Hi & Hs).
    destruct (IH m1 idx1 c1) as (IHg & IHc & IHi & IHs).
    split; [|split; [|split]].
    + eapply grows_trans.
      * eapply grows_weaken; [|exact Hg]. intros ? <-. by left.
      * eapply grows_weaken; [|exact IHg]. intros ? ?. by right.
    + intros g' rank [->|Hin]%elem_of_cons Hrank; [|by apply IHc].
      destruct (Hc rank) as [[e He] Hi1]; [apply elem_of_seqZ; lia|].
      split; [|by apply IHi]. destruct IHg as [A _]. rewrite (A _ _ He). eauto.
    + intros k Hk. by apply IHi, Hi.
    + intros Hall. destruct Hs as [-> ->].
      { intros rank Hin%elem_of_seqZ. apply Hall; [by left|lia]. }
      apply IHs. intros g' rank Hin. apply Hall. by right.
Qed.

End rank_coverage.

Lemma ensurePermissionsForGroupRanks_eq s gp ip c1 gf jf c2 :
  foldl (D.ensureGroup s) (D._groupPermissions s, D._groupPermissionsByUUID s, false)
        (D.getGroupIDs s) = (gp, ip, c1) →
  foldl (D.ensureGroup s) (D._groupForbiddens s, D._groupForbiddensByUUID s, c1)
        (D.getBlacklistGroupIDs s) = (gf, jf, c2) →
  D.ensurePermissionsForGroupRanks s
  = (D.setGroupForbiddensByUUID
       (D.setGroupForbiddens
          (D.setGroupPermissionsByUUID (D.setGroupPermissions s gp) ip) gf) jf, c2).
Proof.
  intros Ep Ef. unfold D.ensurePermissionsForGroupRanks. rewrite Ep.
  change (D.ensureGroup (D.setGroupPermissionsByUUID (D.setGroupPermissions s gp) ip))
    with (D.ensureGroup s).
  change (D.getBlacklistGroupIDs (D.setGroupPermissionsByUUID (D.setGroupPermissions s gp) ip))
    with (D.getBlacklistGroupIDs s).
  change (D._groupForbiddens (D.setGroupPermissionsByUUID (D.setGroupPermissions s gp) ip))
    with (D._groupForbiddens s).
  change (D._groupForbiddensByUUID (D.setGroupPermissionsByUUID (D.setGroupPermissions s gp) ip))
    with (D._groupForbiddensByUUID s).
  by rewrite Ef.
Qed.

(** C9: for every group id carried by a group entry of the permission set
    (resp. of the forbidden set) and every rank below the known rank count
    of that group, after [ensurePermissionsForGroupRanks] that set has an
    entry under the group's name and the rank, reachable through the by-UUID
    index; an entry that was missing before holds no capability; and a
    second call reports no change. *)
Theorem C9_rank_coverage_is_idempotent (s : D.t) :
  let s1 := (D.ensurePermissionsForGroupRanks s).1 in
  (∀ k e0 rank,
     D._groupPermissions s !! k = Some e0 → NP.isGroup e0 = true →
     0 ≤ rank < Z.of_nat (length (D.groupRanksOf s (NP.getGroupID e0))) →
     ∃ e, NPM.at_ (D._groupPermissions s1) (D.groupNameOf s (NP.getGroupID e0), rank) = Some e
          ∧ (NPM.at_ (D._groupPermissions s) (D.groupNameOf s (NP.getGroupID e0), rank) = None →
             NP.permissions e = 0)
          ∧ is_Some (D._groupPermissionsByUUID s1 !! (NP.getGroupID e0, rank)))
  ∧ (∀ k e0 rank,
     D._groupForbiddens s !! k = Some e0 → NP.isGroup e0 = true →
     0 ≤ rank < Z.of_nat (length (D.groupRanksOf s (NP.getGroupID e0))) →
     ∃ e, NPM.at_ (D._groupForbiddens s1) (D.groupNameOf s (NP.getGroupID e0), rank) = Some e
          ∧ (NPM.at_ (D._groupForbiddens s) (D.groupNameOf s (NP.getGroupID e0), rank) = None →
             NP.permissions e = 0)
          ∧ is_Some (D._groupForbiddensByUUID s1 !! (NP.getGroupID e0, rank)))
  ∧ (D.ensurePermissionsForGroupRanks s1).2 = false.
Proof.
  intros s1. subst s1.
  pose proof (ensureGroups_spec s (D.getGroupIDs s) (D._groupPermissions s)
                (D._groupPermissionsByUUID s) false) as Hp.
  cbn zeta in Hp.
  destruct (foldl (D.ensureGroup s) (D._groupPermissions s, D._groupPermissionsByUUID s, false)
              (D.getGroupIDs s)) as [[gp ip] c1] eqn:Ep.
  cbn [fst snd] in Hp. destruct Hp as (Hpg & Hpc & _ & _).
  pose proof (ensureGroups_spec s (D.getBlacklistGroupIDs s) (D._groupForbiddens s)
                (D._groupForbiddensByUUID s) c1) as Hf.
  cbn zeta in Hf.
  destruct (foldl (D.ensureGroup s) (D._groupForbiddens s, D._groupForbiddensByUUID s, c1)
              (D.getBlacklistGroupIDs s)) as [[gf jf] c2] eqn:Ef.
  cbn [fst snd] in Hf. destruct Hf as (Hfg & Hfc & _ & _).
  rewrite (ensurePermissionsForGroupRanks_eq s gp ip c1 gf jf c2 Ep Ef).
  cbn [fst snd].
  set (sb := D.setGroupForbiddensByUUID
               (D.setGroupForbiddens
                  (D.setGroupPermissionsByUUID (D.setGroupPermissions s gp) ip) gf) jf).
  split; [|split].
  - intros k e0 rank Hk Hgrp Hrank.
    assert (Hg : NP.getGroupID e0 ∈ D.getGroupIDs s).
    { apply elem_of_groupIDsOf. by exists k, e0. }
    destruct (Hpc _ rank Hg Hrank) as [[e He] Hi].
    exists e. split; [exact He|]. split; [|exact Hi].
    intros Hnone. destruct Hpg as [_ B]. by destruct (B _ _ He Hnone).
  - intros k e0 rank Hk Hgrp Hrank.
    assert (Hg : NP.getGroupID e0 ∈ D.getBlacklistGroupIDs s).
    { apply elem_of_groupIDsOf. by exists k, e0. }
    destruct (Hfc _ rank Hg Hrank) as [[e He] Hi].
    exists e. split; [exact He|]. split; [|exact Hi].
    intros Hnone. destruct Hfg as [_ B]. by destruct (B _ _ He Hnone).
  - assert (Hids : D.getGroupIDs sb = D.getGroupIDs s).
    { apply (groupIDsOf_grows (D._groupPermissions s) gp). exact Hpg. }
    assert (Hbl : D.getBlacklistGroupIDs sb = D.getBlacklistGroupIDs s).
    { apply (groupIDsOf_grows (D._groupForbiddens s) gf). exact Hfg. }
    pose proof (ensureGroups_spec s (D.getGroupIDs s) gp ip false) as Hp2.
    cbn zeta in Hp2.
    destruct (foldl (D.ensureGroup s) (gp, ip, false) (D.getGroupIDs s))
      as [[gp' ip'] c1'] eqn:Ep'.
    cbn [fst snd] in Hp2. destruct Hp2 as (_ & _ & _ & Hsame).
    destruct Hsame as [-> ->]. { intros g rank Hg Hrank. by apply Hpc. }
    pose proof (ensureGroups_spec s (D.getBlacklistGroupIDs s) gf jf false) as Hf2.
    cbn zeta in Hf2.
    destruct (foldl (D.ensureGroup s) (gf, jf, false) (D.getBlacklistGroupIDs s))
      as [[gf' jf'] c2'] eqn:Ef'.
    cbn [fst snd] in Hf2. destruct Hf2 as (_ & _ & _ & Hsame).
    destruct Hsame as [-> ->]. { intros g rank Hg Hrank. by apply Hfc. }
    rewrite (ensurePermissionsForGroupRanks_eq sb gp ip' false gf jf' false); [done| |].
    + rewrite Hids. exact Ep'.
    + rewrite Hbl. exact Ef'.
Qed.

Lemma C9_rank_coverage_witness :
  (∃ e, NPM.at_ (D._groupPermissions
                   (D.ensurePermissionsForGroupRanks Examples.pilotsInBothSets).1)
                ("Pilots", 1) = Some e
        ∧ NP.permissions e = 0)
  ∧ (∃ e, NPM.at_ (D._groupForbiddens
                     (D.ensurePermissionsForGroupRanks Examples.pilotsInBothSets).1)
                  ("Pilots", 0) = Some e
          ∧ NP.permissions e = 0)
  ∧ (D.ensurePermissionsForGroupRanks
       (D.ensurePermissionsForGroupRanks Examples.pilotsInBothSets).1).2 = false.
Proof.
  pose proof (C9_rank_coverage_is_idempotent Examples.pilotsInBothSets) as Hc.
  cbv zeta in Hc. destruct Hc as (Hp & Hf & Hidem).
  split; [|split; [|exact Hidem]].
  - assert (Hk : D._groupPermissions Examples.pilotsInBothSets !! ("pilots", 0)
                 = Some (NP.setGroupID (NP.fromKey ("pilots", 0)) Examples.pilotsID)).
    { vm_compute. reflexivity. }
    assert (Hg : NP.isGroup (NP.setGroupID (NP.fromKey ("pilots", 0)) Examples.pilotsID)
                 = true).
    { vm_compute. reflexivity. }
    assert (Hr : 0 ≤ 1 < Z.of_nat (length (D.groupRanksOf Examples.pilotsInBothSets
               (NP.getGroupID (NP.setGroupID (NP.fromKey ("pilots", 0)) Examples.pilotsID))))).
    { vm_compute. split; [discriminate|reflexivity]. }
    destruct (Hp _ _ 1 Hk Hg Hr) as (e & He & Hnew & _).
    exists e. split; [exact He|]. apply Hnew. vm_compute. reflexivity.
  - assert (Hk : D._groupForbiddens Examples.pilotsInBothSets !! ("pilots", 1)
                 = Some (NP.set (NP.setGroupID (NP.fromKey ("pilots", 1)) Examples.pilotsID)
                                NP.canConnectToDomain)).
    { vm_compute. reflexivity. }
    assert (Hg : NP.isGroup (NP.set (NP.setGroupID (NP.fromKey ("pilots", 1))
                                       Examples.pilotsID) NP.canConnectToDomain) = true).
    { vm_compute. reflexivity. }
    assert (Hr : 0 ≤ 0 < Z.of_nat (length (D.groupRanksOf Examples.pilotsInBothSets
               (NP.getGroupID (NP.set (NP.setGroupID (NP.fromKey ("pilots", 1))
                                         Examples.pilotsID) NP.canConnectToDomain))))).
    { vm_compute. split; [discriminate|reflexivity]. }
    destruct (Hf _ _ 0 Hk Hg Hr) as (e & He & Hnew & _).
    exists e. split; [exact He|]. apply Hnew. vm_compute. reflexivity.
Defined.

(** ** Strings and keys *)

Lemma ascii_toLower_idemp c : QStr.ascii_toLower (QStr.ascii_toLower c) = QStr.ascii_toLower c.
Proof. destruct c as [[] [] [] [] [] [] [] []]; reflexivity. Qed.

Lemma toLower_idemp s : QStr.toLower (QStr.toLower s) = QStr.toLower s.
Proof. induction s as [|c s IH]; [done|]. cbn. by rewrite ascii_toLower_idemp, IH. Qed.

Lemma dataKey_idemp k : NPM.dataKey (NPM.dataKey k) = NPM.dataKey k.
Proof. unfold NPM.dataKey. cbn. by rewrite toLower_idemp. Qed.

Lemma fromMap_id_lower perms : QStr.toLower (NP._id (NP.fromMap perms)) = NP._id (NP.fromMap perms).
Proof. cbn. apply toLower_idemp. Qed.

Lemma dataKey_fromMap_key perms :
  NPM.dataKey (NP.getKey (NP.fromMap perms)) = NP.getKey (NP.fromMap perms).
Proof. unfold NPM.dataKey, NP.getKey. cbn [fst snd]. by rewrite fromMap_id_lower. Qed.

Lemma dataKey_fromMap_id perms :
  NPM.dataKey (NP.getID (NP.fromMap perms), 0) = (NP.getID (NP.fromMap perms), 0).
Proof. unfold NPM.dataKey, NP.getID. cbn [fst snd]. by rewrite fromMap_id_lower. Qed.

(** ** Association lists *)

Section assoc_facts.
Context {T : Type}.
Implicit Types (m : list (string * T)) (k : string) (v : T).

Lemma find_insert_eq k v m : Assoc.find k (Assoc.insert k v m) = Some v.
Proof.
  induction m as [|[k' v'] m IH]; cbn.
  - by rewrite bool_decide_eq_true_2.
  - destruct (bool_decide (k' = k)) eqn:E; cbn.
    + by rewrite bool_decide_eq_true_2.
    + by rewrite E.
Qed.

Lemma find_insert_ne k k' v m : k ≠ k' → Assoc.find k' (Assoc.insert k v m) = Assoc.find k' m.
Proof.
  intros Hne. induction m as [|[k0 v0] m IH]; cbn.
  - by rewrite bool_decide_eq_false_2.
  - destruct (bool_decide (k0 = k)) eqn:E; cbn.
    + apply bool_decide_eq_true_1 in E as ->.
      by rewrite !bool_decide_eq_false_2.
    + destruct (bool_decide (k0 = k')); [done|apply IH].
Qed.




Lemma find_remove_ne k k' m : k ≠ k' → Assoc.find k' (Assoc.remove k m) = Assoc.find k' m.
Proof.
  intros Hne. induction m as [|[k0 v0] m IH]; cbn; [done|].
  destruct (bool_decide (k0 = k)) eqn:E; cbn.
  - apply bool_decide_eq_true_1 in E as ->. by rewrite bool_decide_eq_false_2.
  - destruct (bool_decide (k0 = k')); [done|apply IH].
Qed.

Lemma remove_absent k m : Assoc.find k m = None → Assoc.remove k m = m.
Proof.
  induction m as [|[k0 v0] m IH]; cbn; [done|].
  destruct (bool_decide (k0 = k)); [done|]. intros H. by rewrite IH.
Qed.

Lemma contains_find k m : Assoc.contains k m = true ↔ is_Some (Assoc.find k m).
Proof.
  unfold Assoc.contains. destruct (Assoc.find k m); split; try done; eauto.
Qed.

End assoc_facts.

(** ** Key paths of two segments *)

Section key_paths.
Implicit Types (u : QVariantMap) (g k : string).

Lemma valueFor2 u g k :
  H.valueForSegments u [g; k]
  = match Assoc.find g u with Some (VMap sub) => Assoc.find k sub | _ => None end.
Proof. reflexivity. Qed.

Lemma setFor2 u g k v :
  H.setForSegments u [g; k] v = Assoc.insert g (VMap (Assoc.insert k v (subMap u g))) u.
Proof. reflexivity. Qed.

Lemma valueFor2_set_eq u g k v :
  H.valueForSegments (H.setForSegments u [g; k] v) [g; k] = Some v.
Proof. by rewrite setFor2, valueFor2, !find_insert_eq. Qed.

Lemma valueFor2_set_ne u g k k' v :
  k ≠ k' →
  H.valueForSegments (H.setForSegments u [g; k] v) [g; k'] = H.valueForSegments u [g; k'].
Proof.
  intros Hne. rewrite setFor2, !valueFor2, find_insert_eq, find_insert_ne by done.
  unfold subMap. by destruct (Assoc.find g u) as [[]|].
Qed.

Lemma valueFor2_set_other u g g' k k' v :
  g ≠ g' →
  H.valueForSegments (H.setForSegments u [g; k] v) [g'; k'] = H.valueForSegments u [g'; k'].
Proof. intros Hne. by rewrite setFor2, !valueFor2, find_insert_ne. Qed.



End key_paths.

Lemma listAt2_ensure_same u g k : listAt2 (ensureList2 u g k) g k = listAt2 u g k.
Proof.
  unfold listAt2, ensureList2.
  destruct (H.valueForSegments u [g; k]) as [v|] eqn:Hv.
  - destruct (Variant.canConvertList v) eqn:Hc.
    + by rewrite Hv.
    + rewrite valueFor2_set_eq. by destruct v.
  - by rewrite valueFor2_set_eq.
Qed.

Lemma listAt2_ensure_other u g k k' : k' ≠ k → listAt2 (ensureList2 u g k') g k = listAt2 u g k.
Proof.
  intros Hne. unfold listAt2, ensureList2.
  destruct (H.valueForSegments u [g; k']) as [v|] eqn:Hv.
  - destruct (Variant.canConvertList v); [done|]. by rewrite valueFor2_set_ne.
  - by rewrite valueFor2_set_ne.
Qed.

Lemma listAt2_ensure u g k k' : listAt2 (ensureList2 u g k') g k = listAt2 u g k.
Proof.
  destruct (decide (k' = k)) as [->|Hne];
    [apply listAt2_ensure_same|by apply listAt2_ensure_other].
Qed.

Lemma ensureList2_is_list u g k :
  ∃ l, H.valueForSegments (ensureList2 u g k) [g; k] = Some (VList l).
Proof.
  unfold ensureList2. destruct (H.valueForSegments u [g; k]) as [v|] eqn:Hv.
  - destruct (Variant.canConvertList v) eqn:Hc.
    + destruct v; try discriminate. eauto.
    + rewrite valueFor2_set_eq; eauto.
  - rewrite valueFor2_set_eq; eauto.
Qed.

Lemma ensureList2_keeps_list u g k k' l :
  H.valueForSegments u [g; k] = Some (VList l) →
  H.valueForSegments (ensureList2 u g k') [g; k] = Some (VList l).
Proof.
  intros Hl. destruct (decide (k' = k)) as [->|Hne].
  - unfold ensureList2. by rewrite Hl.
  - unfold ensureList2. destruct (H.valueForSegments u [g; k']) as [v|].
    + destruct (Variant.canConvertList v); [done|]. by rewrite valueFor2_set_ne.
    + by rewrite valueFor2_set_ne.
Qed.

Lemma listAt_ensureAll u kp :
  kp ∈ [AGENT_STANDARD_PERMISSIONS_KEYPATH; AGENT_PERMISSIONS_KEYPATH;
        GROUP_PERMISSIONS_KEYPATH; GROUP_FORBIDDENS_KEYPATH] →
  D.listAt (ensureAll u) kp = D.listAt u kp.
Proof.
  intros Hkp.
  assert (∃ k, D.listAt (ensureAll u) kp = listAt2 (ensureAll u) "security" k
               ∧ D.listAt u kp = listAt2 u "security" k) as (k & -> & ->).
  { repeat (apply elem_of_cons in Hkp as [->|Hkp]); [..|by apply elem_of_nil in Hkp];
      eexists; split; reflexivity. }
  unfold ensureAll.
  change (D.ensureList ?x AGENT_STANDARD_PERMISSIONS_KEYPATH)
    with (ensureList2 x "security" "standard_permissions").
  change (D.ensureList ?x AGENT_PERMISSIONS_KEYPATH)
    with (ensureList2 x "security" "permissions").
  change (D.ensureList ?x GROUP_PERMISSIONS_KEYPATH)
    with (ensureList2 x "security" "group_permissions").
  change (D.ensureList ?x GROUP_FORBIDDENS_KEYPATH)
    with (ensureList2 x "security" "group_forbiddens").
  by rewrite !listAt2_ensure.
Qed.

(** ** The unpack loops, seen through the capability words *)

Section store_or_merge.
Implicit Types (m : NPM.t) (vw : gmap NodePermissionsKey Z).

Lemma unionOf_cons p ps : unionOf (p :: ps) = Z.lor p (unionOf ps).
Proof. reflexivity. Qed.

Lemma permsView_lookup m k : permsView m !! k = NP.permissions <$> (m !! k).
Proof. unfold permsView. by rewrite lookup_fmap. Qed.

Lemma permsView_insert m k e : permsView (<[k := e]> m) = <[k := NP.permissions e]> (permsView m).
Proof. unfold permsView. by rewrite fmap_insert. Qed.

Lemma storeOrMerge_view m k e :
  permsView (D.storeOrMerge m k e).1 = viewStore (permsView m) k (NP.permissions e).
Proof.
  unfold D.storeOrMerge, NPM.contains, NPM.update, NPM.subscript, NPM.assign, viewStore.
  rewrite permsView_lookup.
  destruct (m !! NPM.dataKey k) as [e0|] eqn:He.
  - rewrite bool_decide_eq_true_2 by (by eexists). cbn. by rewrite permsView_insert.
  - rewrite bool_decide_eq_false_2 by (by intros [? ?]). cbn. by rewrite permsView_insert.
Qed.

Lemma storeOrMerge_flag m k e :
  (D.storeOrMerge m k e).2 = bool_decide (is_Some (permsView m !! NPM.dataKey k)).
Proof.
  unfold D.storeOrMerge, NPM.contains. rewrite permsView_lookup.
  by destruct (m !! NPM.dataKey k).
Qed.

Lemma storeOrMerge_lowerKeys m k e : lowerKeys m → lowerKeys (D.storeOrMerge m k e).1.
Proof.
  intros Hm k' Hk'.
  assert (is_Some (permsView (D.storeOrMerge m k e).1 !! k')) as Hv.
  { rewrite permsView_lookup. by apply fmap_is_Some. }
  rewrite storeOrMerge_view in Hv. unfold viewStore in Hv.
  destruct (decide (NPM.dataKey k = k')) as [<-|Hne].
  - apply dataKey_idemp.
  - rewrite lookup_insert_ne in Hv by done. apply Hm.
    rewrite permsView_lookup in Hv. by apply fmap_is_Some in Hv.
Qed.

Lemma viewStore_lookup_eq vw k p :
  viewStore vw k p !! NPM.dataKey k = Some (Z.lor (default 0 (vw !! NPM.dataKey k)) p).
Proof.
  unfold viewStore. rewrite lookup_insert_eq. by destruct (vw !! NPM.dataKey k).
Qed.

Lemma viewStore_lookup_ne vw k k' p :
  NPM.dataKey k ≠ k' → viewStore vw k p !! k' = vw !! k'.
Proof. intros Hne. unfold viewStore. by rewrite lookup_insert_ne. Qed.

Lemma viewStore_mono vw k p k' : is_Some (vw !! k') → is_Some (viewStore vw k p !! k').
Proof.
  intros Hk. destruct (decide (NPM.dataKey k = k')) as [<-|Hne].
  - rewrite viewStore_lookup_eq. eauto.
  - by rewrite viewStore_lookup_ne.
Qed.

End store_or_merge.

(** A loop that files each record of a list by store-or-merge and raises a
    flag on a duplicate: its effect on the capability words and the flag. *)
Section filing_loop.
Context {A : Type} (step : A * bool → QVariant → A * bool)
        (view : A → gmap NodePermissionsKey Z)
        (key : QVariant → NodePermissionsKey).
Hypothesis key_lower : ∀ v, NPM.dataKey (key v) = key v.
Hypothesis step_view : ∀ a b v,
  view (step (a, b) v).1 = viewStore (view a) (key v) (NP.permissions (entryOf v)).
Hypothesis step_flag : ∀ a b v,
  b = true ∨ is_Some (view a !! key v) → (step (a, b) v).2 = true.

Lemma filing_view l a b k :
  view (foldl step (a, b) l).1 !! k
  = match filter (fun v => key v = k) l with
    | [] => view a !! k
    | _ :: _ =>
        Some (Z.lor (default 0 (view a !! k))
                    (unionOf (NP.permissions ∘ entryOf <$> filter (fun v => key v = k) l)))
    end.
Proof.
  revert a b. induction l as [|v l IH]; intros a b; [done|].
  cbn [foldl]. destruct (step (a, b) v) as [a1 b1] eqn:Es.
  pose proof (step_view a b v) as Hv. rewrite Es in Hv. cbn [fst] in Hv.
  rewrite IH, Hv. rewrite filter_cons.
  destruct (decide (key v = k)) as [<-|Hne].
  - pose proof (viewStore_lookup_eq (view a) (key v) (NP.permissions (entryOf v))) as Hk.
    rewrite key_lower in Hk. rewrite Hk.
    destruct (filter _ l) as [|v' l'] eqn:Ef.
    + unfold unionOf. cbn [fmap list_fmap compose foldr]. rewrite Z.lor_0_r. reflexivity.
    + cbn [default fmap list_fmap compose]. rewrite !unionOf_cons.
      rewrite !Z.lor_assoc. reflexivity.
  - rewrite viewStore_lookup_ne by (by rewrite key_lower). done.
Qed.

Lemma filing_flag l a b k :
  b = true
  ∨ (2 ≤ length (filter (fun v => key v = k) l))%nat
  ∨ ((1 ≤ length (filter (fun v => key v = k) l))%nat ∧ is_Some (view a !! k)) →
  (foldl step (a, b) l).2 = true.
Proof.
  revert a b. induction l as [|v l IH]; intros a b Hc.
  - cbn in *. destruct Hc as [?|[?|[? _]]]; [done|lia..].
  - cbn [foldl]. destruct (step (a, b) v) as [a1 b1] eqn:Es.
    pose proof (step_view a b v) as Hv. rewrite Es in Hv. cbn [fst] in Hv.
    pose proof (step_flag a b v) as Hf. rewrite Es in Hf. cbn [snd] in Hf.
    apply IH. rewrite filter_cons in Hc.
    destruct Hc as [->|Hc]; [left; apply Hf; by left|].
    destruct (decide (key v = k)) as [<-|Hne].
    + destruct Hc as [Hc|[_ Hc]].
      * right. right. cbn in Hc. split; [lia|]. rewrite Hv.
        pose proof (viewStore_lookup_eq (view a) (key v) (NP.permissions (entryOf v))) as Hk.
        rewrite key_lower in Hk. rewrite Hk. eauto.
      * left. apply Hf. by right.
    + destruct Hc as [Hc|[Hc Hk]]; [right; by left|].
      right. right. split; [done|]. rewrite Hv. by apply viewStore_mono.
Qed.

Lemma filing_mono l a b k :
  is_Some (view a !! k) → is_Some (view (foldl step (a, b) l).1 !! k).
Proof.
  intros Hk. rewrite filing_view. destruct (filter (fun v => key v = k) l); [done|eauto].
Qed.

End filing_loop.

(** ** The four loops of [unpackPermissions] *)

Section unpack_loops.

Lemma keyOf_lower c v : NPM.dataKey (keyOf c v) = keyOf c v.
Proof.
  destruct c; unfold keyOf, entryOf;
    [apply dataKey_fromMap_id..|apply dataKey_fromMap_key|apply dataKey_fromMap_key].
Qed.

Lemma unpackStandard_view (a : NPM.t * D.Found) b v :
  permsView (D.unpackStandard (a, b) v).1.1
  = viewStore (permsView a.1) (keyOf Standard v) (NP.permissions (entryOf v)).
Proof.
  destruct a as [m f]. unfold D.unpackStandard. cbn [fst snd].
  rewrite <- storeOrMerge_view. by destruct (D.storeOrMerge _ _ _).
Qed.

Lemma unpackStandard_flag (a : NPM.t * D.Found) b v :
  b = true ∨ is_Some (permsView a.1 !! keyOf Standard v) →
  (D.unpackStandard (a, b) v).2 = true.
Proof.
  destruct a as [m f]. intros Hc. unfold D.unpackStandard.
  pose proof (storeOrMerge_flag m (keyOf Standard v) (entryOf v)) as Hf.
  rewrite keyOf_lower in Hf.
  change (NP.getID (NP.fromMap (Variant.toMap v)), 0) with (keyOf Standard v).
  change (NP.fromMap (Variant.toMap v)) with (entryOf v).
  destruct (D.storeOrMerge m (keyOf Standard v) (entryOf v)) as [m' dup].
  cbn [fst snd] in *. subst dup. destruct Hc as [->|Hc]; [done|].
  rewrite bool_decide_eq_true_2 by done. apply orb_true_r.
Qed.

Lemma unpackAgent_view (m : NPM.t) b v :
  permsView (D.unpackAgent (m, b) v).1
  = viewStore (permsView m) (keyOf Named v) (NP.permissions (entryOf v)).
Proof.
  unfold D.unpackAgent. rewrite <- storeOrMerge_view. by destruct (D.storeOrMerge _ _ _).
Qed.

Lemma unpackAgent_flag (m : NPM.t) b v :
  b = true ∨ is_Some (permsView m !! keyOf Named v) →
  (D.unpackAgent (m, b) v).2 = true.
Proof.
  intros Hc. unfold D.unpackAgent.
  pose proof (storeOrMerge_flag m (keyOf Named v) (entryOf v)) as Hf.
  rewrite keyOf_lower in Hf.
  change (NP.getID (NP.fromMap (Variant.toMap v)), 0) with (keyOf Named v).
  change (NP.fromMap (Variant.toMap v)) with (entryOf v).
  destruct (D.storeOrMerge m (keyOf Named v) (entryOf v)) as [m' dup].
  cbn [fst snd] in *. subst dup. destruct Hc as [->|Hc]; [done|].
  rewrite bool_decide_eq_true_2 by done. apply orb_true_r.
Qed.

Lemma bindGroupEntries_view (name : string) (g : QUuid) (m : NPM.t) :
  permsView (D.bindGroupEntries name g m).1 = permsView m.
Proof.
  unfold D.bindGroupEntries, permsView. cbn [fst].
  rewrite <- map_fmap_compose. apply map_fmap_ext. intros k e _. cbn.
  by destruct (_ && _).
Qed.

Lemma bindGroupEntries_dom (name : string) (g : QUuid) (m : NPM.t) k :
  is_Some ((D.bindGroupEntries name g m).1 !! k) ↔ is_Some (m !! k).
Proof. unfold D.bindGroupEntries. cbn [fst]. rewrite lookup_fmap. apply fmap_is_Some. Qed.

Lemma sameOutsideGroups_refl s : sameOutsideGroups s s.
Proof. by repeat split. Qed.

Lemma sameOutsideGroups_trans s1 s2 s3 :
  sameOutsideGroups s1 s2 → sameOutsideGroups s2 s3 → sameOutsideGroups s1 s3.
Proof.
  intros (?&?&?&?&?&?) (?&?&?&?&?&?). repeat split; congruence.
Qed.

Lemma setGroupID_spec (s : D.t) (name : string) (g : QUuid) :
  let s' := (D.setGroupID s name g).1 in
  sameOutsideGroups s s'
  ∧ permsView (D._groupPermissions s') = permsView (D._groupPermissions s)
  ∧ permsView (D._groupForbiddens s') = permsView (D._groupForbiddens s)
  ∧ D._groupPermissionsByUUID s' = D._groupPermissionsByUUID s
  ∧ D._groupForbiddensByUUID s' = D._groupForbiddensByUUID s.
Proof.
  unfold D.setGroupID.
  pose proof (bindGroupEntries_view name g (D._groupPermissions s)) as Hp.
  pose proof (bindGroupEntries_view name g (D._groupForbiddens s)) as Hf.
  cbn [D._groupPermissions D._groupForbiddens D.setGroupNames D.setGroupIDs].
  destruct (D.bindGroupEntries name g (D._groupPermissions s)) as [gp c1].
  destruct (D.bindGroupEntries name g (D._groupForbiddens s)) as [gf c2].
  cbn [fst] in *. cbn. repeat split; done.
Qed.

Lemma subscript_present (m : NPM.t) k e :
  m !! NPM.dataKey k = Some e → NPM.subscript m k = (m, e).
Proof. intros He. unfold NPM.subscript. by rewrite He. Qed.

Lemma storeOrMerge_present (m : NPM.t) k e :
  is_Some ((D.storeOrMerge m k e).1 !! NPM.dataKey k).
Proof.
  apply (fmap_is_Some NP.permissions). rewrite <- permsView_lookup, storeOrMerge_view.
  rewrite viewStore_lookup_eq. eauto.
Qed.

Lemma unpackGroup_spec (s : D.t) (b : bool) (v : QVariant) :
  let s' := (D.unpackGroup (s, b) v).1 in
  sameOutsideGroups s s'
  ∧ permsView (D._groupPermissions s')
    = viewStore (permsView (D._groupPermissions s)) (keyOf Grouped v)
        (NP.permissions (entryOf v))
  ∧ permsView (D._groupForbiddens s') = permsView (D._groupForbiddens s)
  ∧ D._groupForbiddensByUUID s' = D._groupForbiddensByUUID s
  ∧ (b = true ∨ is_Some (permsView (D._groupPermissions s) !! keyOf Grouped v) →
     (D.unpackGroup (s, b) v).2 = true).
Proof.
  unfold D.unpackGroup.
  change (NP.getKey (NP.fromMap (Variant.toMap v))) with (keyOf Grouped v).
  change (NP.fromMap (Variant.toMap v)) with (entryOf v).
  pose proof (storeOrMerge_view (D._groupPermissions s) (keyOf Grouped v) (entryOf v)) as Hv.
  pose proof (storeOrMerge_flag (D._groupPermissions s) (keyOf Grouped v) (entryOf v)) as Hf.
  pose proof (storeOrMerge_present (D._groupPermissions s) (keyOf Grouped v) (entryOf v))
    as [e0 He0].
  rewrite keyOf_lower in Hf.
  destruct (D.storeOrMerge (D._groupPermissions s) (keyOf Grouped v) (entryOf v))
    as [gp dup].
  cbn [fst snd] in *. subst dup.
  assert (Hflag : ∀ c, b = true ∨ is_Some (permsView (D._groupPermissions s) !! keyOf Grouped v) →
            b || bool_decide (is_Some (permsView (D._groupPermissions s) !! keyOf Grouped v)) || c
            = true).
  { intros c [->|Hc]; [done|]. rewrite bool_decide_eq_true_2 by done.
    by rewrite orb_true_r. }
  destruct (NP.isGroup (entryOf v)).
  - cbn [D._groupPermissions D.setGroupPermissions].
    rewrite (subscript_present _ _ _ He0).
    set (s1 := D.setGroupPermissionsByUUID _ _).
    destruct (setGroupID_spec s1 (NP.getID (entryOf v)) (NP.getGroupID (entryOf v)))
      as (Hs & Hp & Hfb & _ & Hj).
    destruct (D.setGroupID s1 _ _) as [s2 ch]. cbn [fst snd] in *.
    split; [|split; [|split; [|split]]].
    + eapply sameOutsideGroups_trans; [|exact Hs]. by repeat split.
    + rewrite Hp. exact Hv.
    + rewrite Hfb. done.
    + rewrite Hj. done.
    + apply Hflag.
  - cbn [fst snd]. split; [by repeat split|]. split; [exact Hv|]. split; [done|].
    split; [done|]. intros Hc. specialize (Hflag false Hc). by rewrite orb_false_r in Hflag.
Qed.

Lemma subscript_view (m : NPM.t) k :
  permsView m ⊆ permsView (NPM.subscript m k).1.
Proof.
  unfold NPM.subscript. destruct (m !! NPM.dataKey k) eqn:He; [done|]. cbn [fst].
  rewrite permsView_insert. apply insert_subseteq. by rewrite permsView_lookup, He.
Qed.

Lemma subscript_lowerKeys (m : NPM.t) k : lowerKeys m → lowerKeys (NPM.subscript m k).1.
Proof.
  intros Hm. unfold NPM.subscript. destruct (m !! NPM.dataKey k) eqn:He; [done|]. cbn [fst].
  intros k' Hk'. destruct (decide (NPM.dataKey k = k')) as [<-|Hne]; [apply dataKey_idemp|].
  rewrite lookup_insert_ne in Hk' by done. by apply Hm.
Qed.

Lemma unpackForbidden_spec (s : D.t) (b : bool) (v : QVariant) :
  let s' := (D.unpackForbidden (s, b) v).1 in
  sameOutsideGroups s s'
  ∧ permsView (D._groupForbiddens s')
    = viewStore (permsView (D._groupForbiddens s)) (keyOf Forbidden v)
        (NP.permissions (entryOf v))
  ∧ permsView (D._groupPermissions s) ⊆ permsView (D._groupPermissions s')
  ∧ (lowerKeys (D._groupPermissions s) → lowerKeys (D._groupPermissions s'))
  ∧ (b = true ∨ is_Some (permsView (D._groupForbiddens s) !! keyOf Forbidden v) →
     (D.unpackForbidden (s, b) v).2 = true).
Proof.
  unfold D.unpackForbidden.
  change (NP.getKey (NP.fromMap (Variant.toMap v))) with (keyOf Forbidden v).
  change (NP.fromMap (Variant.toMap v)) with (entryOf v).
  pose proof (storeOrMerge_view (D._groupForbiddens s) (keyOf Forbidden v) (entryOf v)) as Hv.
  pose proof (storeOrMerge_flag (D._groupForbiddens s) (keyOf Forbidden v) (entryOf v)) as Hf.
  rewrite keyOf_lower in Hf.
  destruct (D.storeOrMerge (D._groupForbiddens s) (keyOf Forbidden v) (entryOf v))
    as [gf dup].
  cbn [fst snd] in *. subst dup.
  assert (Hflag : ∀ c, b = true ∨ is_Some (permsView (D._groupForbiddens s) !! keyOf Forbidden v) →
            b || bool_decide (is_Some (permsView (D._groupForbiddens s) !! keyOf Forbidden v)) || c
            = true).
  { intros c [->|Hc]; [done|]. rewrite bool_decide_eq_true_2 by done.
    by rewrite orb_true_r. }
  destruct (NP.isGroup (entryOf v)).
  - cbn [D._groupPermissions D.setGroupForbiddens].
    pose proof (subscript_view (D._groupPermissions s) (keyOf Forbidden v)) as Hsub.
    pose proof (subscript_lowerKeys (D._groupPermissions s) (keyOf Forbidden v)) as Hlow.
    destruct (NPM.subscript (D._groupPermissions s) (keyOf Forbidden v)) as [gp' pointee].
    cbn [fst] in Hsub, Hlow.
    set (s1 := D.setGroupForbiddensByUUID _ _).
    destruct (setGroupID_spec s1 (NP.getID (entryOf v)) (NP.getGroupID (entryOf v)))
      as (Hs & Hp & Hfb & _ & _).
    pose proof (bindGroupEntries_dom (NP.getID (entryOf v)) (NP.getGroupID (entryOf v))
                  (D._groupPermissions s1)) as Hdom.
    assert (Hgp : D._groupPermissions (D.setGroupID s1 (NP.getID (entryOf v))
                                         (NP.getGroupID (entryOf v))).1
                  = (D.bindGroupEntries (NP.getID (entryOf v)) (NP.getGroupID (entryOf v))
                       (D._groupPermissions s1)).1).
    { unfold D.setGroupID. cbn [D._groupPermissions D._groupForbiddens D.setGroupNames D.setGroupIDs].
      destruct (D.bindGroupEntries _ _ (D._groupPermissions s1)).
      by destruct (D.bindGroupEntries _ _ (D._groupForbiddens s1)). }
    destruct (D.setGroupID s1 _ _) as [s2 ch]. cbn [fst snd] in *.
    split; [|split; [|split; [|split]]].
    + eapply sameOutsideGroups_trans; [|exact Hs]. by repeat split.
    + rewrite Hfb. exact Hv.
    + rewrite Hp. exact Hsub.
    + intros Hl k Hk. rewrite Hgp in Hk. apply Hdom in Hk. by apply (Hlow Hl).
    + apply Hflag.
  - cbn [fst snd]. split; [by repeat split|]. split; [exact Hv|]. split; [done|].
    split; [done|]. intros Hc. specialize (Hflag false Hc). by rewrite orb_false_r in Hflag.
Qed.

End unpack_loops.

Lemma lowerKeys_view (m : NPM.t) : lowerKeys m ↔ lowerView (permsView m).
Proof.
  unfold lowerKeys, lowerView. split; intros Hm k Hk; apply Hm.
  - rewrite permsView_lookup in Hk. by apply fmap_is_Some in Hk.
  - rewrite permsView_lookup. by apply fmap_is_Some.
Qed.

Lemma viewStore_lower vw k p : lowerView vw → lowerView (viewStore vw k p).
Proof.
  intros Hv k' Hk'. destruct (decide (NPM.dataKey k = k')) as [<-|Hne]; [apply dataKey_idemp|].
  rewrite viewStore_lookup_ne in Hk' by done. by apply Hv.
Qed.

Lemma lowerView_subseteq vw vw' : vw' ⊆ vw → lowerView vw → lowerView vw'.
Proof.
  intros Hsub Hv k [p Hk]. apply Hv. exists p. by eapply lookup_weaken.
Qed.

Section filing_loop_more.
Context {A : Type} (step : A * bool → QVariant → A * bool)
        (view : A → gmap NodePermissionsKey Z)
        (key : QVariant → NodePermissionsKey).
Hypothesis step_view : ∀ a b v,
  view (step (a, b) v).1 = viewStore (view a) (key v) (NP.permissions (entryOf v)).

Lemma filing_lower l a b : lowerView (view a) → lowerView (view (foldl step (a, b) l).1).
Proof.
  revert a b. induction l as [|v l IH]; intros a b Ha; [done|].
  cbn [foldl]. destruct (step (a, b) v) as [a1 b1] eqn:Es.
  apply IH. pose proof (step_view a b v) as Hv. rewrite Es in Hv. cbn [fst] in Hv.
  rewrite Hv. by apply viewStore_lower.
Qed.

(** A property of the state that every step keeps is kept by the loop. *)
Lemma filing_keeps (P : A → Prop) l a b :
  (∀ a b v, P a → P (step (a, b) v).1) → P a → P (foldl step (a, b) l).1.
Proof.
  intros Hstep. revert a b. induction l as [|v l IH]; intros a b Ha; [done|].
  cbn [foldl]. destruct (step (a, b) v) as [a1 b1] eqn:Es.
  apply IH. specialize (Hstep a b v Ha). by rewrite Es in Hstep.
Qed.

End filing_loop_more.

Section found_flags.

Lemma unpackStandard_found (l : QVariantList) (m : NPM.t) (f : D.Found) (b : bool) :
  let r := foldl D.unpackStandard (m, f, b) l in
  D.foundLocalhost r.1.2 = D.foundLocalhost f || storedAs NP.standardNameLocalhost l
  ∧ D.foundAnonymous r.1.2 = D.foundAnonymous f || storedAs NP.standardNameAnonymous l
  ∧ D.foundLoggedIn r.1.2 = D.foundLoggedIn f || storedAs NP.standardNameLoggedIn l
  ∧ D.foundFriends r.1.2 = D.foundFriends f || storedAs NP.standardNameFriends l.
Proof.
  revert m f b. induction l as [|v l IH]; intros m f b.
  - cbn. by rewrite !orb_false_r.
  - cbn [foldl].
    assert (∃ m' b', D.unpackStandard (m, f, b) v
              = (m', D.mkFound
                   (D.foundLocalhost f || D.keyEq (keyOf Standard v) NP.standardNameLocalhost)
                   (D.foundAnonymous f || D.keyEq (keyOf Standard v) NP.standardNameAnonymous)
                   (D.foundLoggedIn f || D.keyEq (keyOf Standard v) NP.standardNameLoggedIn)
                   (D.foundFriends f || D.keyEq (keyOf Standard v) NP.standardNameFriends), b'))
      as (m' & b' & ->).
    { unfold D.unpackStandard. destruct (D.storeOrMerge _ _ _). eauto. }
    destruct (IH m' (D.mkFound
                   (D.foundLocalhost f || D.keyEq (keyOf Standard v) NP.standardNameLocalhost)
                   (D.foundAnonymous f || D.keyEq (keyOf Standard v) NP.standardNameAnonymous)
                   (D.foundLoggedIn f || D.keyEq (keyOf Standard v) NP.standardNameLoggedIn)
                   (D.foundFriends f || D.keyEq (keyOf Standard v) NP.standardNameFriends)) b')
      as (H1 & H2 & H3 & H4).
    cbn zeta. rewrite H1, H2, H3, H4. unfold storedAs. cbn [existsb D.foundLocalhost
      D.foundAnonymous D.foundLoggedIn D.foundFriends]. by rewrite !orb_assoc.
Qed.

Lemma storedAs_under (name : NodePermissionsKey) (l : QVariantList) :
  storedAs name l = false ↔ filter (fun v => keyOf Standard v = name) l = [].
Proof.
  unfold storedAs. induction l as [|v l IH]; [done|].
  cbn [existsb]. rewrite filter_cons. unfold D.keyEq.
  destruct (decide (keyOf Standard v = name)) as [He|Hne].
  - rewrite bool_decide_eq_true_2 by done. done.
  - rewrite bool_decide_eq_false_2 by done. done.
Qed.

End found_flags.

(** ** Packing leaves well-keyed sets alone *)

Section packing.

Lemma packEntries_step_fst (s : D.t) (ks : list NodePermissionsKey)
    (acc : NPM.t * QVariantList) :
  (∀ k, k ∈ ks → is_Some (acc.1 !! NPM.dataKey k)) →
  (foldl (fun (acc : NPM.t * QVariantList) userKey =>
            let '(m, perms) := NPM.subscript acc.1 userKey in
            let record :=
              if NP.isGroup perms
              then NP.toVariant perms (D.groupRanksOf s (NP.getGroupID perms))
              else NP.toVariant perms [] in
            (m, (acc.2 ++ [record])%list)) acc ks).1 = acc.1.
Proof.
  revert acc. induction ks as [|k ks IH]; intros acc Hks; [done|].
  cbn [foldl]. destruct (Hks k) as [e He]; [by left|].
  rewrite (subscript_present _ _ _ He). rewrite IH; [done|].
  intros k' Hk'. cbn [fst]. apply Hks. by right.
Qed.

Lemma packEntries_fst (s : D.t) (m : NPM.t) : lowerKeys m → (D.packEntries s m).1 = m.
Proof.
  intros Hm. unfold D.packEntries. rewrite packEntries_step_fst; [done|].
  intros k Hk. cbn [fst]. unfold NPM.keys in Hk.
  apply list_elem_of_fmap in Hk as ([k' e] & -> & Hke). cbn [fst].
  apply elem_of_map_to_list in Hke. rewrite (Hm k') by eauto. eauto.
Qed.

Lemma packPermissionsForMap_eq (s : D.t) (m : NPM.t) (keyPath : string) :
  D.packPermissionsForMap s m keyPath
  = (D.setUserConfig s
       (H.setValueForKeyPath
          (D.ensureList (D.ensureSecurity (H.userConfig (D._configMap s))) keyPath)
          keyPath (VList (D.packEntries s m).2)),
     (D.packEntries s m).1).
Proof. unfold D.packPermissionsForMap. by destruct (D.packEntries s m). Qed.

Lemma packEntries_ext (s s' : D.t) (m : NPM.t) :
  D._groupRanks s' = D._groupRanks s → D.packEntries s' m = D.packEntries s m.
Proof. intros Hr. unfold D.packEntries, D.groupRanksOf. by rewrite Hr. Qed.

Lemma packPermissions_eq (s : D.t) :
  lowerKeys (D._standardAgentPermissions s) → lowerKeys (D._agentPermissions s) →
  lowerKeys (D._groupPermissions s) → lowerKeys (D._groupForbiddens s) →
  D.packPermissions s
  = D.reloadConfig (D.persistToFile (D.setUserConfig s (packedUser s))).
Proof.
  intros H1 H2 H3 H4. unfold D.packPermissions.
  rewrite packPermissionsForMap_eq, (packEntries_fst _ _ H1).
  set (s1 := D.setStandardAgentPermissions _ _).
  rewrite packPermissionsForMap_eq.
  change (D._agentPermissions s1) with (D._agentPermissions s).
  rewrite (packEntries_ext s s1) by done. rewrite (packEntries_fst _ _ H2).
  set (s2 := D.setAgentPermissions _ _).
  rewrite packPermissionsForMap_eq.
  change (D._groupPermissions s2) with (D._groupPermissions s).
  rewrite (packEntries_ext s s2) by done. rewrite (packEntries_fst _ _ H3).
  set (s3 := D.setGroupPermissions _ _).
  rewrite packPermissionsForMap_eq.
  change (D._groupForbiddens s3) with (D._groupForbiddens s).
  rewrite (packEntries_ext s s3) by done. rewrite (packEntries_fst _ _ H4).
  subst s1 s2 s3. unfold packedUser.
  destruct s as [da dv [ma us me] sm am gp gf ip jf gi gn gr]. reflexivity.
Qed.

Lemma packPermissions_sets (s : D.t) :
  lowerKeys (D._standardAgentPermissions s) → lowerKeys (D._agentPermissions s) →
  lowerKeys (D._groupPermissions s) → lowerKeys (D._groupForbiddens s) →
  permissionSets (D.packPermissions s) = permissionSets s.
Proof. intros H1 H2 H3 H4. by rewrite packPermissions_eq. Qed.

End packing.

(** ** What rank coverage and the group loops leave alone *)

Section coverage_frame.

Lemma ensureRank_lowerKeys (name : string) (gid : QUuid) (m : NPM.t)
    (idx : gmap GroupByUUIDKey NodePermissionsKey) (c : bool) (rank : Z) :
  lowerKeys m → lowerKeys (D.ensureRank name gid (m, idx, c) rank).1.1.
Proof.
  intros Hm. destruct (m !! NPM.dataKey (name, rank)) as [e|] eqn:He.
  - by rewrite (ensureRank_present _ _ _ _ _ _ _ He).
  - rewrite (ensureRank_absent _ _ _ _ _ _ He). cbn [fst]. intros k Hk.
    destruct (decide (NPM.dataKey (name, rank) = k)) as [<-|Hne]; [apply dataKey_idemp|].
    rewrite lookup_insert_ne in Hk by done. by apply Hm.
Qed.

Lemma ensureRanks_lowerKeys (name : string) (gid : QUuid) (ranks : list Z)
    (acc : NPM.t * gmap GroupByUUIDKey NodePermissionsKey * bool) :
  lowerKeys acc.1.1 → lowerKeys (foldl (D.ensureRank name gid) acc ranks).1.1.
Proof.
  revert acc. induction ranks as [|r ranks IH]; intros [[m idx] c] Hm; [done|].
  cbn [foldl]. apply IH. by apply ensureRank_lowerKeys.
Qed.

Lemma ensureGroups_lowerKeys (s : D.t) (gids : list QUuid)
    (acc : NPM.t * gmap GroupByUUIDKey NodePermissionsKey * bool) :
  lowerKeys acc.1.1 → lowerKeys (foldl (D.ensureGroup s) acc gids).1.1.
Proof.
  revert acc. induction gids as [|g gids IH]; intros acc Hm; [done|].
  cbn [foldl]. apply IH. unfold D.ensureGroup. by apply ensureRanks_lowerKeys.
Qed.

Lemma grows_view (P : QUuid → Prop) (m m' : NPM.t) :
  grows P m m' → permsView m ⊆ permsView m'.
Proof.
  intros [A _]. apply map_subseteq_spec. intros k p. rewrite !permsView_lookup.
  destruct (m !! k) as [e|] eqn:He; [|done]. by rewrite (A _ _ He).
Qed.

Lemma ensurePermissionsForGroupRanks_frame (s : D.t) :
  let r := D.ensurePermissionsForGroupRanks s in
  sameOutsideGroups s r.1
  ∧ permsView (D._groupPermissions s) ⊆ permsView (D._groupPermissions r.1)
  ∧ permsView (D._groupForbiddens s) ⊆ permsView (D._groupForbiddens r.1)
  ∧ (lowerKeys (D._groupPermissions s) → lowerKeys (D._groupPermissions r.1))
  ∧ (lowerKeys (D._groupForbiddens s) → lowerKeys (D._groupForbiddens r.1)).
Proof.
  pose proof (ensureGroups_spec s (D.getGroupIDs s) (D._groupPermissions s)
                (D._groupPermissionsByUUID s) false) as Hp.
  pose proof (ensureGroups_lowerKeys s (D.getGroupIDs s)
                (D._groupPermissions s, D._groupPermissionsByUUID s, false)) as Lp.
  cbn zeta in Hp.
  destruct (foldl (D.ensureGroup s) (D._groupPermissions s, D._groupPermissionsByUUID s, false)
              (D.getGroupIDs s)) as [[gp ip] c1] eqn:Ep.
  cbn [fst snd] in Hp, Lp. destruct Hp as (Hpg & _).
  pose proof (ensureGroups_spec s (D.getBlacklistGroupIDs s) (D._groupForbiddens s)
                (D._groupForbiddensByUUID s) c1) as Hf.
  pose proof (ensureGroups_lowerKeys s (D.getBlacklistGroupIDs s)
                (D._groupForbiddens s, D._groupForbiddensByUUID s, c1)) as Lf.
  cbn zeta in Hf.
  destruct (foldl (D.ensureGroup s) (D._groupForbiddens s, D._groupForbiddensByUUID s, c1)
              (D.getBlacklistGroupIDs s)) as [[gf jf] c2] eqn:Ef.
  cbn [fst snd] in Hf, Lf. destruct Hf as (Hfg & _).
  rewrite (ensurePermissionsForGroupRanks_eq s gp ip c1 gf jf c2 Ep Ef).
  cbn zeta. cbn [fst]. split; [by repeat split|].
  split; [by eapply grows_view|]. split; [by eapply grows_view|]. done.
Qed.

Lemma unpackGroups_frame (l : QVariantList) (s : D.t) (b : bool) :
  let r := foldl D.unpackGroup (s, b) l in
  sameOutsideGroups s r.1
  ∧ permsView (D._groupForbiddens r.1) = permsView (D._groupForbiddens s).
Proof.
  apply (filing_keeps D.unpackGroup
           (fun a => sameOutsideGroups s a
                     ∧ permsView (D._groupForbiddens a) = permsView (D._groupForbiddens s))).
  - intros a b' v [Ha Hf]. destruct (unpackGroup_spec a b' v) as (H1 & _ & H3 & _).
    split; [by eapply sameOutsideGroups_trans|]. by rewrite H3.
  - split; [apply sameOutsideGroups_refl|done].
Qed.

Lemma unpackForbiddens_frame (l : QVariantList) (s : D.t) (b : bool) :
  let r := foldl D.unpackForbidden (s, b) l in
  sameOutsideGroups s r.1
  ∧ permsView (D._groupPermissions s) ⊆ permsView (D._groupPermissions r.1)
  ∧ (lowerKeys (D._groupPermissions s) → lowerKeys (D._groupPermissions r.1)).
Proof.
  apply (filing_keeps D.unpackForbidden
           (fun a => sameOutsideGroups s a
                     ∧ permsView (D._groupPermissions s) ⊆ permsView (D._groupPermissions a)
                     ∧ (lowerKeys (D._groupPermissions s) → lowerKeys (D._groupPermissions a)))).
  - intros a b' v (Ha & Hs & Hl). destruct (unpackForbidden_spec a b' v) as (H1 & _ & H3 & H4 & _).
    split; [by eapply sameOutsideGroups_trans|]. split; [by etrans|]. eauto.
  - split; [apply sameOutsideGroups_refl|]. done.
Qed.

End coverage_frame.

(** ** [unpackPermissions], stage by stage *)

Section unpack_stages.

Lemma unpackPermissionsCore_eq (s : D.t) sm found b1 am b2 sg b3 sf b4 :
  let s0 := clearedForUnpack s in
  let u := ensureAll (H.userConfig (D._configMap s)) in
  foldl D.unpackStandard (∅, noneFound, false)
        (D.listAt u AGENT_STANDARD_PERMISSIONS_KEYPATH) = (sm, found, b1) →
  foldl D.unpackAgent (∅, b1) (D.listAt u AGENT_PERMISSIONS_KEYPATH) = (am, b2) →
  foldl D.unpackGroup (D.setAgentPermissions (D.setStandardAgentPermissions s0 sm) am, b2)
        (D.listAt u GROUP_PERMISSIONS_KEYPATH) = (sg, b3) →
  foldl D.unpackForbidden (sg, b3) (D.listAt u GROUP_FORBIDDENS_KEYPATH) = (sf, b4) →
  D.unpackPermissionsCore s
  = let '(sm', b5) := addMissingAll found (D._standardAgentPermissions sf, b4) in
    let '(se, changed) :=
      D.ensurePermissionsForGroupRanks (D.setStandardAgentPermissions sf sm') in
    (se, b5 || changed).
Proof.
  intros s0 u H1 H2 H3 H4. unfold D.unpackPermissionsCore.
  subst s0 u. unfold clearedForUnpack, ensureAll, noneFound in *.
  cbn [D._standardAgentPermissions D._agentPermissions D.setUserConfig D.setConfigMap
       D.setStandardAgentPermissions D.setAgentPermissions D.setGroupPermissions
       D.setGroupForbiddens D._configMap H.userConfig H.withUser] in *.
  rewrite H1. cbn [D._agentPermissions D.setStandardAgentPermissions]. rewrite H2.
  rewrite H3, H4. reflexivity.
Qed.

End unpack_stages.

Section missing_roles.

Lemma addMissingAll_eq (found : D.Found) (m : NPM.t) (b : bool) :
  addMissingAll found (m, b)
  = let step (f : bool) (key : NodePermissionsKey) (all : bool) (acc : NPM.t * bool) :=
      if f then acc else (<[key := synthesized key all]> acc.1, true) in
    step (D.foundFriends found) NP.standardNameFriends false
      (step (D.foundLoggedIn found) NP.standardNameLoggedIn false
        (step (D.foundAnonymous found) NP.standardNameAnonymous false
          (step (D.foundLocalhost found) NP.standardNameLocalhost true (m, b)))).
Proof.
  unfold addMissingAll, D.addMissingStandard.
  destruct found as [[] [] [] []]; reflexivity.
Qed.

Lemma addMissingAll_other (found : D.Found) (m : NPM.t) (b : bool) (k : NodePermissionsKey) :
  k ∉ standardKeys → (addMissingAll found (m, b)).1 !! k = m !! k.
Proof.
  intros Hk. rewrite addMissingAll_eq.
  assert (k ≠ NP.standardNameLocalhost ∧ k ≠ NP.standardNameAnonymous
          ∧ k ≠ NP.standardNameLoggedIn ∧ k ≠ NP.standardNameFriends) as (H1 & H2 & H3 & H4).
  { unfold standardKeys in Hk. repeat split; intros ->; apply Hk; set_solver. }
  destruct found as [[] [] [] []]; cbn [fst snd D.foundFriends D.foundLoggedIn
    D.foundAnonymous D.foundLocalhost]; rewrite ?lookup_insert_ne by done; done.
Qed.

Lemma addMissingAll_found (found : D.Found) (m : NPM.t) (b : bool) :
  let r := (addMissingAll found (m, b)).1 in
  r !! NP.standardNameLocalhost
    = (if D.foundLocalhost found then m !! NP.standardNameLocalhost
       else Some (synthesized NP.standardNameLocalhost true))
  ∧ r !! NP.standardNameAnonymous
    = (if D.foundAnonymous found then m !! NP.standardNameAnonymous
       else Some (synthesized NP.standardNameAnonymous false))
  ∧ r !! NP.standardNameLoggedIn
    = (if D.foundLoggedIn found then m !! NP.standardNameLoggedIn
       else Some (synthesized NP.standardNameLoggedIn false))
  ∧ r !! NP.standardNameFriends
    = (if D.foundFriends found then m !! NP.standardNameFriends
       else Some (synthesized NP.standardNameFriends false)).
Proof.
  rewrite addMissingAll_eq.
  destruct found as [[] [] [] []]; cbn [fst snd D.foundFriends D.foundLoggedIn
    D.foundAnonymous D.foundLocalhost]; repeat split;
    rewrite ?lookup_insert_eq; rewrite ?lookup_insert_ne by done;
    rewrite ?lookup_insert_eq; rewrite ?lookup_insert_ne by done;
    rewrite ?lookup_insert_eq; rewrite ?lookup_insert_ne by done;
    rewrite ?lookup_insert_eq; done.
Qed.

Lemma addMissingAll_flag (found : D.Found) (m : NPM.t) :
  (addMissingAll found (m, true)).2 = true.
Proof. rewrite addMissingAll_eq. by destruct found as [[] [] [] []]. Qed.

Lemma addMissingAll_lowerKeys (found : D.Found) (m : NPM.t) (b : bool) :
  lowerKeys m → lowerKeys (addMissingAll found (m, b)).1.
Proof.
  intros Hm k Hk. destruct (decide (k ∈ standardKeys)) as [Hin|Hout].
  - unfold standardKeys in Hin.
    repeat (apply elem_of_cons in Hin as [->|Hin]); [done..|by apply elem_of_nil in Hin].
  - rewrite addMissingAll_other in Hk by done. by apply Hm.
Qed.

End missing_roles.

Section loops_instantiated.

Lemma standardLoop_view (l : QVariantList) (m : NPM.t) (f : D.Found) (b : bool)
    (k : NodePermissionsKey) :
  permsView (foldl D.unpackStandard (m, f, b) l).1.1 !! k
  = match filter (fun v => keyOf Standard v = k) l with
    | [] => permsView m !! k
    | _ :: _ => Some (Z.lor (default 0 (permsView m !! k)) (unionUnder Standard k l))
    end.
Proof.
  apply (filing_view D.unpackStandard (fun a : NPM.t * D.Found => permsView a.1)
           (keyOf Standard) (keyOf_lower Standard)
           (fun a b v => unpackStandard_view a b v) l (m, f) b k).
Qed.

Lemma standardLoop_flag (l : QVariantList) (m : NPM.t) (f : D.Found) (b : bool)
    (k : NodePermissionsKey) :
  b = true ∨ (2 ≤ length (filter (fun v => keyOf Standard v = k) l))%nat →
  (foldl D.unpackStandard (m, f, b) l).2 = true.
Proof.
  intros Hc.
  apply (filing_flag D.unpackStandard (fun a : NPM.t * D.Found => permsView a.1)
           (keyOf Standard) (keyOf_lower Standard)
           (fun a b v => unpackStandard_view a b v)
           (fun a b v => unpackStandard_flag a b v) l (m, f) b k).
  destruct Hc as [?|?]; [by left|right; by left].
Qed.

Lemma standardLoop_lower (l : QVariantList) (m : NPM.t) (f : D.Found) (b : bool) :
  lowerKeys m → lowerKeys (foldl D.unpackStandard (m, f, b) l).1.1.
Proof.
  rewrite !lowerKeys_view.
  apply (filing_lower D.unpackStandard (fun a : NPM.t * D.Found => permsView a.1)
           (keyOf Standard) (fun a b v => unpackStandard_view a b v) l (m, f) b).
Qed.

Lemma namedLoop_view (l : QVariantList) (m : NPM.t) (b : bool) (k : NodePermissionsKey) :
  permsView (foldl D.unpackAgent (m, b) l).1 !! k
  = match filter (fun v => keyOf Named v = k) l with
    | [] => permsView m !! k
    | _ :: _ => Some (Z.lor (default 0 (permsView m !! k)) (unionUnder Named k l))
    end.
Proof.
  apply (filing_view D.unpackAgent permsView (keyOf Named) (keyOf_lower Named)
           unpackAgent_view l m b k).
Qed.

Lemma namedLoop_flag (l : QVariantList) (m : NPM.t) (b : bool) (k : NodePermissionsKey) :
  b = true ∨ (2 ≤ length (filter (fun v => keyOf Named v = k) l))%nat →
  (foldl D.unpackAgent (m, b) l).2 = true.
Proof.
  intros Hc.
  apply (filing_flag D.unpackAgent permsView (keyOf Named) (keyOf_lower Named)
           unpackAgent_view unpackAgent_flag l m b k).
  destruct Hc as [?|?]; [by left|right; by left].
Qed.

Lemma namedLoop_lower (l : QVariantList) (m : NPM.t) (b : bool) :
  lowerKeys m → lowerKeys (foldl D.unpackAgent (m, b) l).1.
Proof.
  rewrite !lowerKeys_view.
  apply (filing_lower D.unpackAgent permsView (keyOf Named) unpackAgent_view l m b).
Qed.

Lemma unpackGroup_view (s : D.t) (b : bool) (v : QVariant) :
  groupView (D.unpackGroup (s, b) v).1
  = viewStore (groupView s) (keyOf Grouped v) (NP.permissions (entryOf v)).
Proof. by destruct (unpackGroup_spec s b v) as (_ & Hv & _). Qed.

Lemma unpackGroup_flag (s : D.t) (b : bool) (v : QVariant) :
  b = true ∨ is_Some (groupView s !! keyOf Grouped v) → (D.unpackGroup (s, b) v).2 = true.
Proof. by destruct (unpackGroup_spec s b v) as (_ & _ & _ & _ & Hf). Qed.

Lemma unpackForbidden_view (s : D.t) (b : bool) (v : QVariant) :
  forbiddenView (D.unpackForbidden (s, b) v).1
  = viewStore (forbiddenView s) (keyOf Forbidden v) (NP.permissions (entryOf v)).
Proof. by destruct (unpackForbidden_spec s b v) as (_ & Hv & _). Qed.

Lemma unpackForbidden_flag (s : D.t) (b : bool) (v : QVariant) :
  b = true ∨ is_Some (forbiddenView s !! keyOf Forbidden v) →
  (D.unpackForbidden (s, b) v).2 = true.
Proof. by destruct (unpackForbidden_spec s b v) as (_ & _ & _ & _ & Hf). Qed.

Lemma groupLoop_view (l : QVariantList) (s : D.t) (b : bool) (k : NodePermissionsKey) :
  groupView (foldl D.unpackGroup (s, b) l).1 !! k
  = match filter (fun v => keyOf Grouped v = k) l with
    | [] => groupView s !! k
    | _ :: _ => Some (Z.lor (default 0 (groupView s !! k)) (unionUnder Grouped k l))
    end.
Proof.
  apply (filing_view D.unpackGroup groupView (keyOf Grouped) (keyOf_lower Grouped)
           unpackGroup_view l s b k).
Qed.

Lemma groupLoop_flag (l : QVariantList) (s : D.t) (b : bool) (k : NodePermissionsKey) :
  b = true ∨ (2 ≤ length (filter (fun v => keyOf Grouped v = k) l))%nat →
  (foldl D.unpackGroup (s, b) l).2 = true.
Proof.
  intros Hc.
  apply (filing_flag D.unpackGroup groupView (keyOf Grouped) (keyOf_lower Grouped)
           unpackGroup_view unpackGroup_flag l s b k).
  destruct Hc as [?|?]; [by left|right; by left].
Qed.

Lemma groupLoop_lower (l : QVariantList) (s : D.t) (b : bool) :
  lowerKeys (D._groupPermissions s) →
  lowerKeys (D._groupPermissions (foldl D.unpackGroup (s, b) l).1).
Proof.
  rewrite !lowerKeys_view.
  apply (filing_lower D.unpackGroup groupView (keyOf Grouped) unpackGroup_view l s b).
Qed.

Lemma forbiddenLoop_view (l : QVariantList) (s : D.t) (b : bool) (k : NodePermissionsKey) :
  forbiddenView (foldl D.unpackForbidden (s, b) l).1 !! k
  = match filter (fun v => keyOf Forbidden v = k) l with
    | [] => forbiddenView s !! k
    | _ :: _ => Some (Z.lor (default 0 (forbiddenView s !! k)) (unionUnder Forbidden k l))
    end.
Proof.
  apply (filing_view D.unpackForbidden forbiddenView (keyOf Forbidden) (keyOf_lower Forbidden)
           unpackForbidden_view l s b k).
Qed.

Lemma forbiddenLoop_flag (l : QVariantList) (s : D.t) (b : bool) (k : NodePermissionsKey) :
  b = true ∨ (2 ≤ length (filter (fun v => keyOf Forbidden v = k) l))%nat →
  (foldl D.unpackForbidden (s, b) l).2 = true.
Proof.
  intros Hc.
  apply (filing_flag D.unpackForbidden forbiddenView (keyOf Forbidden) (keyOf_lower Forbidden)
           unpackForbidden_view unpackForbidden_flag l s b k).
  destruct Hc as [?|?]; [by left|right; by left].
Qed.

Lemma forbiddenLoop_lower (l : QVariantList) (s : D.t) (b : bool) :
  lowerKeys (D._groupForbiddens s) →
  lowerKeys (D._groupForbiddens (foldl D.unpackForbidden (s, b) l).1).
Proof.
  rewrite !lowerKeys_view.
  apply (filing_lower D.unpackForbidden forbiddenView (keyOf Forbidden)
           unpackForbidden_view l s b).
Qed.

End loops_instantiated.

Section unpack_facts.

Lemma permsView_empty : permsView ∅ = ∅.
Proof. unfold permsView. apply fmap_empty. Qed.

Lemma lowerKeys_empty : lowerKeys ∅.
Proof. intros k [e He]. by rewrite lookup_empty in He. Qed.

Lemma storedList_ensured (s : D.t) (c : Category) :
  D.listAt (ensureAll (H.userConfig (D._configMap s))) (keyPathOf c)
  = storedList s (keyPathOf c).
Proof. apply listAt_ensureAll. destruct c; set_solver. Qed.

Lemma unionUnder_zero (c : Category) (k : NodePermissionsKey) (l : QVariantList) :
  Z.lor 0 (unionUnder c k l) = unionUnder c k l.
Proof. apply Z.lor_0_l. Qed.

(** What [unpackPermissions] has built when [needPack] is known. *)
Lemma unpackPermissionsCore_facts (s : D.t) :
  let r := D.unpackPermissionsCore s in
  (∀ c, lowerKeys (setOf c r.1))
  ∧ (∀ c k, storedUnder c s k ≠ [] →
       permsView (setOf c r.1) !! k
       = Some (unionOf (NP.permissions ∘ entryOf <$> storedUnder c s k)))
  ∧ (∀ c k, (2 ≤ length (storedUnder c s k))%nat → r.2 = true)
  ∧ (∀ k, k ∈ standardKeys → is_Some (D._standardAgentPermissions r.1 !! k))
  ∧ (storedUnder Standard s NP.standardNameLocalhost = [] →
       D._standardAgentPermissions r.1 !! NP.standardNameLocalhost
       = Some (synthesized NP.standardNameLocalhost true))
  ∧ (∀ k, storedUnder Named s k = [] → D._agentPermissions r.1 !! k = None)
  ∧ D._groupRanks r.1 = D._groupRanks s
  ∧ D._configMap r.1
    = H.withUser (D._configMap s) (ensureAll (H.userConfig (D._configMap s))).
Proof.
  intros r. subst r.
  set (u := ensureAll (H.userConfig (D._configMap s))).
  set (s0 := clearedForUnpack s).
  destruct (foldl D.unpackStandard (∅, noneFound, false)
              (D.listAt u AGENT_STANDARD_PERMISSIONS_KEYPATH)) as [[sm found] b1] eqn:E1.
  destruct (foldl D.unpackAgent (∅, b1) (D.listAt u AGENT_PERMISSIONS_KEYPATH))
    as [am b2] eqn:E2.
  destruct (foldl D.unpackGroup
              (D.setAgentPermissions (D.setStandardAgentPermissions s0 sm) am, b2)
              (D.listAt u GROUP_PERMISSIONS_KEYPATH)) as [sg b3] eqn:E3.
  destruct (foldl D.unpackForbidden (sg, b3) (D.listAt u GROUP_FORBIDDENS_KEYPATH))
    as [sf b4] eqn:E4.
  rewrite (unpackPermissionsCore_eq s sm found b1 am b2 sg b3 sf b4 E1 E2 E3 E4).
  (* the lists read are the stored ones *)
  pose proof (storedList_ensured s Standard) as L1.
  pose proof (storedList_ensured s Named) as L2.
  pose proof (storedList_ensured s Grouped) as L3.
  pose proof (storedList_ensured s Forbidden) as L4.
  cbn [keyPathOf] in L1, L2, L3, L4. fold u in L1, L2, L3, L4.
  rewrite L1 in E1. rewrite L2 in E2. rewrite L3 in E3. rewrite L4 in E4.
  (* the standard loop *)
  pose proof (standardLoop_view (storedList s AGENT_STANDARD_PERMISSIONS_KEYPATH)
                ∅ noneFound false) as V1.
  pose proof (standardLoop_flag (storedList s AGENT_STANDARD_PERMISSIONS_KEYPATH)
                ∅ noneFound false) as F1.
  pose proof (standardLoop_lower (storedList s AGENT_STANDARD_PERMISSIONS_KEYPATH)
                ∅ noneFound false lowerKeys_empty) as K1.
  pose proof (unpackStandard_found (storedList s AGENT_STANDARD_PERMISSIONS_KEYPATH)
                ∅ noneFound false) as N1.
  rewrite E1 in V1, F1, K1, N1. cbn [fst snd] in V1, F1, K1, N1. cbn zeta in N1.
  cbn [fst snd noneFound D.foundLocalhost D.foundAnonymous D.foundLoggedIn D.foundFriends
       orb] in N1.
  (* the named loop *)
  pose proof (namedLoop_view (storedList s AGENT_PERMISSIONS_KEYPATH) ∅ b1) as V2.
  pose proof (namedLoop_flag (storedList s AGENT_PERMISSIONS_KEYPATH) ∅ b1) as F2.
  pose proof (namedLoop_lower (storedList s AGENT_PERMISSIONS_KEYPATH) ∅ b1 lowerKeys_empty)
    as K2.
  rewrite E2 in V2, F2, K2. cbn [fst snd] in V2, F2, K2.
  (* the group loop *)
  set (sa := D.setAgentPermissions (D.setStandardAgentPermissions s0 sm) am) in *.
  pose proof (groupLoop_view (storedList s GROUP_PERMISSIONS_KEYPATH) sa b2) as V3.
  pose proof (groupLoop_flag (storedList s GROUP_PERMISSIONS_KEYPATH) sa b2) as F3.
  pose proof (groupLoop_lower (storedList s GROUP_PERMISSIONS_KEYPATH) sa b2 lowerKeys_empty)
    as K3.
  pose proof (unpackGroups_frame (storedList s GROUP_PERMISSIONS_KEYPATH) sa b2) as R3.
  rewrite E3 in V3, F3, K3, R3. cbn [fst snd] in V3, F3, K3, R3. cbn zeta in R3.
  cbn [fst] in R3. destruct R3 as (R3 & R3f).
  (* the forbiddens loop *)
  pose proof (forbiddenLoop_view (storedList s GROUP_FORBIDDENS_KEYPATH) sg b3) as V4.
  pose proof (forbiddenLoop_flag (storedList s GROUP_FORBIDDENS_KEYPATH) sg b3) as F4.
  pose proof (forbiddenLoop_lower (storedList s GROUP_FORBIDDENS_KEYPATH) sg b3) as K4.
  pose proof (unpackForbiddens_frame (storedList s GROUP_FORBIDDENS_KEYPATH) sg b3) as R4.
  rewrite E4 in V4, F4, K4, R4. cbn [fst snd] in V4, F4, K4, R4. cbn zeta in R4.
  cbn [fst] in R4. destruct R4 as (R4 & R4s & R4k).
  assert (K4' : lowerKeys (D._groupForbiddens sf)).
  { apply K4. apply lowerKeys_view. rewrite R3f. apply lowerKeys_view, lowerKeys_empty. }
  assert (Z4 : ∀ k, forbiddenView sg !! k = None).
  { intros k. unfold forbiddenView. rewrite R3f.
    change (D._groupForbiddens sa) with (∅ : NPM.t).
    rewrite permsView_empty. apply lookup_empty. }
  destruct R3 as (R3a & R3b & R3c & R3d & R3e & R3f').
  destruct R4 as (R4a & R4b & R4c & R4d & R4e & R4f').
  cbn [sa s0 clearedForUnpack D._standardAgentPermissions D._agentPermissions
       D.setAgentPermissions D.setStandardAgentPermissions D.setUserConfig D.setConfigMap
       D.setGroupForbiddens D.setGroupPermissions D._configMap D._groupRanks
       D._descriptionArray D._descriptionVersion] in R3a, R3b, R3c, R3d, R3e, R3f'.
  (* the missing roles *)
  rewrite R4d, R3d.
  pose proof (addMissingAll_other found sm b4) as A1.
  pose proof (addMissingAll_found found sm b4) as A2.
  pose proof (addMissingAll_lowerKeys found sm b4 K1) as A3.
  pose proof (addMissingAll_flag found sm) as A4.
  cbn zeta in A2.
  destruct (addMissingAll found (sm, b4)) as [sm' b5] eqn:E5. cbn [fst snd] in A1, A2, A3.
  (* rank coverage *)
  set (sb := D.setStandardAgentPermissions sf sm').
  pose proof (ensurePermissionsForGroupRanks_frame sb) as R6. cbn zeta in R6.
  destruct (D.ensurePermissionsForGroupRanks sb) as [se changed] eqn:E6.
  cbn [fst snd] in R6. destruct R6 as (R6 & R6p & R6f & R6kp & R6kf).
  destruct R6 as (R6a & R6b & R6c & R6d & R6e & R6f').
  cbn [sb D._standardAgentPermissions D._agentPermissions D.setStandardAgentPermissions
       D._configMap D._groupRanks D._groupPermissions D._groupForbiddens] in *.
  cbn [fst snd].
  (* flags travel to the end *)
  assert (Hb12 : b1 = true → b2 = true).
  { intros ->. apply (F2 NP.standardNameLocalhost). by left. }
  assert (Hb23 : b2 = true → b3 = true).
  { intros ->. apply (F3 NP.standardNameLocalhost). by left. }
  assert (Hb34 : b3 = true → b4 = true).
  { intros ->. apply (F4 NP.standardNameLocalhost). by left. }
  assert (Hb45 : b4 = true → b5 = true).
  { intros ->. rewrite E5 in A4. exact A4. }
  (* found flags read the stored list *)
  destruct N1 as (N1a & N1b & N1c & N1d).
  split; [|split; [|split; [|split; [|split; [|split; [|split]]]]]].
  - intros [| | |]; cbn [setOf].
    + by rewrite R6d.
    + rewrite R6e, R4e, R3e. exact K2.
    + apply R6kp, R4k, K3.
    + apply R6kf, K4'.
  - intros c k Hne. unfold storedUnder in *.
    destruct c; cbn [setOf keyPathOf] in *.
    + rewrite R6d. rewrite permsView_lookup.
      assert (Hsm : permsView sm !! k
                    = Some (unionOf (NP.permissions ∘ entryOf <$>
                              filter (fun v => keyOf Standard v = k)
                                (storedList s AGENT_STANDARD_PERMISSIONS_KEYPATH)))).
      { rewrite V1. unfold unionUnder. destruct (filter _ _); [done|].
        rewrite permsView_empty, lookup_empty. cbn [default]. by rewrite Z.lor_0_l. }
      rewrite <- permsView_lookup.
      assert (Hk : sm' !! k = sm !! k).
      { destruct (decide (k ∈ standardKeys)) as [Hin|Hout]; [|by apply A1].
        destruct A2 as (A2a & A2b & A2c & A2d). unfold standardKeys in Hin.
        repeat (apply elem_of_cons in Hin as [->|Hin]); [..|by apply elem_of_nil in Hin].
        - rewrite A2a, N1a.
          destruct (storedAs NP.standardNameLocalhost _) eqn:Hs. { done. } by apply storedAs_under in Hs.
        - rewrite A2b, N1b.
          destruct (storedAs NP.standardNameAnonymous _) eqn:Hs. { done. } by apply storedAs_under in Hs.
        - rewrite A2c, N1c.
          destruct (storedAs NP.standardNameLoggedIn _) eqn:Hs. { done. } by apply storedAs_under in Hs.
        - rewrite A2d, N1d.
          destruct (storedAs NP.standardNameFriends _) eqn:Hs. { done. } by apply storedAs_under in Hs. }
      rewrite !permsView_lookup in *. rewrite Hk. exact Hsm.
    + rewrite R6e, R4e, R3e. rewrite V2. unfold unionUnder. destruct (filter _ _); [done|].
      rewrite permsView_empty, lookup_empty. cbn [default]. by rewrite Z.lor_0_l.
    + eapply lookup_weaken; [|exact R6p]. eapply lookup_weaken; [|exact R4s].
      fold (groupView sg). rewrite V3. unfold unionUnder. destruct (filter _ _); [done|].
      unfold groupView. change (D._groupPermissions sa) with (∅ : NPM.t).
      rewrite permsView_empty, lookup_empty. cbn [default].
      by rewrite Z.lor_0_l.
    + eapply lookup_weaken; [|exact R6f].
      fold (forbiddenView sf). rewrite V4. unfold unionUnder. destruct (filter _ _); [done|].
      rewrite Z4. cbn [default]. by rewrite Z.lor_0_l.
  - intros c k Hlen. unfold storedUnder in Hlen.
    assert (b5 = true) as ->; [|done].
    destruct c; cbn [keyPathOf] in Hlen.
    + apply Hb45, Hb34, Hb23, Hb12, (F1 k). by right.
    + apply Hb45, Hb34, Hb23, (F2 k). by right.
    + apply Hb45, Hb34, (F3 k). by right.
    + apply Hb45, (F4 k). by right.
  - intros k Hin. rewrite R6d. destruct A2 as (A2a & A2b & A2c & A2d).
    assert (Hfound : ∀ name, storedAs name (storedList s AGENT_STANDARD_PERMISSIONS_KEYPATH)
                              = true → is_Some (sm !! name)).
    { intros name Hs. apply (fmap_is_Some NP.permissions). rewrite <- permsView_lookup, V1.
      destruct (filter _ _) eqn:Ef; [|by eauto].
      apply storedAs_under in Ef. congruence. }
    unfold standardKeys in Hin.
    repeat (apply elem_of_cons in Hin as [->|Hin]); [..|by apply elem_of_nil in Hin].
    + rewrite A2a, N1a. destruct (storedAs NP.standardNameLocalhost _) eqn:Hs. { by apply Hfound. } by eauto.
    + rewrite A2b, N1b. destruct (storedAs NP.standardNameAnonymous _) eqn:Hs. { by apply Hfound. } by eauto.
    + rewrite A2c, N1c. destruct (storedAs NP.standardNameLoggedIn _) eqn:Hs. { by apply Hfound. } by eauto.
    + rewrite A2d, N1d. destruct (storedAs NP.standardNameFriends _) eqn:Hs. { by apply Hfound. } by eauto.
  - intros Hnone. rewrite R6d. destruct A2 as (A2a & _). rewrite A2a, N1a.
    unfold storedUnder in Hnone. cbn [keyPathOf] in Hnone.
    apply storedAs_under in Hnone. by rewrite Hnone.
  - intros k Hnone. rewrite R6e, R4e, R3e.
    unfold storedUnder in Hnone. cbn [keyPathOf] in Hnone.
    specialize (V2 k). rewrite Hnone, permsView_empty, lookup_empty in V2.
    rewrite permsView_lookup in V2. by destruct (am !! k).
  - rewrite R6f', R4f', R3f'. done.
  - rewrite R6c, R4c, R3c. done.
Qed.

End unpack_facts.

(** ** The sets after [unpackPermissions] *)

Lemma unpackPermissions_unfold (s : D.t) :
  D.unpackPermissions s
  = if (D.unpackPermissionsCore s).2
    then D.packPermissions (D.unpackPermissionsCore s).1
    else (D.unpackPermissionsCore s).1.
Proof. unfold D.unpackPermissions. by destruct (D.unpackPermissionsCore s). Qed.

Lemma unpackPermissions_sets (s : D.t) :
  permissionSets (D.unpackPermissions s) = permissionSets (D.unpackPermissionsCore s).1.
Proof.
  rewrite unpackPermissions_unfold.
  destruct (unpackPermissionsCore_facts s) as (Hlow & _).
  destruct (D.unpackPermissionsCore s).2; [|done].
  apply packPermissions_sets;
    [apply (Hlow Standard)|apply (Hlow Named)|apply (Hlow Grouped)|apply (Hlow Forbidden)].
Qed.

Lemma unpackPermissions_setOf (s : D.t) (c : Category) :
  setOf c (D.unpackPermissions s) = setOf c (D.unpackPermissionsCore s).1.
Proof.
  pose proof (unpackPermissions_sets s) as Hs. unfold permissionSets in Hs.
  destruct c; cbn [setOf]; congruence.
Qed.

Lemma filter_none {A : Type} (P : A → Prop) `{∀ x, Decision (P x)} (l : list A) :
  (∀ x, x ∈ l → ¬ P x) → filter P l = [].
Proof.
  induction l as [|x l IH]; intros Hl; [done|].
  rewrite filter_cons. rewrite decide_False by (apply Hl; by left).
  apply IH. intros y Hy. apply Hl. by right.
Qed.

Lemma setAll_holds_every (e : NP.t) : holdsEveryCapability (NP.setAll e true).
Proof.
  intros p Hp. unfold NP.capabilities in Hp.
  repeat (apply elem_of_cons in Hp as [->|Hp]); [reflexivity..|by apply elem_of_nil in Hp].
Qed.

Lemma standardNames_keys (name : string) :
  name ∈ NP.standardNames → (name, 0) ∈ standardKeys.
Proof.
  unfold NP.standardNames, standardKeys.
  rewrite !elem_of_cons, !elem_of_nil.
  intros [->|[->|[->|[->|[]]]]]; auto 10.
Qed.

(** C1, as amended: after every [unpackPermissions] the four standard role
    keys exist in the standard set. Localhost holds every capability when
    the stored list has no localhost row; when it has some, localhost holds
    the union of what those rows grant, whatever that is. *)
Theorem C1_standard_roles_after_unpack (s : D.t) :
  let s' := D.unpackPermissions s in
  (∀ name, name ∈ NP.standardNames →
     is_Some (D._standardAgentPermissions s' !! (name, 0)))
  ∧ ((∀ v, v ∈ storedList s AGENT_STANDARD_PERMISSIONS_KEYPATH →
        NP.getID (entryOf v) ≠ "localhost") →
     holdsEveryCapability (D.getStandardPermissionsForName s' NP.standardNameLocalhost))
  ∧ (storedUnder Standard s NP.standardNameLocalhost ≠ [] →
     NP.permissions (D.getStandardPermissionsForName s' NP.standardNameLocalhost)
     = unionOf (NP.permissions ∘ entryOf <$> storedUnder Standard s NP.standardNameLocalhost)).
Proof.
  intros s'. subst s'.
  pose proof (unpackPermissions_setOf s Standard) as Hs. cbn [setOf] in Hs.
  destruct (unpackPermissionsCore_facts s) as (_ & Hunion & _ & Hkeys & Hlocal & _).
  unfold D.getStandardPermissionsForName, NPM.at_. rewrite Hs.
  change (NPM.dataKey NP.standardNameLocalhost) with NP.standardNameLocalhost.
  split; [|split].
  - intros name Hname. apply Hkeys. by apply standardNames_keys.
  - intros Hnone. rewrite Hlocal.
    + cbn [default]. apply setAll_holds_every.
    + unfold storedUnder. cbn [keyPathOf]. apply filter_none. intros v Hv Hk.
      apply (Hnone v Hv). unfold keyOf in Hk. by inversion Hk.
  - intros Hsome. specialize (Hunion Standard _ Hsome). cbn [setOf] in Hunion.
    rewrite permsView_lookup in Hunion.
    destruct (D._standardAgentPermissions (D.unpackPermissionsCore s).1
                !! NP.standardNameLocalhost) as [e|]; [|done].
    cbn [fmap option_fmap option_map] in Hunion. cbn [default]. by injection Hunion.
Qed.

Lemma C1_standard_roles_witness :
  holdsEveryCapability
    (D.getStandardPermissionsForName (D.unpackPermissions Examples.blank)
       NP.standardNameLocalhost).
Proof.
  apply (C1_standard_roles_after_unpack Examples.blank).
  intros v Hv. vm_compute in Hv. inversion Hv.
Defined.

(** C6: when the stored list of a category holds two or more rows that are
    filed under one key, [unpackPermissions] leaves a single entry under that
    key whose capability word is the bitwise union of those rows (of the two,
    when there are exactly two), raises [needPack], and so ends with a full
    [packPermissions]; being a total function it raises no error. *)
Theorem C6_duplicates_merge_by_union (s : D.t) (c : Category) (k : NodePermissionsKey) :
  (2 ≤ length (storedUnder c s k))%nat →
  (∃ e, setOf c (D.unpackPermissions s) !! k = Some e
        ∧ NP.permissions e = unionOf (NP.permissions ∘ entryOf <$> storedUnder c s k)
        ∧ (∀ v1 v2, storedUnder c s k = [v1; v2] →
             NP.permissions e
             = Z.lor (NP.permissions (entryOf v1)) (NP.permissions (entryOf v2))))
  ∧ (D.unpackPermissionsCore s).2 = true
  ∧ D.unpackPermissions s = D.packPermissions (D.unpackPermissionsCore s).1.
Proof.
  intros Hlen.
  destruct (unpackPermissionsCore_facts s) as (_ & Hunion & Hflag & _).
  assert (Hne : storedUnder c s k ≠ []).
  { intros Heq. rewrite Heq in Hlen. cbn in Hlen. lia. }
  specialize (Hunion c k Hne). specialize (Hflag c k Hlen).
  split; [|split; [exact Hflag|]].
  - rewrite unpackPermissions_setOf. rewrite permsView_lookup in Hunion.
    destruct (setOf c (D.unpackPermissionsCore s).1 !! k) as [e|]; [|done].
    exists e. cbn [fmap option_fmap option_map] in Hunion. injection Hunion as Hp.
    split; [done|]. split; [exact Hp|].
    intros v1 v2 Heq. rewrite Hp, Heq.
    unfold unionOf. cbn [fmap list_fmap compose foldr]. rewrite Z.lor_0_r. reflexivity.
  - rewrite unpackPermissions_unfold. by rewrite Hflag.
Qed.

Lemma C6_duplicates_witness :
  ∃ e, D._agentPermissions (D.unpackPermissions Examples.duplicateUser) !! ("alice", 0) = Some e
       ∧ NP.permissions e = 3.
Proof.
  destruct (C6_duplicates_merge_by_union Examples.duplicateUser Named ("alice", 0))
    as ((e & He & Hp & _) & _).
  - vm_compute. lia.
  - exists e. split; [exact He|]. rewrite Hp. vm_compute. reflexivity.
Defined.

(** ** The merged view *)
Section merged_view.
Implicit Types (fm tm acc master user : QVariantMap) (g k : string).

Lemma overlay_maps fm tm : H.overlay (VMap fm) (VMap tm) = VMap (foldl overlayStep tm fm).
Proof.
  cbn [H.overlay]. f_equal. revert tm.
  induction fm as [|[k fv] fm IH]; intros tm; [done|].
  cbn [foldl]. rewrite <- IH. reflexivity.
Qed.

Lemma overlay_top_not_map fv tv : Variant.canConvertMap tv = false → H.overlay fv tv = tv.
Proof. intros Htv. destruct tv; try discriminate; destruct fv; reflexivity. Qed.

Lemma overlay_fallback_not_map fv tv : Variant.canConvertMap fv = false → H.overlay fv tv = tv.
Proof. intros Hfv. destruct fv; try discriminate; reflexivity. Qed.


Lemma find_overlayStep acc kv k :
  Assoc.find k (overlayStep acc kv)
  = if decide (kv.1 = k)
    then Some (match Assoc.find k acc with Some tv => H.overlay kv.2 tv | None => kv.2 end)
    else Assoc.find k acc.
Proof.
  unfold overlayStep. destruct kv as [k' fv]; cbn [fst snd].
  case_decide as Hk.
  - subst. destruct (Assoc.find k acc); by rewrite find_insert_eq.
  - destruct (Assoc.find k' acc); by rewrite find_insert_ne.
Qed.



Lemma merge_eq master user : H.merge master user = foldl overlayStep user master.
Proof. unfold H.merge. by rewrite overlay_maps. Qed.

(** A value of the user map that is no map is what the merged view shows,
    whatever the master map holds. *)
Lemma merge_user_wins master user g k v :
  H.valueForSegments user [g; k] = Some v → Variant.canConvertMap v = false →
  H.valueForSegments (H.merge master user) [g; k] = Some v.
Proof.
  rewrite merge_eq, !valueFor2. revert user.
  induction master as [|[g' fv] master IH]; intros user Hu Hv; [done|].
  cbn [foldl]. apply IH; [|done].
  rewrite find_overlayStep. cbn [fst snd]. case_decide as Hg; [|done].
  subst g'. destruct (Assoc.find g user) as [tv|] eqn:Hgu; [|done].
  destruct tv as [| | | | | | | |tm]; try done.
  destruct fv as [| | | | | | | |fm]; try done.
  rewrite overlay_maps.
  clear IH Hgu. revert tm Hu. induction fm as [|[k' fv'] fm IH]; intros tm Hu; [done|].
  cbn [foldl]. apply IH. rewrite find_overlayStep. cbn [fst snd].
  case_decide; [|done]. subst. rewrite Hu. by rewrite overlay_top_not_map.
Qed.

End merged_view.

(** ** Sorting the stored lists leaves the other key paths alone *)

Lemma sortListAt2 (u : QVariantMap) (g k : string) :
  QStr.split (g +:+ "." +:+ k) = [g; k] →
  D.sortListAt u (g +:+ "." +:+ k) = sortAt2 u g k.
Proof.
  intros Hsplit. unfold D.sortListAt, sortAt2, H.valueForKeyPath, H.setValueForKeyPath.
  rewrite Hsplit. destruct (H.valueForSegments u [g; k]) as [[]|]; reflexivity.
Qed.

Lemma sortUser_eq (u : QVariantMap) :
  D.sortUser u = sortAt2 (sortAt2 u "security" "standard_permissions") "security" "permissions".
Proof.
  unfold D.sortUser.
  rewrite (sortListAt2 _ "security" "standard_permissions") by reflexivity.
  by rewrite (sortListAt2 _ "security" "permissions") by reflexivity.
Qed.


Lemma sortAt2_other (u : QVariantMap) (g' k' g k : string) :
  (g', k') ≠ (g, k) →
  H.valueForSegments (sortAt2 u g' k') [g; k] = H.valueForSegments u [g; k].
Proof.
  intros Hne. unfold sortAt2.
  destruct (H.valueForSegments u [g'; k']) as [v|] eqn:Hv; [|done].
  destruct v; try done.
  destruct (decide (g' = g)) as [->|Hg].
  - rewrite valueFor2_set_ne; [done|congruence].
  - by rewrite valueFor2_set_other.
Qed.




(** ** Reading a setting that the user map does not define *)






(** ** A record written by [toVariant] and read back *)
Section record_round_trip.

Lemma land_pow2 (p i : Z) :
  0 ≤ i → Z.land p (2 ^ i) = if Z.testbit p i then 2 ^ i else 0.
Proof.
  intros Hi. apply Z.bits_inj'. intros n Hn.
  rewrite Z.land_spec, Z.pow2_bits_eqb by done.
  destruct (Z.eqb_spec i n) as [->|Hne].
  - rewrite andb_true_r. destruct (Z.testbit p n) eqn:Hp.
    + by rewrite Z.pow2_bits_true.
    + by rewrite Z.bits_0.
  - rewrite andb_false_r. destruct (Z.testbit p i).
    + rewrite Z.pow2_bits_false; [done|congruence].
    + by rewrite Z.bits_0.
Qed.

Lemma land_bit (p : Z) (c : NP.Permission) :
  c ∈ NP.capabilities →
  Z.land p (NP.bit c) = if Z.testbit p (Z.log2 (NP.bit c)) then NP.bit c else 0.
Proof.
  intros Hc. assert (Hb : NP.bit c = 2 ^ Z.log2 (NP.bit c) ∧ 0 ≤ Z.log2 (NP.bit c)).
  { unfold NP.capabilities in Hc. rewrite !elem_of_cons, elem_of_nil in Hc.
    destruct Hc as [->|[->|[->|[->|[->|[->|[]]]]]]]; by vm_compute. }
  destruct Hb as [Hb Hi]. rewrite Hb at 1 3. by apply land_pow2.
Qed.

Lemma can_flag (e : NP.t) (c : NP.Permission) :
  c ∈ NP.capabilities →
  (if NP.can e c then NP.bit c else NP.bit NP.none) = Z.land (NP.permissions e) (NP.bit c).
Proof.
  intros Hc. unfold NP.can. rewrite (land_bit _ c Hc).
  assert (Hb : NP.bit c ≠ 0).
  { unfold NP.capabilities in Hc. rewrite !elem_of_cons, elem_of_nil in Hc.
    destruct Hc as [->|[->|[->|[->|[->|[->|[]]]]]]]; by vm_compute. }
  destruct (Z.testbit _ _).
  - rewrite Z.eqb_refl. cbn [andb].
    destruct (Z.eqb_spec (NP.bit c) 0) as [?|_]; [done|]. reflexivity.
  - destruct (Z.eqb_spec 0 (NP.bit c)) as [?|_]; [by destruct Hb|]. reflexivity.
Qed.

Lemma fromMap_toVariant (e : NP.t) (rankNames : list string) :
  entryOf (NP.toVariant e rankNames) = reread e.
Proof.
  unfold entryOf, reread, NP.toVariant, NP.fromMap.
  destruct e as [id rank gset gid p].
  cbn [NP._id NP._rank NP._groupIDSet NP._groupID NP.permissions].
  set (e := NP.mk id rank gset gid p).
  pose proof (can_flag e NP.canConnectToDomain) as H1.
  pose proof (can_flag e NP.canAdjustLocks) as H2.
  pose proof (can_flag e NP.canRezPermanentEntities) as H3.
  pose proof (can_flag e NP.canRezTemporaryEntities) as H4.
  pose proof (can_flag e NP.canWriteToAssetServer) as H5.
  pose proof (can_flag e NP.canConnectPastMaxCapacity) as H6.
  assert (Hp : Z.land p 63
    = Z.lor (Z.lor (Z.lor (Z.lor (Z.lor (Z.lor 0
        (Z.land p (NP.bit NP.canConnectToDomain)))
        (Z.land p (NP.bit NP.canAdjustLocks)))
        (Z.land p (NP.bit NP.canRezPermanentEntities)))
        (Z.land p (NP.bit NP.canRezTemporaryEntities)))
        (Z.land p (NP.bit NP.canWriteToAssetServer)))
        (Z.land p (NP.bit NP.canConnectPastMaxCapacity))).
  { rewrite Z.lor_0_l, <- !Z.land_lor_distr_r. reflexivity. }
  rewrite Hp. change (NP.permissions e) with p in *.
  rewrite <- H1, <- H2, <- H3, <- H4, <- H5, <- H6 by (unfold NP.capabilities; set_solver).
  generalize (NP.can e NP.canConnectToDomain) (NP.can e NP.canAdjustLocks)
    (NP.can e NP.canRezPermanentEntities) (NP.can e NP.canRezTemporaryEntities)
    (NP.can e NP.canWriteToAssetServer) (NP.can e NP.canConnectPastMaxCapacity).
  intros c1 c2 c3 c4 c5 c6. clear.
  destruct gset; [destruct ((rank <? _) && _)|]; reflexivity.
Qed.

End record_round_trip.

(** ** The lists that [packPermissions] stores *)
Section packed_lists.

Lemma insertSorted_perm {A : Type} (lt : A → A → bool) (x : A) (l : list A) :
  insertSorted lt x l ≡ₚ x :: l.
Proof.
  induction l as [|y l IH]; [done|]. cbn [insertSorted].
  destruct (lt y x); [|done]. rewrite IH. apply Permutation_swap.
Qed.

Lemma stdSort_perm {A : Type} (lt : A → A → bool) (l : list A) : stdSort lt l ≡ₚ l.
Proof.
  induction l as [|x l IH]; [done|]. unfold stdSort. cbn [foldr].
  rewrite insertSorted_perm. by constructor.
Qed.

Lemma packEntries_snd (s : D.t) (m : NPM.t) :
  lowerKeys m → (D.packEntries s m).2 = rowsOf s m.
Proof.
  intros Hm. unfold D.packEntries, NPM.keys, rowsOf.
  assert (Hall : ∀ ke, ke ∈ map_to_list m → m !! NPM.dataKey ke.1 = Some ke.2).
  { intros [k e] Hke. apply elem_of_map_to_list in Hke. cbn [fst snd].
    rewrite (Hm k) by eauto. done. }
  enough (Hgen : ∀ (kes : list (NodePermissionsKey * NP.t)) (acc : QVariantList),
            (∀ ke, ke ∈ kes → m !! NPM.dataKey ke.1 = Some ke.2) →
            foldl (fun (acc : NPM.t * QVariantList) userKey =>
                     let '(m, perms) := NPM.subscript acc.1 userKey in
                     let record :=
                       if NP.isGroup perms
                       then NP.toVariant perms (D.groupRanksOf s (NP.getGroupID perms))
                       else NP.toVariant perms [] in
                     (m, (acc.2 ++ [record])%list)) (m, acc) kes.*1
            = (m, (acc ++ ((fun ke : NodePermissionsKey * NP.t => rowOf s ke.2) <$> kes))%list)).
  { exact (f_equal snd (Hgen _ [] Hall)). }
  induction kes as [|[k e] kes IH]; intros acc Hk.
  - cbn. by rewrite app_nil_r.
  - cbn [fmap list_fmap foldl fst snd].
    rewrite (subscript_present m k e) by (apply (Hk (k, e)); by left).
    cbn [fst snd]. change (list_fmap _ _ fst kes) with (kes.*1).
    rewrite IH by (intros ke Hke; apply Hk; by right).
    by rewrite <- app_assoc.
Qed.

Lemma ensureSecurity_value (u : QVariantMap) (k : string) :
  H.valueForSegments (D.ensureSecurity u) ["security"; k]
  = H.valueForSegments u ["security"; k].
Proof.
  unfold D.ensureSecurity.
  change (H.valueForKeyPath u "security") with (Assoc.find "security" u).
  change (H.setValueForKeyPath u "security" (VMap []))
    with (Assoc.insert "security" (VMap []) u).
  rewrite !valueFor2.
  destruct (Assoc.find "security" u) as [v|] eqn:Hv.
  - destruct v; cbn [Variant.canConvertMap]; rewrite ?Hv, ?find_insert_eq; reflexivity.
  - by rewrite find_insert_eq.
Qed.

Lemma ensureList2_value_ne (u : QVariantMap) (g k k' : string) :
  k ≠ k' →
  H.valueForSegments (ensureList2 u g k) [g; k'] = H.valueForSegments u [g; k'].
Proof.
  intros Hne. unfold ensureList2. destruct (H.valueForSegments u [g; k]) as [v|].
  - destruct (Variant.canConvertList v); [done|]. by rewrite valueFor2_set_ne.
  - by rewrite valueFor2_set_ne.
Qed.

Lemma put2_value_eq (u : QVariantMap) (k : string) (l : QVariantList) :
  H.valueForSegments (put2 u k l) ["security"; k] = Some (VList l).
Proof. unfold put2. by rewrite valueFor2_set_eq. Qed.

Lemma put2_value_ne (u : QVariantMap) (k k' : string) (l : QVariantList) :
  k ≠ k' →
  H.valueForSegments (put2 u k l) ["security"; k'] = H.valueForSegments u ["security"; k'].
Proof.
  intros Hne. unfold put2.
  by rewrite valueFor2_set_ne, ensureList2_value_ne, ensureSecurity_value.
Qed.

Lemma put2_eq (u : QVariantMap) (c : Category) (l : QVariantList) :
  H.setValueForKeyPath (D.ensureList (D.ensureSecurity u) (keyPathOf c)) (keyPathOf c) (VList l)
  = put2 u (listKeyOf c) l.
Proof. by destruct c. Qed.

Lemma packedUser_eq (s : D.t) :
  packedUser s
  = put2 (put2 (put2 (put2 (H.userConfig (D._configMap s))
        "standard_permissions" (D.packEntries s (D._standardAgentPermissions s)).2)
        "permissions" (D.packEntries s (D._agentPermissions s)).2)
        "group_permissions" (D.packEntries s (D._groupPermissions s)).2)
        "group_forbiddens" (D.packEntries s (D._groupForbiddens s)).2.
Proof.
  unfold packedUser.
  rewrite (put2_eq _ Standard), (put2_eq _ Named), (put2_eq _ Grouped), (put2_eq _ Forbidden).
  reflexivity.
Qed.

Lemma packedUser_value (s : D.t) (c : Category) :
  H.valueForSegments (packedUser s) ["security"; listKeyOf c]
  = Some (VList (D.packEntries s (setOf c s)).2).
Proof.
  rewrite packedUser_eq.
  destruct c; cbn [listKeyOf setOf];
    rewrite ?(put2_value_ne _ "group_forbiddens") by done;
    rewrite ?(put2_value_ne _ "group_permissions") by done;
    rewrite ?(put2_value_ne _ "permissions") by done;
    apply put2_value_eq.
Qed.

Lemma sortAt2_same (u : QVariantMap) (g k : string) (l : QVariantList) :
  H.valueForSegments u [g; k] = Some (VList l) →
  H.valueForSegments (sortAt2 u g k) [g; k]
  = Some (VList (stdSort permissionVariantLessThan l)).
Proof. intros Hl. unfold sortAt2. rewrite Hl. apply valueFor2_set_eq. Qed.

Lemma storedList_eq (s : D.t) (c : Category) :
  storedList s (keyPathOf c) = listAt2 (H.userConfig (D._configMap s)) "security" (listKeyOf c).
Proof. by destruct c. Qed.

Lemma userConfig_persisted (s : D.t) (u : QVariantMap) :
  H.userConfig (D._configMap (D.reloadConfig (D.persistToFile (D.setUserConfig s u))))
  = D.sortUser u.
Proof. reflexivity. Qed.

(** After [packPermissions] each stored list holds one record for each
    entry of its set. *)
Lemma stored_after_pack (s : D.t) (c : Category) :
  (∀ c, lowerKeys (setOf c s)) →
  storedList (D.packPermissions s) (keyPathOf c) ≡ₚ rowsOf s (setOf c s).
Proof.
  intros Hlow. rewrite storedList_eq.
  rewrite packPermissions_eq by (apply (Hlow Standard) || apply (Hlow Named)
                                 || apply (Hlow Grouped) || apply (Hlow Forbidden)).
  rewrite userConfig_persisted.
  unfold listAt2. rewrite sortUser_eq.
  pose proof (packedUser_value s c) as Hv. rewrite packEntries_snd in Hv by apply Hlow.
  destruct c; cbn [listKeyOf] in *.
  - rewrite sortAt2_other by done. rewrite (sortAt2_same _ _ _ _ Hv).
    apply stdSort_perm.
  - rewrite (sortAt2_same _ _ _ (rowsOf s (D._agentPermissions s))).
    + apply stdSort_perm.
    + by rewrite sortAt2_other.
  - rewrite !sortAt2_other by done. by rewrite Hv.
  - rewrite !sortAt2_other by done. by rewrite Hv.
Qed.

End packed_lists.

(** ** The entries that the standard and the named loop leave *)
Section loop_entries.

Lemma storeOrMerge_lookup (m : NPM.t) (k k' : NodePermissionsKey) (e : NP.t) :
  (D.storeOrMerge m k e).1 !! k'
  = if decide (NPM.dataKey k = k')
    then Some (match m !! NPM.dataKey k with
               | Some e0 => NP.or_assign e0 e
               | None => e
               end)
    else m !! k'.
Proof.
  unfold D.storeOrMerge, NPM.contains, NPM.update, NPM.subscript, NPM.assign.
  destruct (m !! NPM.dataKey k) as [e0|] eqn:He.
  - rewrite bool_decide_eq_true_2 by (by eexists). cbn [fst].
    case_decide as Hk; [subst; by rewrite lookup_insert_eq | by rewrite lookup_insert_ne].
  - rewrite bool_decide_eq_false_2 by (by intros [? ?]). cbn [fst].
    case_decide as Hk; [subst; by rewrite lookup_insert_eq | by rewrite lookup_insert_ne].
Qed.

Lemma storeOrMerge_entries (c : Category) (l : QVariantList) (m : NPM.t) (v : QVariant) :
  (∀ k e, m !! k = Some e → ∃ v, v ∈ l ∧ keyOf c v = k ∧ sameFields e (entryOf v)) →
  ∀ k e, (D.storeOrMerge m (keyOf c v) (entryOf v)).1 !! k = Some e →
         ∃ v', v' ∈ (l ++ [v])%list ∧ keyOf c v' = k ∧ sameFields e (entryOf v').
Proof.
  intros Hm k e. rewrite storeOrMerge_lookup, keyOf_lower.
  case_decide as Hk.
  - subst k. destruct (m !! keyOf c v) as [e0|] eqn:He0.
    + intros [= <-]. destruct (Hm _ _ He0) as (v0 & Hin & Hkey & Hsame).
      exists v0. split; [apply elem_of_app; by left|]. split; [done|].
      unfold sameFields in *. rewrite <- Hsame. reflexivity.
    + intros [= <-]. exists v. split; [apply elem_of_app; right; by left|]. done.
  - intros He. destruct (Hm _ _ He) as (v0 & Hin & Hkey & Hsame).
    exists v0. split; [apply elem_of_app; by left|]. done.
Qed.

Lemma namedLoop_entries (l : QVariantList) (b : bool) (k : NodePermissionsKey) (e : NP.t) :
  (foldl D.unpackAgent (∅, b) l).1 !! k = Some e →
  ∃ v, v ∈ l ∧ keyOf Named v = k ∧ sameFields e (entryOf v).
Proof.
  revert k e. induction l as [|v l IH] using rev_ind; intros k e.
  - cbn. by rewrite lookup_empty.
  - rewrite foldl_app. cbn [foldl].
    destruct (foldl D.unpackAgent (∅, b) l) as [m b'] eqn:El. cbn [fst] in IH.
    unfold D.unpackAgent.
    change (NP.getID (NP.fromMap (Variant.toMap v)), 0) with (keyOf Named v).
    change (NP.fromMap (Variant.toMap v)) with (entryOf v).
    pose proof (storeOrMerge_entries Named l m v IH k e) as Hs.
    destruct (D.storeOrMerge m (keyOf Named v) (entryOf v)). exact Hs.
Qed.

Lemma standardLoop_entries (l : QVariantList) (f : D.Found) (b : bool)
    (k : NodePermissionsKey) (e : NP.t) :
  (foldl D.unpackStandard (∅, f, b) l).1.1 !! k = Some e →
  ∃ v, v ∈ l ∧ keyOf Standard v = k ∧ sameFields e (entryOf v).
Proof.
  revert k e. induction l as [|v l IH] using rev_ind; intros k e.
  - cbn. by rewrite lookup_empty.
  - rewrite foldl_app. cbn [foldl].
    destruct (foldl D.unpackStandard (∅, f, b) l) as [[m f'] b'] eqn:El. cbn [fst] in IH.
    unfold D.unpackStandard.
    change (NP.getID (NP.fromMap (Variant.toMap v)), 0) with (keyOf Standard v).
    change (NP.fromMap (Variant.toMap v)) with (entryOf v).
    pose proof (storeOrMerge_entries Standard l m v IH k e) as Hs.
    destruct (D.storeOrMerge m (keyOf Standard v) (entryOf v)). exact Hs.
Qed.

Lemma namedLoop_flagless (l : QVariantList) (m : NPM.t) (b b' : bool) :
  (foldl D.unpackAgent (m, b) l).1 = (foldl D.unpackAgent (m, b') l).1.
Proof.
  revert m b b'. induction l as [|v l IH]; intros m b b'; [done|].
  cbn [foldl]. unfold D.unpackAgent at 2 4.
  destruct (D.storeOrMerge m _ _) as [m' dup]. apply IH.
Qed.

(** The standard and the named set that [unpackPermissions] leaves are
    those of their loops, the standard one with the missing roles added. *)
Lemma core_standard_named (s : D.t) :
  let r := foldl D.unpackStandard (∅, noneFound, false)
                 (storedList s AGENT_STANDARD_PERMISSIONS_KEYPATH) in
  (∃ b, D._standardAgentPermissions (D.unpackPermissionsCore s).1
        = (addMissingAll r.1.2 (r.1.1, b)).1)
  ∧ D._agentPermissions (D.unpackPermissionsCore s).1
    = (foldl D.unpackAgent (∅, false) (storedList s AGENT_PERMISSIONS_KEYPATH)).1.
Proof.
  cbv zeta.
  set (u := ensureAll (H.userConfig (D._configMap s))).
  set (s0 := clearedForUnpack s).
  destruct (foldl D.unpackStandard (∅, noneFound, false)
              (D.listAt u AGENT_STANDARD_PERMISSIONS_KEYPATH)) as [[sm found] b1] eqn:E1.
  destruct (foldl D.unpackAgent (∅, b1) (D.listAt u AGENT_PERMISSIONS_KEYPATH))
    as [am b2] eqn:E2.
  destruct (foldl D.unpackGroup
              (D.setAgentPermissions (D.setStandardAgentPermissions s0 sm) am, b2)
              (D.listAt u GROUP_PERMISSIONS_KEYPATH)) as [sg b3] eqn:E3.
  destruct (foldl D.unpackForbidden (sg, b3) (D.listAt u GROUP_FORBIDDENS_KEYPATH))
    as [sf b4] eqn:E4.
  rewrite (unpackPermissionsCore_eq s sm found b1 am b2 sg b3 sf b4 E1 E2 E3 E4).
  pose proof (storedList_ensured s Standard) as L1.
  pose proof (storedList_ensured s Named) as L2.
  cbn [keyPathOf] in L1, L2. fold u in L1, L2. rewrite L1 in E1. rewrite L2 in E2.
  pose proof (unpackGroups_frame (D.listAt u GROUP_PERMISSIONS_KEYPATH)
                (D.setAgentPermissions (D.setStandardAgentPermissions s0 sm) am) b2) as R3.
  pose proof (unpackForbiddens_frame (D.listAt u GROUP_FORBIDDENS_KEYPATH) sg b3) as R4.
  rewrite E3 in R3. rewrite E4 in R4. cbn zeta in R3, R4. cbn [fst] in R3, R4.
  destruct R3 as ((_ & _ & _ & R3d & R3e & _) & _).
  destruct R4 as ((_ & _ & _ & R4d & R4e & _) & _).
  cbn [D._standardAgentPermissions D._agentPermissions D.setAgentPermissions
       D.setStandardAgentPermissions] in R3d, R3e.
  rewrite R4d, R3d.
  destruct (addMissingAll found (sm, b4)) as [sm' b5] eqn:E5.
  pose proof (ensurePermissionsForGroupRanks_frame (D.setStandardAgentPermissions sf sm'))
    as R6. cbn zeta in R6.
  destruct (D.ensurePermissionsForGroupRanks (D.setStandardAgentPermissions sf sm'))
    as [se changed]. cbn [fst] in R6. destruct R6 as ((_ & _ & _ & R6d & R6e & _) & _).
  cbn [D._standardAgentPermissions D._agentPermissions D.setStandardAgentPermissions]
    in R6d, R6e. cbn [fst].
  rewrite E1. cbn [fst snd]. split.
  - exists b4. by rewrite R6d, E5.
  - rewrite R6e, R4e, R3e. rewrite (namedLoop_flagless _ _ false b1), E2. done.
Qed.

End loop_entries.

(** ** Packing and unpacking the standard and the named set *)
Section pack_then_unpack.

Lemma reread_storable (e : NP.t) : storable e → reread e = e.
Proof.
  destruct e as [id rank gset gid p]. unfold storable, reread. cbn.
  intros (-> & -> & Hg). destruct gset; cbn.
  - by rewrite Hg.
  - by destruct Hg as [-> ->].
Qed.

Lemma filter_rows {B : Type} (key : B → NodePermissionsKey) (f : NP.t → B)
    (L : list (NodePermissionsKey * NP.t)) (k : NodePermissionsKey) :
  NoDup L.*1 → (∀ ke, ke ∈ L → key (f ke.2) = ke.1) →
  (∀ e, (k, e) ∈ L →
        filter (fun v => key v = k) ((fun ke : NodePermissionsKey * NP.t => f ke.2) <$> L)
        = [f e])
  ∧ (k ∉ L.*1 →
     filter (fun v => key v = k) ((fun ke : NodePermissionsKey * NP.t => f ke.2) <$> L) = []).
Proof.
  induction L as [|[k' e'] L IH]; intros Hnd Hkey.
  - split; [intros e He; by apply elem_of_nil in He | done].
  - cbn in Hnd. apply NoDup_cons in Hnd as [Hnot Hnd].
    destruct (IH Hnd) as [IH1 IH2]. { intros ke Hke. apply Hkey. by right. }
    pose proof (Hkey (k', e') ltac:(by left)) as Hk'. cbn [fst snd] in Hk'.
    cbn [fmap list_fmap snd]. rewrite filter_cons. split.
    + intros e He. apply elem_of_cons in He as [[= <- <-]|He].
      * rewrite decide_True by done. f_equal. by apply IH2.
      * rewrite decide_False.
        -- by apply IH1.
        -- rewrite Hk'. intros ->. apply Hnot. apply list_elem_of_fmap. by exists (k, e).
    + intros Hk. apply not_elem_of_cons in Hk as [Hne Hk]. cbn in Hne.
      rewrite decide_False by (rewrite Hk'; congruence). by apply IH2.
Qed.

Lemma rows_under (s : D.t) (c : Category) (m : NPM.t) (k : NodePermissionsKey) :
  (∀ k e, m !! k = Some e → keyOf c (rowOf s e) = k) →
  filter (fun v => keyOf c v = k) (rowsOf s m)
  = match m !! k with Some e => [rowOf s e] | None => [] end.
Proof.
  intros Hkey. unfold rowsOf.
  destruct (filter_rows (keyOf c) (rowOf s) (map_to_list m) k) as [H1 H2].
  - apply NoDup_fst_map_to_list.
  - intros [k' e'] Hke. apply elem_of_map_to_list in Hke. by apply Hkey.
  - destruct (m !! k) as [e|] eqn:He.
    + apply H1. by apply elem_of_map_to_list.
    + apply H2. intros Hin. apply list_elem_of_fmap in Hin as ([k' e'] & -> & Hke).
      apply elem_of_map_to_list in Hke. cbn in He. congruence.
Qed.

Lemma entryOf_rowOf (s : D.t) (e : NP.t) : entryOf (rowOf s e) = reread e.
Proof. unfold rowOf. destruct (NP.isGroup e); apply fromMap_toVariant. Qed.

Lemma stored_under_after_pack (s : D.t) (c : Category) (k : NodePermissionsKey) :
  (∀ c, lowerKeys (setOf c s)) →
  (∀ k e, setOf c s !! k = Some e → keyOf c (rowOf s e) = k) →
  storedUnder c (D.packPermissions s) k
  = match setOf c s !! k with Some e => [rowOf s e] | None => [] end.
Proof.
  intros Hlow Hkey. unfold storedUnder.
  pose proof (stored_after_pack s c Hlow) as Hperm.
  assert (Hf : filter (fun v => keyOf c v = k) (storedList (D.packPermissions s) (keyPathOf c))
               ≡ₚ filter (fun v => keyOf c v = k) (rowsOf s (setOf c s))).
  { by rewrite Hperm. }
  rewrite (rows_under s c _ k Hkey) in Hf.
  destruct (setOf c s !! k).
  - by apply Permutation_singleton_r in Hf.
  - by apply Permutation_nil_r in Hf.
Qed.

Lemma sameFields_eq (e e' : NP.t) :
  sameFields e e' → NP.permissions e = NP.permissions e' → e = e'.
Proof.
  destruct e, e'. unfold sameFields, NP.withPermissions. cbn. intros [= -> -> -> ->] ->. done.
Qed.

Lemma keyOf_rowOf_named (s : D.t) (c : Category) (k : NodePermissionsKey) (e : NP.t) :
  c = Standard ∨ c = Named →
  storable e → k = (NP.getID e, 0) → keyOf c (rowOf s e) = k.
Proof.
  intros Hc (Hid & _) ->. destruct Hc as [-> | ->]; unfold keyOf;
    rewrite entryOf_rowOf; unfold reread, NP.getID; cbn; by rewrite Hid.
Qed.

End pack_then_unpack.

Section fixed_point.

Lemma standard_core_lookup (s : D.t) (k : NodePermissionsKey) :
  storedUnder Standard s k ≠ [] ∨ k ∉ standardKeys →
  D._standardAgentPermissions (D.unpackPermissionsCore s).1 !! k
  = (foldl D.unpackStandard (∅, noneFound, false)
       (storedList s AGENT_STANDARD_PERMISSIONS_KEYPATH)).1.1 !! k.
Proof.
  intros Hk. destruct (core_standard_named s) as [[b ->] _].
  pose proof (unpackStandard_found (storedList s AGENT_STANDARD_PERMISSIONS_KEYPATH)
                ∅ noneFound false) as N1. cbn zeta in N1.
  destruct (foldl D.unpackStandard _ _) as [[sm found] b1]. cbn [fst snd] in *.
  cbn [noneFound D.foundLocalhost D.foundAnonymous D.foundLoggedIn D.foundFriends orb] in N1.
  destruct N1 as (N1a & N1b & N1c & N1d).
  destruct (decide (k ∈ standardKeys)) as [Hin|Hout]; [|by apply addMissingAll_other].
  destruct Hk as [Hk|Hk]; [|done].
  assert (Hs : storedAs k (storedList s AGENT_STANDARD_PERMISSIONS_KEYPATH) = true).
  { destruct (storedAs k _) eqn:Hs; [done|]. by apply storedAs_under in Hs. }
  destruct (addMissingAll_found found sm b) as (A2a & A2b & A2c & A2d).
  unfold standardKeys in Hin. rewrite !elem_of_cons, elem_of_nil in Hin.
  destruct Hin as [->|[->|[->|[->|[]]]]].
  - by rewrite A2a, N1a, Hs.
  - by rewrite A2b, N1b, Hs.
  - by rewrite A2c, N1c, Hs.
  - by rewrite A2d, N1d, Hs.
Qed.

(** A set whose entries come from the stored records, one record to a key,
    is the set those records were written from. *)
Lemma set_of_single_rows (c : Category) (s1 : D.t) (row : NP.t → QVariant)
    (target m : NPM.t) :
  (∀ k e, m !! k = Some e → entryOf (row e) = e) →
  (∀ k, storedUnder c s1 k = match m !! k with Some e => [row e] | None => [] end) →
  (∀ k e, target !! k = Some e → ∃ v, v ∈ storedUnder c s1 k ∧ sameFields e (entryOf v)) →
  (∀ k, storedUnder c s1 k ≠ [] →
        permsView target !! k
        = Some (unionOf (NP.permissions ∘ entryOf <$> storedUnder c s1 k))) →
  target = m.
Proof.
  intros Hrow Hsu Hent Hview. apply map_eq. intros k.
  specialize (Hsu k). destruct (m !! k) as [e|] eqn:He.
  - specialize (Hview k). rewrite Hsu in Hview. specialize (Hview ltac:(done)).
    cbn [fmap list_fmap compose] in Hview. unfold unionOf in Hview. cbn [foldr] in Hview.
    rewrite Z.lor_0_r, (Hrow k e He), permsView_lookup in Hview.
    destruct (target !! k) as [e'|] eqn:He'; [|done].
    cbn [fmap option_fmap option_map] in Hview. injection Hview as Hp.
    destruct (Hent k e' He') as (v & Hv & Hsame). rewrite Hsu in Hv.
    apply list_elem_of_singleton in Hv. subst v. rewrite (Hrow k e He) in Hsame.
    f_equal. by apply sameFields_eq.
  - destruct (target !! k) as [e'|] eqn:He'; [|done].
    destruct (Hent k e' He') as (v & Hv & _). rewrite Hsu in Hv.
    by apply elem_of_nil in Hv.
Qed.

End fixed_point.

(** C2 (amended): when the entries of the standard and of the named set are
    filed under their own id with rank 0, are entries that a stored record
    holds in full, and the standard set has the four standard roles, then
    [packPermissions] followed by [unpackPermissions] gives back the
    standard and the named set that were packed. *)
Theorem C2_pack_unpack_fixes_roles_and_users (s : D.t) :
  lowerKeys (D._groupPermissions s) → lowerKeys (D._groupForbiddens s) →
  filedByName (D._standardAgentPermissions s) → filedByName (D._agentPermissions s) →
  (∀ k e, D._standardAgentPermissions s !! k = Some e → storable e) →
  (∀ k e, D._agentPermissions s !! k = Some e → storable e) →
  (∀ k, k ∈ standardKeys → is_Some (D._standardAgentPermissions s !! k)) →
  let s' := D.unpackPermissions (D.packPermissions s) in
  D._standardAgentPermissions s' = D._standardAgentPermissions s
  ∧ D._agentPermissions s' = D._agentPermissions s.
Proof.
  intros Hgp Hgf Hfs Hfn Hss Hsn Hroles s'. subst s'.
  assert (Hlows : ∀ m : NPM.t, filedByName m → (∀ k e, m !! k = Some e → storable e) →
                               lowerKeys m).
  { intros m Hf Hst k [e He]. rewrite (Hf k e He). unfold NPM.dataKey. cbn [fst snd].
    destruct (Hst k e He) as (Hid & _). unfold NP.getID. by rewrite Hid. }
  assert (Hlow : ∀ c, lowerKeys (setOf c s)).
  { intros [| | |]; cbn [setOf]; auto. }
  set (s1 := D.packPermissions s).
  destruct (unpackPermissionsCore_facts s1) as (_ & Hview & _).
  assert (Hst : ∀ c k e, c = Standard ∨ c = Named → setOf c s !! k = Some e →
                         storable e ∧ k = (NP.getID e, 0)).
  { intros c k e [-> | ->] He; cbn [setOf] in He; eauto. }
  assert (Hsu : ∀ c k, c = Standard ∨ c = Named →
            storedUnder c s1 k = match setOf c s !! k with Some e => [rowOf s e] | None => [] end).
  { intros c k Hc. apply stored_under_after_pack; [done|].
    intros k' e He. destruct (Hst c k' e Hc He). by apply keyOf_rowOf_named. }
  assert (Hrow : ∀ c k e, c = Standard ∨ c = Named → setOf c s !! k = Some e →
                          entryOf (rowOf s e) = e).
  { intros c k e Hc He. rewrite entryOf_rowOf. apply reread_storable.
    by destruct (Hst c k e Hc He). }
  split.
  - rewrite (unpackPermissions_setOf s1 Standard : D._standardAgentPermissions _ = _).
    apply (set_of_single_rows Standard s1 (rowOf s)).
    + intros k e. apply (Hrow Standard). by left.
    + intros k. apply (Hsu Standard). by left.
    + intros k e He. cbn [setOf] in He. rewrite standard_core_lookup in He.
      * apply standardLoop_entries in He as (v & Hv & Hk & Hsame).
        exists v. split; [|done]. unfold storedUnder. apply list_elem_of_filter. done.
      * destruct (decide (k ∈ standardKeys)) as [Hin|Hout]; [left|by right].
        rewrite (Hsu Standard k) by (by left). cbn [setOf].
        by destruct (Hroles k Hin) as [e0 ->].
    + apply (Hview Standard).
  - rewrite (unpackPermissions_setOf s1 Named : D._agentPermissions _ = _).
    apply (set_of_single_rows Named s1 (rowOf s)).
    + intros k e. apply (Hrow Named). by right.
    + intros k. apply (Hsu Named). by right.
    + intros k e He. cbn [setOf] in He.
      destruct (core_standard_named s1) as [_ Hn]. rewrite Hn in He.
      apply namedLoop_entries in He as (v & Hv & Hk & Hsame).
      exists v. split; [|done]. unfold storedUnder. apply list_elem_of_filter. done.
    + apply (Hview Named).
Qed.

Lemma C2_pack_unpack_witness :
  let s' := D.unpackPermissions (D.packPermissions Examples.settledSets) in
  D._standardAgentPermissions s' = D._standardAgentPermissions Examples.settledSets
  ∧ D._agentPermissions s' = D._agentPermissions Examples.settledSets.
Proof.
  apply (C2_pack_unpack_fixes_roles_and_users Examples.settledSets).
  - apply lowerKeys_empty.
  - apply lowerKeys_empty.
  - unfold Examples.settledSets, D._standardAgentPermissions.
    repeat (apply map_Forall_insert_2; [reflexivity|]). apply map_Forall_empty.
  - apply map_Forall_singleton. reflexivity.
  - unfold Examples.settledSets, D._standardAgentPermissions.
    repeat (apply map_Forall_insert_2; [by vm_compute|]). apply map_Forall_empty.
  - apply map_Forall_singleton. by vm_compute.
  - intros k Hk. unfold standardKeys in Hk. rewrite !elem_of_cons, elem_of_nil in Hk.
    destruct Hk as [->|[->|[->|[->|[]]]]]; vm_compute; eauto.
Defined.

(** ** The migration steps that rewrite the configuration *)
Section configuration_steps.

Lemma sameButUser_refl (s : D.t) : sameButUser s s.
Proof. by repeat split. Qed.

Lemma sameButUser_trans (s1 s2 s3 : D.t) :
  sameButUser s1 s2 → sameButUser s2 s3 → sameButUser s1 s3.
Proof. intros (?&?&?&?&?) (?&?&?&?&?). repeat split; congruence. Qed.

Lemma sortUser_other (u : QVariantMap) (g k : string) :
  (g, k) ≠ ("security", "standard_permissions") → (g, k) ≠ ("security", "permissions") →
  H.valueForSegments (D.sortUser u) [g; k] = H.valueForSegments u [g; k].
Proof.
  intros H1 H2. rewrite sortUser_eq. by rewrite !sortAt2_other.
Qed.

Lemma persistAndReload_user (s : D.t) (u : QVariantMap) :
  let s' := D.persistAndReload (D.setUserConfig s u) in
  sameButUser s s' ∧ consistent s' ∧ H.userConfig (D._configMap s') = D.sortUser u.
Proof. by repeat split. Qed.

Lemma valueFor2_insert_other (u : QVariantMap) (g g' k : string) (v : QVariant) :
  g' ≠ g →
  H.valueForSegments (Assoc.insert g' v u) [g; k] = H.valueForSegments u [g; k].
Proof. intros Hne. by rewrite !valueFor2, find_insert_ne. Qed.

(** The [< 1.0] step with a stored allow-list that is not empty. *)
Lemma step_1_0_fires (s : D.t) (l : QVariantList) :
  H.valueForSegments (H.mergedConfig (D._configMap s)) ["security"; "allowed_users"]
  = Some (VList l) → l ≠ [] →
  D.step_1_0 s
  = D.persistAndReload
      (D.setUserConfig s
         (H.setForSegments (H.userConfig (D._configMap s)) ["security"; "restricted_access"]
            (VBool true))).
Proof.
  intros Hl Hne. unfold D.step_1_0.
  change (H.valueForKeyPath ?m D.ALLOWED_USERS_SETTINGS_KEYPATH)
    with (H.valueForSegments m ["security"; "allowed_users"]).
  rewrite Hl. cbn [Variant.canConvertList Variant.toList andb].
  destruct l; [done|]. reflexivity.
Qed.

(** The [< 1.1] and [< 1.2] steps leave the other settings of the
    ["security"] group alone. *)
Lemma step_1_1_frame (s : D.t) :
  consistent s →
  sameButUser s (D.step_1_1 s) ∧ consistent (D.step_1_1 s)
  ∧ ∀ k, ("security", k) ≠ ("security", "standard_permissions") →
         ("security", k) ≠ ("security", "permissions") →
         H.valueForSegments (H.userConfig (D._configMap (D.step_1_1 s))) ["security"; k]
         = H.valueForSegments (H.userConfig (D._configMap s)) ["security"; k].
Proof.
  intros Hc. unfold D.step_1_1.
  destruct (H.valueForKeyPath _ _) as [v|]; [|by split; [apply sameButUser_refl|]].
  destruct (Variant.canConvertString v); [|by split; [apply sameButUser_refl|]].
  cbv zeta.
  set (u := match H.valueForKeyPath _ D.ENTITY_SERVER_SETTINGS_KEY with
            | Some _ => _ | None => _ end).
  destruct (persistAndReload_user s u) as (Hs & Hco & Hu).
  split; [done|]. split; [done|]. intros k H1 H2.
  rewrite Hu, sortUser_other by done. subst u.
  change (H.setValueForKeyPath ?m D.ENTITY_FILE_PATH_KEYPATH ?x)
    with (H.setForSegments m ["entity_server_settings"; "persistFilePath"] x).
  change (H.setValueForKeyPath ?m D.ENTITY_SERVER_SETTINGS_KEY ?x)
    with (Assoc.insert "entity_server_settings" x m).
  destruct (H.valueForKeyPath _ D.ENTITY_SERVER_SETTINGS_KEY) as [w|].
  - destruct (Variant.canConvertMap w).
    + by rewrite valueFor2_insert_other, valueFor2_set_other.
    + by rewrite valueFor2_set_other.
  - by rewrite valueFor2_set_other.
Qed.

Lemma step_1_2_frame (s : D.t) :
  consistent s →
  sameButUser s (D.step_1_2 s) ∧ consistent (D.step_1_2 s)
  ∧ ∀ k, k ≠ "http_password" →
         ("security", k) ≠ ("security", "standard_permissions") →
         ("security", k) ≠ ("security", "permissions") →
         H.valueForSegments (H.userConfig (D._configMap (D.step_1_2 s))) ["security"; k]
         = H.valueForSegments (H.userConfig (D._configMap s)) ["security"; k].
Proof.
  intros Hc. unfold D.step_1_2.
  destruct (H.valueForKeyPath _ _) as [v|]; [|by split; [apply sameButUser_refl|]].
  destruct (Variant.canConvertString v); [|by split; [apply sameButUser_refl|]].
  cbv zeta.
  change (H.setValueForKeyPath ?m D.BASIC_AUTH_PASSWORD_KEY_PATH ?x)
    with (H.setForSegments m ["security"; "http_password"] x).
  set (u := H.setForSegments _ _ _).
  destruct (persistAndReload_user s u) as (Hs & Hco & Hu).
  split; [done|]. split; [done|]. intros k H0 H1 H2.
  rewrite Hu, sortUser_other by done. subst u. by rewrite valueFor2_set_ne.
Qed.

End configuration_steps.

(** ** The [< 1.4] step *)
Section permissions_step.

Lemma step_1_4_eq (s : D.t) :
  let isRestrictedAccess :=
    Variant.toBool (D.valueOrDefaultValueForKeyPath s D.RESTRICTED_ACCESS_SETTINGS_KEYPATH) in
  let allowedUsers :=
    Variant.toStringList (D.valueOrDefaultValueForKeyPath s D.ALLOWED_USERS_SETTINGS_KEYPATH) in
  let allowedEditors :=
    Variant.toStringList
      (D.valueOrDefaultValueForKeyPath s D.ALLOWED_EDITORS_SETTINGS_KEYPATH) in
  let onlyEditorsAreRezzers :=
    Variant.toBool (D.valueOrDefaultValueForKeyPath s D.EDITORS_ARE_REZZERS_KEYPATH) in
  D.step_1_4 s
  = D.setAgentPermissions
      (D.setStandardAgentPermissions
         (D.packPermissions
            (D.setAgentPermissions
               (D.setStandardAgentPermissions s
                  (migratedStandard isRestrictedAccess onlyEditorsAreRezzers
                     (D._standardAgentPermissions s)))
               (migratedAgents isRestrictedAccess onlyEditorsAreRezzers
                  allowedUsers allowedEditors (D._agentPermissions s))))
         ∅) ∅.
Proof. reflexivity. Qed.

Lemma lowerKeys_assign (m : NPM.t) (k : NodePermissionsKey) (e : NP.t) :
  lowerKeys m → lowerKeys (NPM.assign m k e).
Proof.
  intros Hm k' Hk'. unfold NPM.assign in Hk'.
  destruct (decide (NPM.dataKey k = k')) as [<-|Hne]; [apply dataKey_idemp|].
  rewrite lookup_insert_ne in Hk' by done. by apply Hm.
Qed.

Lemma lowerKeys_update (m : NPM.t) (k : NodePermissionsKey) (f : NP.t → NP.t) :
  lowerKeys m → lowerKeys (NPM.update m k f).
Proof.
  intros Hm k' Hk'. unfold NPM.update in Hk'.
  pose proof (subscript_lowerKeys m k Hm) as Hs.
  destruct (NPM.subscript m k) as [m' e]. cbn [fst] in Hs.
  destruct (decide (NPM.dataKey k = k')) as [<-|Hne]; [apply dataKey_idemp|].
  rewrite lookup_insert_ne in Hk' by done. by apply Hs.
Qed.

Lemma lowerKeys_fmap (m : NPM.t) (f : NP.t → NP.t) : lowerKeys m → lowerKeys (f <$> m).
Proof.
  intros Hm k Hk. apply Hm. rewrite lookup_fmap in Hk. by apply fmap_is_Some in Hk.
Qed.

Lemma migratedStandard_lower (r b : bool) (sm : NPM.t) :
  lowerKeys sm → lowerKeys (migratedStandard r b sm).
Proof.
  intros Hm. unfold migratedStandard. apply lowerKeys_fmap.
  destruct r; repeat first [apply lowerKeys_update | apply lowerKeys_assign]; done.
Qed.

Lemma allowUser_lower (am : NPM.t) (u : string) : lowerKeys am → lowerKeys (allowUser am u).
Proof. intros Hm. by apply lowerKeys_update, lowerKeys_assign. Qed.

Lemma allowEditor_lower (r : bool) (am : NPM.t) (u : string) :
  lowerKeys am → lowerKeys (allowEditor r am u).
Proof.
  intros Hm. unfold allowEditor. apply lowerKeys_update.
  destruct (negb _); [|done]. destruct r; [apply lowerKeys_update|]; by apply lowerKeys_assign.
Qed.

Lemma migratedAgents_lower (r b : bool) (us eds : list string) (am : NPM.t) :
  lowerKeys am → lowerKeys (migratedAgents r b us eds am).
Proof.
  intros Hm. unfold migratedAgents. apply lowerKeys_fmap.
  assert (Hu : lowerKeys (foldl allowUser am us)).
  { revert am Hm. induction us as [|u us IH]; intros am Hm; [done|].
    cbn [foldl]. by apply IH, allowUser_lower. }
  revert Hu. generalize (foldl allowUser am us). clear.
  induction eds as [|u eds IH]; intros am Hm; [done|].
  cbn [foldl]. by apply IH, allowEditor_lower.
Qed.

End permissions_step.

Section migrated_sets.

Lemma unionOf_testbit (ps : list Z) (i : Z) :
  0 ≤ i → Z.testbit (unionOf ps) i = existsb (fun p => Z.testbit p i) ps.
Proof.
  intros Hi. induction ps as [|p ps IH]; [apply Z.bits_0|].
  rewrite unionOf_cons, Z.lor_spec, IH. reflexivity.
Qed.

Lemma can_connect (e : NP.t) :
  NP.can e NP.canConnectToDomain = Z.testbit (NP.permissions e) 0.
Proof.
  unfold NP.can. cbn [NP.bit].
  change 1 with (2 ^ 0) at 1. rewrite land_pow2 by done.
  destruct (Z.testbit (NP.permissions e) 0); reflexivity.
Qed.

(** With restricted access the records of the three guest roles grant no
    connect capability, and each of the three has a record. *)
Lemma migratedStandard_rows (b : bool) (s : D.t) (r : NodePermissionsKey) :
  r ∈ guestRoles →
  (∃ v, v ∈ rowsOf s (migratedStandard true b ∅) ∧ keyOf Standard v = r)
  ∧ ∀ v, v ∈ rowsOf s (migratedStandard true b ∅) → keyOf Standard v = r →
         Z.testbit (NP.permissions (entryOf v)) 0 = false.
Proof.
  intros Hr. unfold guestRoles in Hr. rewrite !elem_of_cons, elem_of_nil in Hr.
  remember (rowsOf s (migratedStandard true b ∅)) as L eqn:HL.
  destruct b; vm_compute in HL; subst L.
  all: split;
    [ destruct Hr as [->|[->|[->|[]]]];
      first
        [ by eexists; split; [apply list_elem_of_here|]
        | by eexists; split; [apply list_elem_of_further, list_elem_of_here|]
        | by eexists; split; [do 2 apply list_elem_of_further; apply list_elem_of_here|]
        | by eexists; split; [do 3 apply list_elem_of_further; apply list_elem_of_here|] ]
    | intros v Hv Hk; rewrite !elem_of_cons, elem_of_nil in Hv;
      destruct Hv as [->|[->|[->|[->|[]]]]];
      destruct Hr as [->|[->|[->|[]]]];
      first [ discriminate Hk | reflexivity ] ].
Qed.

Lemma allowUser_lookup (am : NPM.t) (u : string) (k : NodePermissionsKey) :
  allowUser am u !! k
  = if decide (NPM.dataKey (u, 0) = k)
    then Some (NP.set (NP.fromName u) NP.canConnectToDomain)
    else am !! k.
Proof.
  unfold allowUser, NPM.update, NPM.assign, NPM.subscript.
  rewrite lookup_insert_eq.
  case_decide as Hk; [subst; by rewrite lookup_insert_eq|].
  by rewrite !lookup_insert_ne.
Qed.

Lemma update_lookup (m : NPM.t) (k k' : NodePermissionsKey) (f : NP.t → NP.t) :
  NPM.update m k f !! k'
  = if decide (NPM.dataKey k = k')
    then Some (f (default (NP.fromKey k) (m !! NPM.dataKey k)))
    else m !! k'.
Proof.
  unfold NPM.update, NPM.subscript.
  destruct (m !! NPM.dataKey k) as [e|] eqn:He; cbn [default].
  - case_decide as Hk; [subst; by rewrite lookup_insert_eq | by rewrite lookup_insert_ne].
  - case_decide as Hk; [subst; by rewrite lookup_insert_eq | by rewrite !lookup_insert_ne].
Qed.

Lemma allowUser_admits (am : NPM.t) (u name : string) :
  u = name ∨ admitted name am → admitted name (allowUser am u).
Proof.
  intros Hc. unfold admitted. rewrite allowUser_lookup. unfold NPM.dataKey. cbn [fst snd].
  case_decide as Hk.
  - eexists. split; [done|]. injection Hk as Hk. split; [by cbn|]. reflexivity.
  - destruct Hc as [->|Hc]; [done|]. exact Hc.
Qed.

Lemma allowEditor_admits (r : bool) (am : NPM.t) (u name : string) :
  admitted name am → admitted name (allowEditor r am u).
Proof.
  intros (e & He & Hid & Hbit). unfold admitted, allowEditor.
  rewrite update_lookup. unfold NPM.contains, NPM.dataKey. cbn [fst snd].
  destruct (decide ((QStr.toLower u, 0) = (QStr.toLower name, 0))) as [Hk|Hk].
  - rewrite Hk, He. rewrite bool_decide_eq_true_2 by (by eexists). cbn [negb].
    rewrite He. cbn [default]. eexists. split; [done|]. split; [done|].
    change (Z.testbit (Z.lor (NP.permissions e) 2) 0 = true).
    rewrite Z.lor_spec, Hbit. done.
  - destruct (negb _).
    + destruct r; rewrite ?update_lookup; unfold NPM.assign, NPM.dataKey; cbn [fst snd];
        rewrite ?decide_False by done; rewrite lookup_insert_ne by done; eauto.
    + eauto.
Qed.

Lemma rezPolicy_keeps (b : bool) (e : NP.t) :
  NP._id (D.rezPolicy b e) = NP._id e
  ∧ Z.testbit (NP.permissions (D.rezPolicy b e)) 0 = Z.testbit (NP.permissions e) 0.
Proof.
  assert (Hg : Z.testbit (Z.lor (Z.lor (NP.permissions e) 4) 8) 0
               = Z.testbit (NP.permissions e) 0).
  { rewrite !Z.lor_spec. change (Z.testbit 4 0) with false. change (Z.testbit 8 0) with false.
    by rewrite !orb_false_r. }
  assert (Hd : Z.testbit (Z.land (Z.land (NP.permissions e) (Z.lnot 4)) (Z.lnot 8)) 0
               = Z.testbit (NP.permissions e) 0).
  { rewrite !Z.land_spec. change (Z.testbit (Z.lnot 4) 0) with true.
    change (Z.testbit (Z.lnot 8) 0) with true. by rewrite !andb_true_r. }
  unfold D.rezPolicy. destruct b; [destruct (NP.can e NP.canAdjustLocks)|];
    (split; [done|]); first [exact Hg | exact Hd].
Qed.

Lemma migratedAgents_admits (r b : bool) (us eds : list string) (am : NPM.t) (name : string) :
  name ∈ us → admitted name (migratedAgents r b us eds am).
Proof.
  intros Hin.
  assert (Hu : admitted name (foldl allowUser am us)).
  { assert (Hgen : ∀ am, name ∈ us ∨ admitted name am → admitted name (foldl allowUser am us)).
    { clear. induction us as [|u us IH]; intros am Hc.
      - destruct Hc as [Hc|Hc]; [by apply elem_of_nil in Hc|done].
      - cbn [foldl]. apply IH. destruct (decide (u = name)) as [->|Hne].
        + right. apply allowUser_admits. by left.
        + destruct Hc as [Hc|Hc].
          * apply elem_of_cons in Hc as [->|Hc]; [done|by left].
          * right. apply allowUser_admits. by right. }
    apply Hgen. by left. }
  unfold migratedAgents. revert Hu. generalize (foldl allowUser am us). clear.
  intros am Hu.
  assert (He : admitted name (foldl (allowEditor r) am eds)).
  { revert am Hu. induction eds as [|u eds IH]; intros am Hu; [done|].
    cbn [foldl]. by apply IH, allowEditor_admits. }
  destruct He as (e & He & Hid & Hbit). exists (D.rezPolicy b e).
  rewrite lookup_fmap, He. destruct (rezPolicy_keeps b e) as [-> ->]. done.
Qed.

End migrated_sets.

Section migration_scenario.

Lemma listKeyOf_cases (k : string) :
  (∀ c, k ≠ listKeyOf c) →
  k ≠ "standard_permissions" ∧ k ≠ "permissions"
  ∧ k ≠ "group_permissions" ∧ k ≠ "group_forbiddens".
Proof.
  intros Hk. repeat split.
  - apply (Hk Standard).
  - apply (Hk Named).
  - apply (Hk Grouped).
  - apply (Hk Forbidden).
Qed.

Lemma packedUser_other (s : D.t) (k : string) :
  (∀ c, k ≠ listKeyOf c) →
  H.valueForSegments (packedUser s) ["security"; k]
  = H.valueForSegments (H.userConfig (D._configMap s)) ["security"; k].
Proof.
  intros Hk. apply listKeyOf_cases in Hk as (H1 & H2 & H3 & H4).
  rewrite packedUser_eq. by rewrite !put2_value_ne.
Qed.

Lemma sortUser_setting (u : QVariantMap) (k : string) :
  (∀ c, k ≠ listKeyOf c) →
  H.valueForSegments (D.sortUser u) ["security"; k] = H.valueForSegments u ["security"; k].
Proof.
  intros Hk. apply listKeyOf_cases in Hk as (H1 & H2 & H3 & H4).
  apply sortUser_other; congruence.
Qed.

Lemma sortAt2_listAt2 (u : QVariantMap) (g k g' k' : string) :
  listAt2 (sortAt2 u g k) g' k' ≡ₚ listAt2 u g' k'.
Proof.
  unfold listAt2. destruct (decide ((g, k) = (g', k'))) as [[= <- <-]|Hne].
  - unfold sortAt2. destruct (H.valueForSegments u [g; k]) as [v|] eqn:Hv; [|by rewrite Hv].
    destruct v; try by rewrite Hv.
    rewrite valueFor2_set_eq. cbn [Variant.toList]. apply stdSort_perm.
  - by rewrite sortAt2_other.
Qed.

Lemma sortUser_lists (u : QVariantMap) (c : Category) :
  listAt2 (D.sortUser u) "security" (listKeyOf c) ≡ₚ listAt2 u "security" (listKeyOf c).
Proof. rewrite sortUser_eq. by rewrite !sortAt2_listAt2. Qed.

(** After the [< 1.4] step the stored lists hold the records of the sets it
    built, and the other settings of the ["security"] group are as before. *)
Lemma step_1_4_stored (s : D.t) :
  (∀ c, lowerKeys (setOf c s)) →
  let sP :=
    D.setAgentPermissions
      (D.setStandardAgentPermissions s
         (migratedStandard
            (Variant.toBool
               (D.valueOrDefaultValueForKeyPath s D.RESTRICTED_ACCESS_SETTINGS_KEYPATH))
            (Variant.toBool
               (D.valueOrDefaultValueForKeyPath s D.EDITORS_ARE_REZZERS_KEYPATH))
            (D._standardAgentPermissions s)))
      (migratedAgents
         (Variant.toBool
            (D.valueOrDefaultValueForKeyPath s D.RESTRICTED_ACCESS_SETTINGS_KEYPATH))
         (Variant.toBool (D.valueOrDefaultValueForKeyPath s D.EDITORS_ARE_REZZERS_KEYPATH))
         (Variant.toStringList
            (D.valueOrDefaultValueForKeyPath s D.ALLOWED_USERS_SETTINGS_KEYPATH))
         (Variant.toStringList
            (D.valueOrDefaultValueForKeyPath s D.ALLOWED_EDITORS_SETTINGS_KEYPATH))
         (D._agentPermissions s)) in
  (∀ c, storedList (D.step_1_4 s) (keyPathOf c) ≡ₚ rowsOf sP (setOf c sP))
  ∧ (∀ k, (∀ c, k ≠ listKeyOf c) →
          H.valueForSegments (H.userConfig (D._configMap (D.step_1_4 s))) ["security"; k]
          = H.valueForSegments (H.userConfig (D._configMap s)) ["security"; k]).
Proof.
  intros Hlow sP. rewrite step_1_4_eq. cbv zeta. fold sP.
  assert (HlowP : ∀ c, lowerKeys (setOf c sP)).
  { intros [| | |]; cbn [setOf sP D._standardAgentPermissions D._agentPermissions
                         D._groupPermissions D._groupForbiddens
                         D.setAgentPermissions D.setStandardAgentPermissions].
    - apply migratedStandard_lower, (Hlow Standard).
    - apply migratedAgents_lower, (Hlow Named).
    - apply (Hlow Grouped).
    - apply (Hlow Forbidden). }
  split.
  - intros c.
    change (storedList (D.setAgentPermissions (D.setStandardAgentPermissions
                          (D.packPermissions sP) ∅) ∅) (keyPathOf c))
      with (storedList (D.packPermissions sP) (keyPathOf c)).
    by apply stored_after_pack.
  - intros k Hk.
    change (H.userConfig (D._configMap (D.setAgentPermissions (D.setStandardAgentPermissions
                          (D.packPermissions sP) ∅) ∅)))
      with (H.userConfig (D._configMap (D.packPermissions sP))).
    rewrite packPermissions_eq by (apply (HlowP Standard) || apply (HlowP Named)
                                   || apply (HlowP Grouped) || apply (HlowP Forbidden)).
    rewrite userConfig_persisted, sortUser_setting, packedUser_other by done.
    reflexivity.
Qed.

Lemma createKeyPath_other (u : QVariantMap) (g x k : string) :
  QStr.split (g +:+ "." +:+ x) = [g; x] → g ≠ "security" →
  H.valueForSegments (H.createKeyPath u (g +:+ "." +:+ x)) ["security"; k]
  = H.valueForSegments u ["security"; k].
Proof.
  intros Hs Hg. unfold H.createKeyPath, H.valueForKeyPath, H.setValueForKeyPath. rewrite Hs.
  destruct (H.valueForSegments u [g; x]); [done|]. by rewrite valueFor2_set_other.
Qed.

Lemma setValueForKeyPath_other (u : QVariantMap) (g x k : string) (v : QVariant) :
  QStr.split (g +:+ "." +:+ x) = [g; x] → g ≠ "security" →
  H.valueForSegments (H.setValueForKeyPath u (g +:+ "." +:+ x) v) ["security"; k]
  = H.valueForSegments u ["security"; k].
Proof.
  intros Hs Hg. unfold H.setValueForKeyPath. rewrite Hs. by rewrite valueFor2_set_other.
Qed.

(** The [< 1.5] step writes under ["descriptors"] only, and may sort the
    stored lists. *)
Lemma validateDescriptorsMap_user (offset : Z) (s : D.t) :
  ∃ u', (∀ k, H.valueForSegments u' ["security"; k]
              = H.valueForSegments (H.userConfig (D._configMap s)) ["security"; k])
        ∧ (H.userConfig (D._configMap (D.validateDescriptorsMap offset s)) = u'
           ∨ H.userConfig (D._configMap (D.validateDescriptorsMap offset s)) = D.sortUser u').
Proof.
  unfold D.validateDescriptorsMap. cbv zeta.
  set (u1 := H.createKeyPath (H.userConfig (D._configMap s)) "descriptors.weekday_hours").
  set (u2 := H.createKeyPath u1 "descriptors.weekend_hours").
  set (u3 := H.createKeyPath u2 "descriptors.utc_offset").
  set (m1 := Variant.isNull (default VInvalid (H.valueForKeyPath u3 "descriptors.weekday_hours"))).
  set (u4 := if m1 then H.setValueForKeyPath u3 "descriptors.weekday_hours" D.DEFAULT_HOURS
             else u3).
  set (m2 := Variant.isNull (default VInvalid (H.valueForKeyPath u4 "descriptors.weekend_hours"))).
  set (u5 := if m2 then H.setValueForKeyPath u4 "descriptors.weekend_hours" D.DEFAULT_HOURS
             else u4).
  set (m3 := Variant.isNull (default VInvalid (H.valueForKeyPath u5 "descriptors.utc_offset"))).
  set (u6 := if m3 then H.setValueForKeyPath u5 "descriptors.utc_offset"
                         (VDouble (offset # 3600)) else u5).
  exists u6. split.
  - intros k. subst u6 u5 u4 u3 u2 u1.
    destruct m3, m2, m1;
      rewrite ?(setValueForKeyPath_other _ "descriptors" "utc_offset") by done;
      rewrite ?(setValueForKeyPath_other _ "descriptors" "weekend_hours") by done;
      rewrite ?(setValueForKeyPath_other _ "descriptors" "weekday_hours") by done;
      rewrite (createKeyPath_other _ "descriptors" "utc_offset") by done;
      rewrite (createKeyPath_other _ "descriptors" "weekend_hours") by done;
      rewrite (createKeyPath_other _ "descriptors" "weekday_hours") by done;
      reflexivity.
  - destruct (m1 || m2 || m3); [right|left]; reflexivity.
Qed.

Lemma validateDescriptorsMap_frame (offset : Z) (s : D.t) :
  (∀ c, storedList (D.validateDescriptorsMap offset s) (keyPathOf c)
        ≡ₚ storedList s (keyPathOf c))
  ∧ (∀ k, (∀ c, k ≠ listKeyOf c) →
          H.valueForSegments (H.userConfig (D._configMap (D.validateDescriptorsMap offset s)))
            ["security"; k]
          = H.valueForSegments (H.userConfig (D._configMap s)) ["security"; k]).
Proof.
  destruct (validateDescriptorsMap_user offset s) as (u' & Hu' & Hcase).
  assert (Hl : ∀ c, listAt2 u' "security" (listKeyOf c)
                    = listAt2 (H.userConfig (D._configMap s)) "security" (listKeyOf c)).
  { intros c. unfold listAt2. by rewrite Hu'. }
  split.
  - intros c. rewrite !storedList_eq. destruct Hcase as [-> | ->].
    + by rewrite Hl.
    + by rewrite sortUser_lists, Hl.
  - intros k Hk. destruct Hcase as [-> | ->].
    + apply Hu'.
    + by rewrite sortUser_setting.
Qed.

(** [unpackPermissions] leaves the other settings of the ["security"] group
    alone. *)
Lemma unpackPermissions_setting (s : D.t) (k : string) :
  (∀ c, k ≠ listKeyOf c) →
  H.valueForSegments (H.userConfig (D._configMap (D.unpackPermissions s))) ["security"; k]
  = H.valueForSegments (H.userConfig (D._configMap s)) ["security"; k].
Proof.
  intros Hk. destruct (unpackPermissionsCore_facts s) as (Hlow & _ & _ & _ & _ & _ & _ & Hc).
  assert (He : H.valueForSegments (ensureAll (H.userConfig (D._configMap s))) ["security"; k]
               = H.valueForSegments (H.userConfig (D._configMap s)) ["security"; k]).
  { pose proof (listKeyOf_cases k Hk) as (H1 & H2 & H3 & H4). unfold ensureAll.
    change (D.ensureList ?x AGENT_STANDARD_PERMISSIONS_KEYPATH)
      with (ensureList2 x "security" "standard_permissions").
    change (D.ensureList ?x AGENT_PERMISSIONS_KEYPATH)
      with (ensureList2 x "security" "permissions").
    change (D.ensureList ?x GROUP_PERMISSIONS_KEYPATH)
      with (ensureList2 x "security" "group_permissions").
    change (D.ensureList ?x GROUP_FORBIDDENS_KEYPATH)
      with (ensureList2 x "security" "group_forbiddens").
    by rewrite !ensureList2_value_ne. }
  rewrite unpackPermissions_unfold. destruct (D.unpackPermissionsCore s).2.
  - rewrite packPermissions_eq by (apply (Hlow Standard) || apply (Hlow Named)
                                   || apply (Hlow Grouped) || apply (Hlow Forbidden)).
    rewrite userConfig_persisted, sortUser_setting, packedUser_other by done.
    rewrite Hc. exact He.
  - rewrite Hc. exact He.
Qed.

End migration_scenario.

Section migration_scenario_parts.

Lemma setupConfigMap_from_zero (offset : Z) (s : D.t) :
  D._descriptionVersion s = 15 # 10 →
  (D.setupConfigMap offset 0 s).1
  = D.unpackPermissions
      (D.validateDescriptorsMap offset
         (D.step_1_4 (D.step_1_2 (D.step_1_1 (D.step_1_0 s))))).
Proof. intros Hv. unfold D.setupConfigMap. rewrite Hv. reflexivity. Qed.

Lemma valueOrDefault_found (s : D.t) (g k : string) (v : QVariant) :
  QStr.split (g +:+ "." +:+ k) = [g; k] →
  consistent s →
  H.valueForSegments (H.userConfig (D._configMap s)) [g; k] = Some v →
  Variant.canConvertMap v = false →
  D.valueOrDefaultValueForKeyPath s (g +:+ "." +:+ k) = v.
Proof.
  intros Hs Hc Hv Hm. unfold D.valueOrDefaultValueForKeyPath, H.valueForKeyPath.
  rewrite Hs, Hc. by rewrite (merge_user_wins _ _ _ _ _ Hv Hm).
Qed.

(** The steps before [< 1.4], run on a user map with an allow-list. *)
Lemma migration_prefix (s : D.t) (l : QVariantList) :
  consistent s →
  H.valueForSegments (H.userConfig (D._configMap s)) ["security"; "allowed_users"]
  = Some (VList l) →
  l ≠ [] →
  let s3 := D.step_1_2 (D.step_1_1 (D.step_1_0 s)) in
  permissionSets s3 = permissionSets s
  ∧ consistent s3
  ∧ H.valueForSegments (H.userConfig (D._configMap s3)) ["security"; "restricted_access"]
    = Some (VBool true)
  ∧ H.valueForSegments (H.userConfig (D._configMap s3)) ["security"; "allowed_users"]
    = Some (VList l).
Proof.
  intros Hcons Hlist Hne.
  assert (Hm0 : H.valueForSegments (H.mergedConfig (D._configMap s))
                  ["security"; "allowed_users"] = Some (VList l)).
  { rewrite Hcons. by apply merge_user_wins. }
  rewrite (step_1_0_fires s l Hm0 Hne).
  generalize (persistAndReload_user s
    (H.setForSegments (H.userConfig (D._configMap s)) ["security"; "restricted_access"]
       (VBool true))).
  cbv zeta.
  generalize (D.persistAndReload (D.setUserConfig s
    (H.setForSegments (H.userConfig (D._configMap s)) ["security"; "restricted_access"]
       (VBool true)))).
  intros s1 (S1 & C1 & U1).
  generalize (step_1_1_frame s1 C1). generalize (D.step_1_1 s1). intros s2 (S2 & C2 & U2).
  generalize (step_1_2_frame s2 C2). generalize (D.step_1_2 s2). intros s3 (S3 & C3 & U3).
  assert (Hu3 : ∀ k, k ≠ "http_password" → (∀ c, k ≠ listKeyOf c) →
                H.valueForSegments (H.userConfig (D._configMap s3)) ["security"; k]
                = H.valueForSegments
                    (H.setForSegments (H.userConfig (D._configMap s))
                       ["security"; "restricted_access"] (VBool true)) ["security"; k]).
  { intros k Hp Hk. pose proof (listKeyOf_cases k Hk) as (H1 & H2 & _).
    rewrite U3, U2, U1 by congruence. apply sortUser_setting, Hk. }
  split; [|split; [done|split]].
  - destruct S1 as (_ & _ & _ & E1 & _). destruct S2 as (_ & _ & _ & E2 & _).
    destruct S3 as (_ & _ & _ & E3 & _). congruence.
  - rewrite Hu3; [|done|by intros []]. apply valueFor2_set_eq.
  - rewrite Hu3; [|done|by intros []]. by rewrite valueFor2_set_ne.
Qed.

Lemma step_1_4_with (s : D.t) (r b : bool) (us eds : list string) :
  Variant.toBool (D.valueOrDefaultValueForKeyPath s D.RESTRICTED_ACCESS_SETTINGS_KEYPATH) = r →
  Variant.toStringList (D.valueOrDefaultValueForKeyPath s D.ALLOWED_USERS_SETTINGS_KEYPATH)
  = us →
  Variant.toStringList (D.valueOrDefaultValueForKeyPath s D.ALLOWED_EDITORS_SETTINGS_KEYPATH)
  = eds →
  Variant.toBool (D.valueOrDefaultValueForKeyPath s D.EDITORS_ARE_REZZERS_KEYPATH) = b →
  D._standardAgentPermissions s = ∅ → D._agentPermissions s = ∅ →
  (∀ c, lowerKeys (setOf c s)) →
  ∃ sP,
    storedList (D.step_1_4 s) AGENT_STANDARD_PERMISSIONS_KEYPATH
    ≡ₚ rowsOf sP (migratedStandard r b ∅)
    ∧ storedList (D.step_1_4 s) AGENT_PERMISSIONS_KEYPATH
      ≡ₚ rowsOf sP (migratedAgents r b us eds ∅)
    ∧ (∀ k, (∀ c, k ≠ listKeyOf c) →
            H.valueForSegments (H.userConfig (D._configMap (D.step_1_4 s))) ["security"; k]
            = H.valueForSegments (H.userConfig (D._configMap s)) ["security"; k]).
Proof.
  intros <- <- <- <- Hs Ha Hlow.
  pose proof (step_1_4_stored s Hlow) as Hst. cbv zeta in Hst.
  rewrite Hs, Ha in Hst. destruct Hst as [L U].
  eexists. split; [exact (L Standard)|]. split; [exact (L Named)|exact U].
Qed.

(** A name whose record in the stored list grants the connect capability
    can connect after [unpackPermissions]. *)
Lemma named_connects (s : D.t) (sP : D.t) (m : NPM.t) (name : string) :
  storedList s AGENT_PERMISSIONS_KEYPATH ≡ₚ rowsOf sP m →
  admitted name m →
  NP.can (D.getPermissionsForName (D.unpackPermissions s) name) NP.canConnectToDomain = true.
Proof.
  intros L (e & He & Hid & Hbit).
  destruct (unpackPermissionsCore_facts s) as (_ & Hview & _).
  assert (Hkey : keyOf Named (rowOf sP e) = (QStr.toLower name, 0)).
  { unfold keyOf. rewrite entryOf_rowOf. unfold reread, NP.getID. cbn [NP._id].
    by rewrite Hid, toLower_idemp. }
  assert (Hrow : rowOf sP e ∈ storedUnder Named s (QStr.toLower name, 0)).
  { unfold storedUnder. apply list_elem_of_filter. split; [done|].
    cbn [keyPathOf]. rewrite L. unfold rowsOf. apply list_elem_of_fmap.
    exists ((QStr.toLower name, 0), e). split; [done|]. by apply elem_of_map_to_list. }
  assert (Hne : storedUnder Named s (QStr.toLower name, 0) ≠ []).
  { intros Hn. rewrite Hn in Hrow. by apply elem_of_nil in Hrow. }
  specialize (Hview Named _ Hne).
  rewrite <- (unpackPermissions_setOf s Named) in Hview. cbn [setOf] in Hview.
  rewrite permsView_lookup in Hview.
  unfold D.getPermissionsForName, NPM.at_, NPM.dataKey. cbn [fst snd].
  destruct (D._agentPermissions (D.unpackPermissions s) !! (QStr.toLower name, 0))
    as [e'|]; [|done].
  cbn [default id]. rewrite can_connect.
  cbn [fmap option_fmap option_map] in Hview.
  apply (f_equal (default 0)) in Hview. cbn [default id] in Hview. rewrite Hview.
  rewrite unionOf_testbit by done. apply existsb_exists.
  exists (NP.permissions (entryOf (rowOf sP e))). split.
  - apply list_elem_of_In, list_elem_of_fmap. by exists (rowOf sP e).
  - rewrite entryOf_rowOf. unfold reread. cbn [NP.permissions].
    rewrite Z.land_spec, Hbit. reflexivity.
Qed.

(** A standard role all of whose records withhold the connect capability
    cannot connect after [unpackPermissions]. *)
Lemma role_denied (s : D.t) (rows : QVariantList) (role : NodePermissionsKey) :
  storedList s AGENT_STANDARD_PERMISSIONS_KEYPATH ≡ₚ rows →
  NPM.dataKey role = role →
  (∃ v, v ∈ rows ∧ keyOf Standard v = role) →
  (∀ v, v ∈ rows → keyOf Standard v = role →
        Z.testbit (NP.permissions (entryOf v)) 0 = false) →
  NP.can (D.getStandardPermissionsForName (D.unpackPermissions s) role)
         NP.canConnectToDomain = false.
Proof.
  intros L Hdk (v & Hv & Hkv) Hnone.
  destruct (unpackPermissionsCore_facts s) as (_ & Hview & _).
  assert (Hin : v ∈ storedUnder Standard s role).
  { unfold storedUnder. apply list_elem_of_filter. split; [done|]. cbn [keyPathOf].
    by rewrite L. }
  assert (Hne : storedUnder Standard s role ≠ []).
  { intros Hn. rewrite Hn in Hin. by apply elem_of_nil in Hin. }
  specialize (Hview Standard role Hne).
  rewrite <- (unpackPermissions_setOf s Standard) in Hview. cbn [setOf] in Hview.
  rewrite permsView_lookup in Hview.
  unfold D.getStandardPermissionsForName, NPM.at_. rewrite Hdk.
  destruct (D._standardAgentPermissions (D.unpackPermissions s) !! role) as [e'|]; [|done].
  cbn [default id]. rewrite can_connect.
  cbn [fmap option_fmap option_map] in Hview.
  apply (f_equal (default 0)) in Hview. cbn [default id] in Hview. rewrite Hview.
  rewrite unionOf_testbit by done.
  apply not_true_is_false. intros Hex. apply existsb_exists in Hex as (p & Hp & Hbit).
  apply list_elem_of_In, list_elem_of_fmap in Hp as (w & -> & Hw).
  unfold storedUnder in Hw. apply list_elem_of_filter in Hw as [Hkw Hw].
  cbn [keyPathOf] in Hw. rewrite L in Hw. cbn [compose] in Hbit.
  rewrite (Hnone w Hw Hkw) in Hbit. done.
Qed.

End migration_scenario_parts.

(** C5: starting from the stored version 0.0 with the target version 1.5 and
    an allow-list in the user map, the migration leaves every name of the
    allow-list with the connect capability, sets the restricted-access flag
    of the user map to true, and leaves anonymous, logged-in and friends
    without the connect capability. *)
Theorem C5_allow_list_migration (offset : Z) (s : D.t) (l : QVariantList) (name : string) :
  D._descriptionVersion s = 15 # 10 →
  consistent s →
  permissionSets s = (∅, ∅, ∅, ∅) →
  H.valueForSegments (H.userConfig (D._configMap s)) ["security"; "allowed_users"]
  = Some (VList l) →
  name ∈ Variant.toString <$> l →
  let s' := (D.setupConfigMap offset 0 s).1 in
  NP.can (D.getPermissionsForName s' name) NP.canConnectToDomain = true
  ∧ H.valueForSegments (H.userConfig (D._configMap s')) ["security"; "restricted_access"]
    = Some (VBool true)
  ∧ ∀ role, role ∈ guestRoles →
            NP.can (D.getStandardPermissionsForName s' role) NP.canConnectToDomain = false.
Proof.
  intros Hver Hcons Hsets Hlist Hname s'. subst s'.
  rewrite setupConfigMap_from_zero by done.
  assert (Hne : l ≠ []) by (intros ->; by apply elem_of_nil in Hname).
  generalize (migration_prefix s l Hcons Hlist Hne). cbv zeta.
  generalize (D.step_1_2 (D.step_1_1 (D.step_1_0 s))).
  intros s3 (Hsets3 & C3 & Hra3 & Hal3).
  rewrite Hsets in Hsets3. injection Hsets3 as Hstd3 Hag3 Hgp3 Hgf3.
  assert (Hlow3 : ∀ c, lowerKeys (setOf c s3)).
  { intros [| | |]; cbn [setOf]; rewrite ?Hstd3, ?Hag3, ?Hgp3, ?Hgf3; apply lowerKeys_empty. }
  assert (Hra : D.valueOrDefaultValueForKeyPath s3 D.RESTRICTED_ACCESS_SETTINGS_KEYPATH
                = VBool true).
  { by apply (valueOrDefault_found s3 "security" "restricted_access"). }
  assert (Hal : D.valueOrDefaultValueForKeyPath s3 D.ALLOWED_USERS_SETTINGS_KEYPATH = VList l).
  { by apply (valueOrDefault_found s3 "security" "allowed_users"). }
  destruct (step_1_4_with s3 true
              (Variant.toBool
                 (D.valueOrDefaultValueForKeyPath s3 D.EDITORS_ARE_REZZERS_KEYPATH))
              (Variant.toString <$> l)
              (Variant.toStringList
                 (D.valueOrDefaultValueForKeyPath s3 D.ALLOWED_EDITORS_SETTINGS_KEYPATH)))
    as (sP & LS & LN & U4); [by rewrite Hra|by rewrite Hal|done..|].
  revert LS LN U4.
  generalize (Variant.toBool
                (D.valueOrDefaultValueForKeyPath s3 D.EDITORS_ARE_REZZERS_KEYPATH)).
  generalize (Variant.toStringList
                (D.valueOrDefaultValueForKeyPath s3 D.ALLOWED_EDITORS_SETTINGS_KEYPATH)).
  generalize (D.step_1_4 s3). intros s4 eds b LS LN U4.
  destruct (validateDescriptorsMap_frame offset s4) as (L5 & U5).
  revert L5 U5. generalize (D.validateDescriptorsMap offset s4). intros s5 L5 U5.
  split; [|split].
  - apply (named_connects s5 sP (migratedAgents true b (Variant.toString <$> l) eds ∅)).
    + by rewrite (L5 Named).
    + by apply migratedAgents_admits.
  - rewrite unpackPermissions_setting by (by intros []).
    rewrite U5 by (by intros []). rewrite U4 by (by intros []). exact Hra3.
  - intros role Hrole.
    destruct (migratedStandard_rows b sP role Hrole) as (Hsome & Hnone).
    apply (role_denied s5 (rowsOf sP (migratedStandard true b ∅))).
    + by rewrite (L5 Standard).
    + unfold guestRoles in Hrole. rewrite !elem_of_cons, elem_of_nil in Hrole.
      by destruct Hrole as [->|[->|[->|[]]]].
    + exact Hsome.
    + exact Hnone.
Qed.

Lemma C5_allow_list_witness :
  let s' := (D.setupConfigMap 0 0 Examples.legacyAllowList).1 in
  NP.can (D.getPermissionsForName s' "Alice") NP.canConnectToDomain = true
  ∧ H.valueForSegments (H.userConfig (D._configMap s')) ["security"; "restricted_access"]
    = Some (VBool true)
  ∧ ∀ role, role ∈ guestRoles →
            NP.can (D.getStandardPermissionsForName s' role) NP.canConnectToDomain = false.
Proof.
  apply (C5_allow_list_migration 0 Examples.legacyAllowList [VString "Alice"] "Alice").
  - reflexivity.
  - reflexivity.
  - reflexivity.
  - reflexivity.
  - vm_compute. apply list_elem_of_here.
Defined.

(** ** Sorting twice *)
Section sorting_twice.

Lemma ltb_asym (a b : string) : String.ltb a b = true → String.ltb b a = false.
Proof.
  unfold String.ltb. rewrite (String.compare_antisym a b).
  by destruct (String.compare b a).
Qed.

Lemma permissionVariantLessThan_asym (v1 v2 : QVariant) :
  permissionVariantLessThan v1 v2 = true → permissionVariantLessThan v2 v1 = false.
Proof.
  unfold permissionVariantLessThan, QStr.lt.
  rewrite (orb_comm (negb (Variant.canConvertMap v2))).
  destruct (negb (Variant.canConvertMap v1) || negb (Variant.canConvertMap v2));
    [apply ltb_asym|].
  rewrite (orb_comm (negb (Assoc.contains "permissions_id" (Variant.toMap v2)))).
  destruct (negb (Assoc.contains "permissions_id" (Variant.toMap v1))
            || negb (Assoc.contains "permissions_id" (Variant.toMap v2)));
    [apply ltb_asym|].
  rewrite (andb_comm (Assoc.contains "rank_name" (Variant.toMap v2))).
  destruct (Assoc.contains "rank_name" (Variant.toMap v1)
            && Assoc.contains "rank_name" (Variant.toMap v2)); cbn [andb].
  - case_bool_decide as H1; case_bool_decide as H2; try congruence; apply ltb_asym.
  - apply ltb_asym.
Qed.

Context {A : Type} (lessThan : A → A → bool).
Hypothesis asym : ∀ a b, lessThan a b = true → lessThan b a = false.





End sorting_twice.

Section sorting_the_user_map.




End sorting_the_user_map.

(** ** Running a configuration step twice *)
Section steps_twice.









(** After the [< 1.5] step the three descriptors are present. *)
Lemma validateDescriptorsMap_establishes (offset : Z) (s : D.t) (x : string) :
  x ∈ ["weekday_hours"; "weekend_hours"; "utc_offset"] →
  hasDescriptor (H.userConfig (D._configMap (D.validateDescriptorsMap offset s))) x.
Proof.
  intros Hx. unfold D.validateDescriptorsMap. cbv zeta.
  set (u1 := H.createKeyPath (H.userConfig (D._configMap s)) "descriptors.weekday_hours").
  set (u2 := H.createKeyPath u1 "descriptors.weekend_hours").
  set (u3 := H.createKeyPath u2 "descriptors.utc_offset").
  change (H.valueForKeyPath ?m "descriptors.weekday_hours")
    with (H.valueForSegments m ["descriptors"; "weekday_hours"]).
  change (H.valueForKeyPath ?m "descriptors.weekend_hours")
    with (H.valueForSegments m ["descriptors"; "weekend_hours"]).
  change (H.valueForKeyPath ?m "descriptors.utc_offset")
    with (H.valueForSegments m ["descriptors"; "utc_offset"]).
  change (H.setValueForKeyPath ?m "descriptors.weekday_hours" ?v)
    with (H.setForSegments m ["descriptors"; "weekday_hours"] v).
  change (H.setValueForKeyPath ?m "descriptors.weekend_hours" ?v)
    with (H.setForSegments m ["descriptors"; "weekend_hours"] v).
  change (H.setValueForKeyPath ?m "descriptors.utc_offset" ?v)
    with (H.setForSegments m ["descriptors"; "utc_offset"] v).
  set (m1 := Variant.isNull (default VInvalid (H.valueForSegments u3 ["descriptors"; "weekday_hours"]))).
  set (u4 := if m1 then H.setForSegments u3 ["descriptors"; "weekday_hours"] D.DEFAULT_HOURS
             else u3).
  set (m2 := Variant.isNull (default VInvalid (H.valueForSegments u4 ["descriptors"; "weekend_hours"]))).
  set (u5 := if m2 then H.setForSegments u4 ["descriptors"; "weekend_hours"] D.DEFAULT_HOURS
             else u4).
  set (m3 := Variant.isNull (default VInvalid (H.valueForSegments u5 ["descriptors"; "utc_offset"]))).
  set (u6 := if m3 then H.setForSegments u5 ["descriptors"; "utc_offset"]
                         (VDouble (offset # 3600)) else u5).
  assert (Hnn : ∀ (u : QVariantMap) (k : string),
            Variant.isNull (default VInvalid (H.valueForSegments u ["descriptors"; k])) = false →
            hasDescriptor u k).
  { intros u k Hn. unfold hasDescriptor.
    destruct (H.valueForSegments u ["descriptors"; k]) as [v|]; [by exists v|done]. }
  assert (H4 : hasDescriptor u4 "weekday_hours").
  { subst u4. destruct m1 eqn:E1; [|by apply Hnn].
    eexists. by rewrite valueFor2_set_eq. }
  assert (H5 : hasDescriptor u5 "weekday_hours" ∧ hasDescriptor u5 "weekend_hours").
  { subst u5. destruct m2 eqn:E2.
    - split.
      + unfold hasDescriptor. by rewrite valueFor2_set_ne.
      + eexists. by rewrite valueFor2_set_eq.
    - split; [done|by apply Hnn]. }
  assert (H6 : ∀ x, x ∈ ["weekday_hours"; "weekend_hours"; "utc_offset"] → hasDescriptor u6 x).
  { intros y Hy. rewrite !elem_of_cons, elem_of_nil in Hy. destruct H5 as [H5a H5b].
    subst u6. destruct m3 eqn:E3.
    - destruct Hy as [->|[->|[->|[]]]].
      + unfold hasDescriptor. by rewrite valueFor2_set_ne.
      + unfold hasDescriptor. by rewrite valueFor2_set_ne.
      + eexists. by rewrite valueFor2_set_eq.
    - destruct Hy as [->|[->|[->|[]]]]; [done|done|by apply Hnn]. }
  destruct (m1 || m2 || m3).
  - change (H.userConfig (D._configMap (D.persistAndReload (D.setUserConfig s u6))))
      with (D.sortUser u6).
    unfold hasDescriptor. rewrite sortUser_other by done. by apply H6.
  - by apply H6.
Qed.





End steps_twice.

(** ** The [< 1.4] step run twice *)
Section permissions_step_twice.










End permissions_step_twice.



(** * Further properties of the code *)

(** X1: a record written by [toVariant] for an entry that a record can hold
    in full reads back, through the constructor from a map, as that entry. *)
Theorem record_reads_back (e : NP.t) (rankNames : list string) :
  storable e → NP.fromMap (Variant.toMap (NP.toVariant e rankNames)) = e.
Proof.
  intros He. change (entryOf (NP.toVariant e rankNames) = e).
  rewrite fromMap_toVariant. by apply reread_storable.
Qed.

Lemma record_reads_back_witness :
  NP.fromMap (Variant.toMap
                (NP.toVariant (NP.set (NP.setGroupID (NP.fromKey ("pilots", 1)) Examples.pilotsID)
                                      NP.canAdjustLocks) ["owner"; "member"]))
  = NP.set (NP.setGroupID (NP.fromKey ("pilots", 1)) Examples.pilotsID) NP.canAdjustLocks.
Proof.
  apply record_reads_back. vm_compute. repeat split.
Defined.

(** X2: whatever the capability word of an entry, the record written for it
    reads back as an entry that answers [can] alike for each of the six
    capabilities. *)
Theorem record_keeps_capabilities (e : NP.t) (rankNames : list string) :
  Forall (fun p => NP.can (NP.fromMap (Variant.toMap (NP.toVariant e rankNames))) p
                   = NP.can e p) NP.capabilities.
Proof.
  change (NP.fromMap (Variant.toMap (NP.toVariant e rankNames)))
    with (entryOf (NP.toVariant e rankNames)).
  rewrite fromMap_toVariant. unfold NP.can, reread. cbn [NP.permissions].
  assert (Hb : ∀ b, Z.land 63 b = b →
            (Z.land (Z.land (NP.permissions e) 63) b =? b)
            = (Z.land (NP.permissions e) b =? b)).
  { intros b Hb. by rewrite <- Z.land_assoc, Hb. }
  unfold NP.capabilities. repeat constructor; cbn [NP.bit]; by rewrite Hb.
Qed.


(** X4: [permissionVariantLessThan] never orders two records both ways, and
    so never a record before itself. *)
Theorem permissionVariantLessThan_one_way (v1 v2 : QVariant) :
  permissionVariantLessThan v1 v2 && permissionVariantLessThan v2 v1 = false.
Proof.
  destruct (permissionVariantLessThan v1 v2) eqn:H12; [|done].
  by rewrite (permissionVariantLessThan_asym _ _ H12).
Qed.



(** X6: [packPermissions] changes none of the four permission sets whose
    keys are in lower case. *)
Theorem packPermissions_keeps_sets (s : D.t) :
  (∀ c, lowerKeys (setOf c s)) →
  permissionSets (D.packPermissions s) = permissionSets s.
Proof.
  intros Hlow. apply packPermissions_sets;
    [apply (Hlow Standard)|apply (Hlow Named)|apply (Hlow Grouped)|apply (Hlow Forbidden)].
Qed.

Lemma packPermissions_keeps_sets_witness :
  permissionSets (D.packPermissions Examples.pilotsInBothSets)
  = permissionSets Examples.pilotsInBothSets.
Proof.
  apply packPermissions_keeps_sets.
  intros [| | |]; cbn [setOf]; try apply lowerKeys_empty;
    intros k [e He]; unfold Examples.pilotsInBothSets in He;
    cbn [D._groupPermissions D._groupForbiddens] in He;
    apply lookup_singleton_Some in He as [<- _]; reflexivity.
Defined.

(** X7: after [packPermissions] each of the four stored lists holds exactly
    one record for each entry of its set. *)
Theorem packPermissions_stores_every_entry (s : D.t) (c : Category) :
  (∀ c, lowerKeys (setOf c s)) →
  storedList (D.packPermissions s) (keyPathOf c) ≡ₚ rowsOf s (setOf c s).
Proof. intros Hlow. by apply stored_after_pack. Qed.

Lemma packPermissions_stores_every_entry_witness :
  storedList (D.packPermissions Examples.pilotsInBothSets) (keyPathOf Forbidden)
  ≡ₚ rowsOf Examples.pilotsInBothSets (setOf Forbidden Examples.pilotsInBothSets).
Proof.
  apply packPermissions_stores_every_entry.
  intros [| | |]; cbn [setOf]; try apply lowerKeys_empty;
    intros k [e He]; unfold Examples.pilotsInBothSets in He;
    cbn [D._groupPermissions D._groupForbiddens] in He;
    apply lookup_singleton_Some in He as [<- _]; reflexivity.
Defined.

(** X8: [unpackPermissions] starts by clearing the four sets, so its result
    does not depend on what they held. *)
Theorem unpackPermissions_forgets_memory (s : D.t) (sets : NPM.t * NPM.t * NPM.t * NPM.t) :
  D.unpackPermissions (withSets s sets) = D.unpackPermissions s.
Proof.
  assert (Hc : D.unpackPermissionsCore (withSets s sets) = D.unpackPermissionsCore s).
  { reflexivity. }
  unfold D.unpackPermissions. by rewrite Hc.
Qed.

(** X9: a name without an entry in the named set is answered with an entry
    that grants none of the capabilities. *)
Theorem missing_name_has_no_capability (s : D.t) (name : string) (p : NP.Permission) :
  NPM.at_ (D._agentPermissions s) (name, 0) = None →
  p ∈ NP.capabilities →
  NP.can (D.getPermissionsForName s name) p = false.
Proof.
  intros Hnone Hp. unfold D.getPermissionsForName. rewrite Hnone. cbn [default].
  unfold NP.capabilities in Hp. rewrite !elem_of_cons, elem_of_nil in Hp.
  destruct Hp as [->|[->|[->|[->|[->|[->|[]]]]]]]; reflexivity.
Qed.

Lemma missing_name_has_no_capability_witness :
  NP.can (D.getPermissionsForName Examples.settledSets "carol") NP.canConnectToDomain = false.
Proof.
  apply missing_name_has_no_capability.
  - vm_compute. reflexivity.
  - apply list_elem_of_here.
Defined.

(** X10: [unpackPermissions] writes to the four permission lists only: every
    other setting of the ["security"] group of the user map is as before. *)
Theorem unpackPermissions_keeps_other_settings (s : D.t) (k : string) :
  (∀ c, k ≠ listKeyOf c) →
  H.valueForSegments (H.userConfig (D._configMap (D.unpackPermissions s))) ["security"; k]
  = H.valueForSegments (H.userConfig (D._configMap s)) ["security"; k].
Proof. apply unpackPermissions_setting. Qed.

Lemma unpackPermissions_keeps_other_settings_witness :
  H.valueForSegments
    (H.userConfig (D._configMap (D.unpackPermissions Examples.plainPassword)))
    ["security"; "http_password"]
  = H.valueForSegments (H.userConfig (D._configMap Examples.plainPassword))
      ["security"; "http_password"].
Proof.
  apply unpackPermissions_keeps_other_settings. intros c. destruct c; discriminate.
Defined.

(** X11: [ensurePermissionsForGroupRanks] only adds entries: every entry of
    the permission set and of the forbidden set is afterwards where it was,
    unchanged. *)
Theorem rank_coverage_keeps_entries (s : D.t) (k : NodePermissionsKey) (e : NP.t) :
  let s1 := (D.ensurePermissionsForGroupRanks s).1 in
  (D._groupPermissions s !! k = Some e → D._groupPermissions s1 !! k = Some e)
  ∧ (D._groupForbiddens s !! k = Some e → D._groupForbiddens s1 !! k = Some e).
Proof.
  intros s1. subst s1.
  pose proof (ensureGroups_spec s (D.getGroupIDs s) (D._groupPermissions s)
                (D._groupPermissionsByUUID s) false) as Hp.
  cbn zeta in Hp.
  destruct (foldl (D.ensureGroup s) (D._groupPermissions s, D._groupPermissionsByUUID s, false)
              (D.getGroupIDs s)) as [[gp ip] c1] eqn:Ep.
  cbn [fst snd] in Hp. destruct Hp as ([Hpk _] & _).
  pose proof (ensureGroups_spec s (D.getBlacklistGroupIDs s) (D._groupForbiddens s)
                (D._groupForbiddensByUUID s) c1) as Hf.
  cbn zeta in Hf.
  destruct (foldl (D.ensureGroup s) (D._groupForbiddens s, D._groupForbiddensByUUID s, c1)
              (D.getBlacklistGroupIDs s)) as [[gf jf] c2] eqn:Ef.
  cbn [fst snd] in Hf. destruct Hf as ([Hfk _] & _).
  rewrite (ensurePermissionsForGroupRanks_eq s gp ip c1 gf jf c2 Ep Ef).
  split; [apply Hpk|apply Hfk].
Qed.

Lemma rank_coverage_keeps_entries_witness :
  D._groupForbiddens (D.ensurePermissionsForGroupRanks Examples.pilotsInBothSets).1
    !! ("pilots", 1)
  = Some (NP.set (NP.setGroupID (NP.fromKey ("pilots", 1)) Examples.pilotsID)
                 NP.canConnectToDomain).
Proof.
  apply (rank_coverage_keeps_entries Examples.pilotsInBothSets). vm_compute. reflexivity.
Defined.

(** X12: after [validateDescriptorsMap] the user map holds the weekday
    hours, the weekend hours and the UTC offset, none of them null, and each
    of the four stored permission lists holds the records it held. *)
Theorem validateDescriptorsMap_fills_descriptors (offset : Z) (s : D.t) :
  let u := H.userConfig (D._configMap (D.validateDescriptorsMap offset s)) in
  hasDescriptor u "weekday_hours" ∧ hasDescriptor u "weekend_hours"
  ∧ hasDescriptor u "utc_offset"
  ∧ ∀ c, storedList (D.validateDescriptorsMap offset s) (keyPathOf c)
         ≡ₚ storedList s (keyPathOf c).
Proof.
  intros u. subst u. repeat split.
  - apply validateDescriptorsMap_establishes. set_solver.
  - apply validateDescriptorsMap_establishes. set_solver.
  - apply validateDescriptorsMap_establishes. set_solver.
  - destruct (validateDescriptorsMap_frame offset s) as [L _]. exact L.
Qed.

(** X13: [getGroupIDs] and [getBlacklistGroupIDs] list exactly the group ids
    carried by the group entries of their set. *)
Theorem group_ids_are_those_of_group_entries (s : D.t) (g : QUuid) :
  (g ∈ D.getGroupIDs s
   ↔ ∃ k e, D._groupPermissions s !! k = Some e
            ∧ NP.isGroup e = true ∧ NP.getGroupID e = g)
  ∧ (g ∈ D.getBlacklistGroupIDs s
     ↔ ∃ k e, D._groupForbiddens s !! k = Some e
              ∧ NP.isGroup e = true ∧ NP.getGroupID e = g).
Proof. split; apply elem_of_groupIDsOf. Qed.

(** X14: [setGroupID] records the id under the lower-case name and the name
    under the id, and changes no capability word of either group set. *)
Theorem setGroupID_records_the_group (s : D.t) (groupName : string) (groupID : QUuid) :
  let s' := (D.setGroupID s groupName groupID).1 in
  D._groupIDs s' !! QStr.toLower groupName = Some groupID
  ∧ D._groupNames s' !! groupID = Some groupName
  ∧ permsView (D._groupPermissions s') = permsView (D._groupPermissions s)
  ∧ permsView (D._groupForbiddens s') = permsView (D._groupForbiddens s).
Proof.
  intros s'. destruct (setGroupID_spec s groupName groupID) as (_ & Hp & Hf & _).
  fold s' in Hp, Hf. split; [|split; [|by split]].
  - subst s'. unfold D.setGroupID.
    destruct (D.bindGroupEntries _ _ _) as [gp c1]. destruct (D.bindGroupEntries _ _ _) as [gf c2].
    cbn. apply lookup_insert_eq.
  - subst s'. unfold D.setGroupID.
    destruct (D.bindGroupEntries _ _ _) as [gp c1]. destruct (D.bindGroupEntries _ _ _) as [gf c2].
    cbn. apply lookup_insert_eq.
Qed.



